(** * PlayCanvas engine: render actions and rigid-body collision bookkeeping

    A shallow embedding of [RenderAction] (scene/composition/render-action.js)
    and of [RigidBodyComponentSystem]: the collision bookkeeping, the update
    of the world, the component data, the life of a body and the ray and
    shape tests, followed by the properties proved about them. *)

From Stdlib Require QArith.
From stdpp Require Import functions gmap strings list.

#[local] Set Warnings "-clear-no-such-hyp,-register-all".

(** ** JavaScript values that the embedded code can return *)

Inductive JSValue :=
  | JBool (b : bool)
  | JUndefined.

#[global] Instance JSValue_eq_dec : EqDecision JSValue.
Proof. solve_decision. Defined.

(** ** The render action *)

Module Composition.

(** A light is a JavaScript object: [lid] stands for its identity, so two
    distinct objects are distinct values even with equal fields. *)
Record Light := { lid : nat; castShadows : bool }.

#[global] Instance Light_eq_dec : EqDecision Light.
Proof. solve_decision. Defined.

#[global] Instance Light_countable : Countable Light.
Proof.
  refine (inj_countable' (λ l, (lid l, castShadows l))
                         (λ p, {| lid := p.1; castShadows := p.2 |}) _).
  by intros [].
Defined.

(** The part of [Layer] the render action reads. *)
Record Layer := { enabled : bool; _lightsSet : gset Light }.

(** The part of [LayerComposition] the render action reads. *)
Record LayerComposition := {
  layerList : list Layer;
  subLayerEnabled : list bool
}.

(** The fields of the render action that its methods touch. *)
Record RenderAction := {
  layerIndex : nat;
  directionalLightsSet : gset Light;
  directionalLights : list Light
}.

(** [isLayerEnabled]: reading [.enabled] of a missing layer is a TypeError
    ([None]); [a && b] yields [a] when it is falsy and [b] otherwise, and
    an index past the end of [subLayerEnabled] reads [undefined]. *)
Definition isLayerEnabled (this : RenderAction) (layerComposition : LayerComposition)
  : option JSValue :=
  match layerList layerComposition !! layerIndex this with
  | None => None
  | Some layer =>
      if enabled layer then
        match subLayerEnabled layerComposition !! layerIndex this with
        | Some b => Some (JBool b)
        | None => Some JUndefined
        end
      else Some (JBool false)
  end.

(** The inner loop of [collectDirectionalLights], over the camera layers. *)
Fixpoint collectLayers (light : Light) (cameraLayers : list Layer)
    (this : RenderAction) : RenderAction :=
  match cameraLayers with
  | [] => this
  | layer :: rest =>
      let this' :=
        if bool_decide (light ∈ _lightsSet layer) then
          if bool_decide (light ∈ directionalLightsSet this) then this
          else {| layerIndex := layerIndex this;
                  directionalLightsSet := {[ light ]} ∪ directionalLightsSet this;
                  directionalLights := directionalLights this ++ [light] |}
        else this in
      collectLayers light rest this'
  end.

(** The outer loop, over the directional lights. *)
Fixpoint collectLights (dirLights : list Light) (cameraLayers : list Layer)
    (this : RenderAction) : RenderAction :=
  match dirLights with
  | [] => this
  | light :: rest =>
      let this' :=
        if castShadows light then collectLayers light cameraLayers this
        else this in
      collectLights rest cameraLayers this'
  end.

(** [collectDirectionalLights]; the third parameter is unused by the code. *)
Definition collectDirectionalLights (this : RenderAction)
    (cameraLayers : list Layer) (dirLights allLights : list Light) : RenderAction :=
  collectLights dirLights cameraLayers
    {| layerIndex := layerIndex this;
       directionalLightsSet := ∅;
       directionalLights := [] |}.

End Composition.

(** ** The other methods of the render action *)

Module RenderActionMethods.
Import Composition.

(** A bind group of a view, with the uniform buffer that it owns; both are
    GPU objects, named here by a number. *)
Record BindGroup := { bindGroup : nat; defaultUniformBuffer : nat }.

(** The calls that [destroy] makes on them. *)
Inductive GpuCall :=
  | UniformBuffer_destroy (buffer : nat)
  | BindGroup_destroy (group : nat).

(** The render action with the two further fields that its methods write:
    [lightClusters] ([None] for null) and [viewBindGroups].  The fields that
    the constructor sets and no method of the class reads or writes (the
    layer, the camera and its index, the render target, the clear flags and
    the three flags of the camera use) are left out. *)
Record RenderActionObject := {
  lights : RenderAction;
  lightClusters : option nat;
  viewBindGroups : list BindGroup
}.

Definition constructor : RenderActionObject :=
  {| lights := {| layerIndex := 0; directionalLightsSet := ∅; directionalLights := [] |};
     lightClusters := None;
     viewBindGroups := [] |}.

(** [destroy]: [forEach] over the bind groups, then [length = 0]. *)
Definition destroy (this : RenderActionObject) : RenderActionObject * list GpuCall :=
  ({| lights := lights this; lightClusters := lightClusters this; viewBindGroups := [] |},
   flat_map (λ bg, [UniformBuffer_destroy (defaultUniformBuffer bg);
                    BindGroup_destroy (bindGroup bg)])
            (viewBindGroups this)).

(** The getter [hasDirectionalShadowLights]. *)
Definition hasDirectionalShadowLights (this : RenderActionObject) : bool :=
  bool_decide (0 < length (directionalLights (lights this))).

Definition reset (this : RenderActionObject) : RenderActionObject :=
  {| lights := {| layerIndex := layerIndex (lights this);
                  directionalLightsSet := ∅;
                  directionalLights := [] |};
     lightClusters := None;
     viewBindGroups := viewBindGroups this |}.

(** [collectDirectionalLights] on the whole object. *)
Definition collect (this : RenderActionObject) (cameraLayers : list Layer)
    (dirLights allLights : list Light) : RenderActionObject :=
  {| lights := collectDirectionalLights (lights this) cameraLayers dirLights allLights;
     lightClusters := lightClusters this;
     viewBindGroups := viewBindGroups this |}.

(** A call of one of the methods that change the object. *)
Inductive Method :=
  | Reset
  | Collect (cameraLayers : list Layer) (dirLights allLights : list Light)
  | Destroy.

Definition call (this : RenderActionObject) (m : Method) : RenderActionObject :=
  match m with
  | Reset => reset this
  | Collect cameraLayers dirLights allLights =>
      collect this cameraLayers dirLights allLights
  | Destroy => (destroy this).1
  end.

End RenderActionMethods.

(** ** Numbers and vectors

    The engine computes with JavaScript doubles.  The embedding keeps the
    number type and its operations abstract, so that every statement below
    is about the structure of the computation and not about rounding.
    [nne] is the operator [!==] on numbers; it is not the inequality of the
    values, since NaN is unequal to itself and the two zeros are equal. *)

Class JSNumber (num : Type) := {
  num_eq_dec :: EqDecision num;
  nlit : Z → num;               (* an integer literal *)
  nadd : num → num → num;       (* a + b *)
  nsub : num → num → num;       (* a - b *)
  nmul : num → num → num;       (* a * b *)
  ndiv : num → num → num;       (* a / b *)
  nsqrt : num → num;            (* Math.sqrt *)
  nfround : num → num;          (* a store into a Float32Array *)
  ndecimal : Z → nat → num;     (* the literal m·10^-e, as in -9.81 *)
  nlt : num → num → bool;       (* a < b *)
  nne : num → num → bool        (* a !== b *)
}.

Module Math.
Section vec3.
Context `{JSNumber num}.

(** Modelled from the spec: the class [Vec3] (core/math/vec3.js) is
    imported by the source but is not part of it.  The three methods that
    the casts call are modelled by their names: the componentwise sum and
    the division by a scalar, whose result the caller writes back to the
    receiver (the source says of the start vector that it is transformed),
    and the Euclidean distance. *)
Record Vec3 := { x : num; y : num; z : num }.

#[global] Instance Vec3_eq_dec : EqDecision Vec3.
Proof. solve_decision. Defined.

Definition add (this rhs : Vec3) : Vec3 :=
  {| x := nadd (x this) (x rhs); y := nadd (y this) (y rhs);
     z := nadd (z this) (z rhs) |}.

Definition divScalar (this : Vec3) (scalar : num) : Vec3 :=
  {| x := ndiv (x this) scalar; y := ndiv (y this) scalar;
     z := ndiv (z this) scalar |}.

Definition distance (this rhs : Vec3) : num :=
  let dx := nsub (x this) (x rhs) in
  let dy := nsub (y this) (y rhs) in
  let dz := nsub (z this) (z rhs) in
  nsqrt (nadd (nadd (nmul dx dx) (nmul dy dy)) (nmul dz dz)).

Definition ZERO : Vec3 := {| x := nlit 0; y := nlit 0; z := nlit 0 |}.

(** [Quat] (core/math/quat.js) is not part of the source either; only its
    four components are read. *)
Record Quat := { qx : num; qy : num; qz : num; qw : num }.
End vec3.
Arguments Vec3 num : clear implicits.
Arguments Quat num : clear implicits.
End Math.

(** ** The rigid-body component system *)

Module RigidBody.

(** *** Entities, components and events *)

Inductive EventName :=
  | collisionstart | collisionend | contact | triggerenter | triggerleave.

#[global] Instance EventName_eq_dec : EqDecision EventName.
Proof. solve_decision. Defined.

(** A component is an event emitter; [handlers] lists the event names for
    which a callback is attached. *)
Record Component := { handlers : list EventName }.

#[global] Instance Component_eq_dec : EqDecision Component.
Proof. solve_decision. Defined.

Definition hasEvent (c : Component) (name : EventName) : bool :=
  bool_decide (name ∈ handlers c).

(** An entity is a JavaScript object: [eid] stands for its identity, and
    [indexOf] on arrays of entities compares by identity.  [trigger] is the
    truthiness of [entity.trigger]. *)
Record Entity := {
  eid : nat;
  getGuid : string;
  collision : option Component;
  rigidbody : option Component;
  trigger : bool
}.

#[global] Instance Entity_eq_dec : EqDecision Entity.
Proof. solve_decision. Defined.

(** An entry of [this.collisions] and of [this.frameCollisions]. *)
Record CollisionRecord := { others : list Entity; entity : Entity }.

Section system.
Context `{JSNumber num}.

(** The constants come from rigid-body/constants.js, which is not part of
    the source: they are parameters of the development. *)
Variable BODYFLAG_NORESPONSE_OBJECT : Z.
Variable BODYSTATE_ACTIVE_TAG : Z.
Variable BODYSTATE_DISABLE_DEACTIVATION : Z.

Local Abbreviation Vec3 := (Math.Vec3 num).

(** *** Results handed to event callbacks *)

Record ContactPoint := {
  localPoint : Vec3;
  localPointOther : Vec3;
  point : Vec3;
  pointOther : Vec3;
  normal : Vec3;
  impulse : num
}.

Record ContactResult := { other : Entity; contacts : list ContactPoint }.

Record SingleContactResult := {
  a : Entity;
  b : Entity;
  sc_impulse : num;
  localPointA : Vec3;
  localPointB : Vec3;
  pointA : Vec3;
  pointB : Vec3;
  sc_normal : Vec3
}.

(** *** What the wrapped library exposes to the collision check *)

Record btManifoldPoint := {
  get_m_localPointA : Vec3;
  get_m_localPointB : Vec3;
  getPositionWorldOnA : Vec3;
  getPositionWorldOnB : Vec3;
  get_m_normalWorldOnB : Vec3;
  getAppliedImpulse : num
}.

(** [bodyEntity] is the [entity] property of the body ([None] when it is
    null or undefined). *)
Record btRigidBody := {
  bodyEntity : option Entity;
  getCollisionFlags : Z
}.

Record btPersistentManifold := {
  getBody0 : btRigidBody;
  getBody1 : btRigidBody;
  contactPoints : list btManifoldPoint
}.

Definition getNumContacts (manifold : btPersistentManifold) : nat :=
  length (contactPoints manifold).

(** [flags & BODYFLAG_NORESPONSE_OBJECT] used as a condition; on the 32-bit
    integers that collision flags are, [&] is [Z.land]. *)
Definition noResponse (flags : Z) : bool :=
  negb (Z.land flags BODYFLAG_NORESPONSE_OBJECT =? 0)%Z.

(** *** Fired events

    An event is recorded when it is fired.  The callbacks belong to the
    application: they are not run. *)

Inductive Target :=
  | OnCollision (e : Entity)      (* e.collision.fire(...) *)
  | OnRigidbody (e : Entity)      (* e.rigidbody.fire(...) *)
  | OnSystem.                     (* this.fire(...) *)

Inductive Payload :=
  | EntityArg (e : Entity)
  | ContactResultArg (r : ContactResult)
  | SingleContactResultArg (r : SingleContactResult).

Record Fired := { target : Target; name : EventName; payload : Payload }.

(** *** The state of the system that the collision check reads and writes *)

Record System := {
  collisions : gmap string CollisionRecord;
  frameCollisions : gmap string CollisionRecord;
  systemHandlers : list EventName
}.

Definition set_collisions (m : gmap string CollisionRecord) (this : System) :=
  {| collisions := m; frameCollisions := frameCollisions this;
     systemHandlers := systemHandlers this |}.

Definition set_frameCollisions (m : gmap string CollisionRecord) (this : System) :=
  {| collisions := collisions this; frameCollisions := m;
     systemHandlers := systemHandlers this |}.

(** A method of the system computes a result, updates the system and
    fires events, in order. *)
Definition Sys (A : Type) : Type := System → A * System * list Fired.

Definition ret {A} (v : A) : Sys A := λ this, (v, this, []).

Definition bind {A B} (m : Sys A) (k : A → Sys B) : Sys B :=
  λ this,
    let '(v, this1, fired1) := m this in
    let '(w, this2, fired2) := k v this1 in
    (w, this2, fired1 ++ fired2).

Definition fire (t : Target) (n : EventName) (p : Payload) : Sys unit :=
  λ this, (tt, this, [ {| target := t; name := n; payload := p |} ]).

Definition when (c : bool) (m : Sys unit) : Sys unit :=
  if c then m else ret tt.

Fixpoint forEach {A} (l : list A) (body : A → Sys unit) : Sys unit :=
  match l with
  | [] => ret tt
  | v :: rest => bind (body v) (λ _, forEach rest body)
  end.

(** The three components of the outcome of a method. *)
Definition valueOf {A} (r : A * System * list Fired) : A := r.1.1.
Definition stateOf {A} (r : A * System * list Fired) : System := r.1.2.
Definition firedOf {A} (r : A * System * list Fired) : list Fired := r.2.

Notation "x <- m ;; k" := (bind m (λ x, k))
  (at level 100, m at next level, right associativity).
Notation "m ;; k" := (bind m (λ _, k))
  (at level 100, right associativity).

(** [this.hasEvent(name)] on the system itself. *)
Definition systemHasEvent (n : EventName) : Sys bool :=
  λ this, (bool_decide (n ∈ systemHandlers this), this, []).

(** *** [_storeCollision]

    [this.collisions[guid] || { others: [], entity }] keeps an existing
    record; [indexOf(other) < 0] is absence from the array.  The two maps
    hold separate record objects, so the two pushes do not alias.  The maps
    are plain objects keyed by guid: a guid is taken not to be the name of a
    property that every object inherits. *)
Definition _storeCollision (ent oth : Entity) : Sys bool :=
  λ this,
    let guid := getGuid ent in
    let collision0 :=
      default {| others := []; entity := ent |} (collisions this !! guid) in
    let isNewCollision := bool_decide (oth ∉ others collision0) in
    let collision1 :=
      if isNewCollision
      then {| others := others collision0 ++ [oth]; entity := entity collision0 |}
      else collision0 in
    let frame0 :=
      default {| others := []; entity := ent |} (frameCollisions this !! guid) in
    let frame1 :=
      {| others := others frame0 ++ [oth]; entity := entity frame0 |} in
    (isNewCollision,
     {| collisions := <[guid := collision1]> (collisions this);
        frameCollisions := <[guid := frame1]> (frameCollisions this);
        systemHandlers := systemHandlers this |},
     []).

(** *** Building the results (the object pools are modelled by values) *)

Definition _createContactPointFromAmmo (contactPoint : btManifoldPoint) : ContactPoint :=
  {| localPoint := get_m_localPointA contactPoint;
     localPointOther := get_m_localPointB contactPoint;
     point := getPositionWorldOnA contactPoint;
     pointOther := getPositionWorldOnB contactPoint;
     normal := get_m_normalWorldOnB contactPoint;
     impulse := getAppliedImpulse contactPoint |}.

Definition _createReverseContactPointFromAmmo (contactPoint : btManifoldPoint)
  : ContactPoint :=
  {| localPoint := get_m_localPointB contactPoint;
     localPointOther := get_m_localPointA contactPoint;
     point := getPositionWorldOnB contactPoint;
     pointOther := getPositionWorldOnA contactPoint;
     normal := get_m_normalWorldOnB contactPoint;
     impulse := getAppliedImpulse contactPoint |}.

Definition _createSingleContactResult (a0 b0 : Entity) (contactPoint : ContactPoint)
  : SingleContactResult :=
  {| a := a0; b := b0;
     sc_impulse := impulse contactPoint;
     localPointA := localPoint contactPoint;
     localPointB := localPointOther contactPoint;
     pointA := point contactPoint;
     pointB := pointOther contactPoint;
     sc_normal := normal contactPoint |}.

Definition _createContactResult (oth : Entity) (cs : list ContactPoint) : ContactResult :=
  {| other := oth; contacts := cs |}.

(** *** [_cleanOldCollisions] *)

(** [!frameCollision || frameCollision.others.indexOf(other) < 0] *)
Definition goneThisFrame (frameCollision : option CollisionRecord) (oth : Entity) : bool :=
  match frameCollision with
  | None => true
  | Some fc => bool_decide (oth ∉ others fc)
  end.

(** The events of one removed contact. *)
Definition leaveEvents (ent oth : Entity) : list Fired :=
  if trigger ent then
    (if collision ent is Some _
     then [ {| target := OnCollision ent; name := triggerleave; payload := EntityArg oth |} ]
     else []) ++
    (if rigidbody oth is Some _
     then [ {| target := OnRigidbody oth; name := triggerleave; payload := EntityArg ent |} ]
     else [])
  else if negb (trigger oth) then
    (if rigidbody ent is Some _
     then [ {| target := OnRigidbody ent; name := collisionend; payload := EntityArg oth |} ]
     else []) ++
    (if collision ent is Some _
     then [ {| target := OnCollision ent; name := collisionend; payload := EntityArg oth |} ]
     else [])
  else [].

(** [let i = length; while (i--) { ... }]: the first argument is the value
    of [i] before the test, the body runs at index [i - 1].  The index is
    always inside the array; were it not, the model leaves it alone. *)
Fixpoint cleanOthers (i : nat) (frameCollision : option CollisionRecord)
    (ent : Entity) (os : list Entity) : list Entity * list Fired :=
  match i with
  | O => (os, [])
  | S i' =>
      match os !! i' with
      | Some oth =>
          if goneThisFrame frameCollision oth then
            let '(os', fired) := cleanOthers i' frameCollision ent (delete i' os) in
            (os', leaveEvents ent oth ++ fired)
          else cleanOthers i' frameCollision ent os
      | None => cleanOthers i' frameCollision ent os
      end
  end.

(** The body of the [for (const guid in this.collisions)] loop. *)
Definition cleanGuid (guid : string) : Sys unit :=
  λ this,
    match collisions this !! guid with
    | None => (tt, this, [])
    | Some collision0 =>
        let frameCollision := frameCollisions this !! guid in
        let '(os, fired) :=
          cleanOthers (length (others collision0)) frameCollision
                      (entity collision0) (others collision0) in
        let collisions' :=
          if bool_decide (length os = 0%nat)
          then delete guid (collisions this)
          else <[guid := {| others := os; entity := entity collision0 |}]>
                 (collisions this) in
        (tt, set_collisions collisions' this, fired)
    end.

(** The keys are enumerated once, before the loop body runs; the model
    enumerates them in the order of the map, which can differ from the
    insertion order that JavaScript uses. *)
Definition _cleanOldCollisions : Sys unit :=
  λ this, forEach (map_to_list (collisions this)).*1 cleanGuid this.

(** *** [_hasContactEvent] *)

Definition listensToContact (c : option Component) : bool :=
  match c with
  | Some c => hasEvent c collisionstart || hasEvent c collisionend || hasEvent c contact
  | None => false
  end.

Definition _hasContactEvent (ent : Entity) : bool :=
  if listensToContact (collision ent) then true
  else listensToContact (rigidbody ent).

(** *** [_checkForCollisions] *)

(** [c && (c.hasEvent('triggerenter') || c.hasEvent('triggerleave'))] *)
Definition listensToTrigger (c : option Component) : bool :=
  match c with
  | Some c => hasEvent c triggerenter || hasEvent c triggerleave
  | None => false
  end.

(** The branch taken when a body has the no-response flag.
    [newCollision] is declared without a value: it is falsy until a call
    of [_storeCollision] assigns it. *)
Definition triggerBranch (e0 e1 : Entity) (flags0 flags1 : Z) : Sys unit :=
  let e0Events := listensToTrigger (collision e0) in
  let e1Events := listensToTrigger (collision e1) in
  let e0BodyEvents := listensToTrigger (rigidbody e0) in
  let e1BodyEvents := listensToTrigger (rigidbody e1) in
  newCollision <-
    (if e0Events then
       nc <- _storeCollision e0 e1 ;;
       when (nc && negb (noResponse flags1))
            (fire (OnCollision e0) triggerenter (EntityArg e1)) ;;
       ret nc
     else ret false) ;;
  newCollision <-
    (if e1Events then
       nc <- _storeCollision e1 e0 ;;
       when (nc && negb (noResponse flags0))
            (fire (OnCollision e1) triggerenter (EntityArg e0)) ;;
       ret nc
     else ret newCollision) ;;
  newCollision <-
    (if e0BodyEvents then
       nc <- (if negb newCollision then _storeCollision e1 e0 else ret newCollision) ;;
       when nc (fire (OnRigidbody e0) triggerenter (EntityArg e1)) ;;
       ret nc
     else ret newCollision) ;;
  (if e1BodyEvents then
     nc <- (if negb newCollision then _storeCollision e0 e1 else ret newCollision) ;;
     when nc (fire (OnRigidbody e1) triggerenter (EntityArg e0))
   else ret tt).

(** [for (let j = 0; j < numContacts; j++)], over the contact points that
    are still to be visited. *)
Fixpoint contactLoop (e0 e1 : Entity) (e0Events e1Events globalEvents : bool)
    (pts : list btManifoldPoint) (forwardContacts reverseContacts : list ContactPoint)
  : Sys (list ContactPoint * list ContactPoint) :=
  match pts with
  | [] => ret (forwardContacts, reverseContacts)
  | btContactPoint :: rest =>
      let contactPoint := _createContactPointFromAmmo btContactPoint in
      let '(forwardContacts', reverseContacts') :=
        if e0Events || e1Events
        then (forwardContacts ++ [contactPoint],
              reverseContacts ++ [_createReverseContactPointFromAmmo btContactPoint])
        else (forwardContacts, reverseContacts) in
      when globalEvents
           (fire OnSystem contact
              (SingleContactResultArg (_createSingleContactResult e0 e1 contactPoint))) ;;
      contactLoop e0 e1 e0Events e1Events globalEvents rest
                  forwardContacts' reverseContacts'
  end.

(** The block run for an entity with contact callbacks; the source has
    it twice, for [e0] with the forward contacts and for [e1] with the
    reverse ones. *)
Definition notifyContact (ent oth : Entity) (cs : list ContactPoint) : Sys unit :=
  let result := ContactResultArg (_createContactResult oth cs) in
  newCollision <- _storeCollision ent oth ;;
  (if collision ent is Some _ then
     fire (OnCollision ent) contact result ;;
     when newCollision (fire (OnCollision ent) collisionstart result)
   else ret tt) ;;
  (if rigidbody ent is Some _ then
     fire (OnRigidbody ent) contact result ;;
     when newCollision (fire (OnRigidbody ent) collisionstart result)
   else ret tt).

(** The branch taken when no body has the no-response flag. *)
Definition contactBranch (e0 e1 : Entity) (pts : list btManifoldPoint) : Sys unit :=
  let e0Events := _hasContactEvent e0 in
  let e1Events := _hasContactEvent e1 in
  globalEvents <- systemHasEvent contact ;;
  if globalEvents || e0Events || e1Events then
    cs <- contactLoop e0 e1 e0Events e1Events globalEvents pts [] [] ;;
    (if e0Events then notifyContact e0 e1 cs.1 else ret tt) ;;
    (if e1Events then notifyContact e1 e0 cs.2 else ret tt)
  else ret tt.

(** The body of the loop over the manifolds of the dispatcher. *)
Definition checkManifold (manifold : btPersistentManifold) : Sys unit :=
  let wb0 := getBody0 manifold in
  let wb1 := getBody1 manifold in
  match bodyEntity wb0, bodyEntity wb1 with
  | Some e0, Some e1 =>
      let flags0 := getCollisionFlags wb0 in
      let flags1 := getCollisionFlags wb1 in
      if (0 <? getNumContacts manifold)%nat then
        if noResponse flags0 || noResponse flags1
        then triggerBranch e0 e1 flags0 flags1
        else contactBranch e0 e1 (contactPoints manifold)
      else ret tt
  | _, _ => ret tt      (* continue *)
  end.

(** [_checkForCollisions]; the argument is the list of manifolds that the
    dispatcher of the world holds when the check runs.  The three pools that
    the method frees at its end hold the results, which are values here. *)
Definition _checkForCollisions (manifolds : list btPersistentManifold) : Sys unit :=
  (λ this, (tt, set_frameCollisions ∅ this, [])) ;;
  forEach manifolds checkManifold ;;
  _cleanOldCollisions.

(** *** The system and the wrapped library

    The calls that leave the system, in the order in which they are made. *)

Local Abbreviation Quat := (Math.Quat num).

(** The optional entry points of the wrapped library, and the gravity of a
    world that it has just created. *)
Record AmmoLibrary := {
  has_setInternalTickCallback : bool;
  has_AllHitsRayResultCallback : bool;
  has_ConcreteContactResultCallback : bool;
  initialGravity : Vec3
}.

Inductive btCollisionShape :=
  | btBoxShape (halfExtents : Vec3)
  | btCapsuleShapeZ (radius height : num).

Inductive Rotation :=
  | ByQuat (q : Quat)          (* rotation instanceof Quat *)
  | ByEuler (v : Vec3).

Inductive Call :=
  | Debug_warn (message : string)
  | Debug_assert (assertion : bool) (message : string)
  | Ammo_addFunction
  | setInternalTickCallback
  | systems_on_update
  | systems_off_update
  | getGravity
  | setGravity (g : Vec3)
  | updateTransform (component : nat)
  | _updateCompound (component : nat)
  | _updateKinematic (component : nat)
  | _updateDynamic (component : nat)
  | stepSimulation (dt maxSubSteps fixedTimeStep : num)
  | internalTick (fired : list Fired)      (* the callback, run by the world *)
  | manualCheck (fired : list Fired)       (* _checkForCollisions, run by onUpdate *)
  | new_AllHitsRayResultCallback
  | rayTest (rayStart rayEnd : Vec3)
  | new_ConcreteContactResultCallback
  | setWorldTransform (position : Vec3) (rotation : Rotation)
  | createBody
  | setCollisionShape (shape : option btCollisionShape)
  | forceActivationState (state : Z)
  | contactTest
  | Ammo_destroy (what : string).

(** The dynamics world: the gravity it holds in single precision, whether
    it has the method [setInternalTickCallback], and whether the collision
    check has been registered with it. *)
Record btDiscreteDynamicsWorld := {
  worldGravity : Vec3;
  exposesTickCallback : bool;
  tickCallback : bool
}.

(** The fields of the system that the modelled methods use; a component in
    the four arrays is its index in the application. *)
Record RigidBodyComponentSystem := {
  maxSubSteps : num;
  fixedTimeStep : num;
  gravity : Vec3;
  _gravityFloat32 : Vec3;
  _dynamic : list nat;
  _kinematic : list nat;
  _triggers : list nat;
  _compounds : list nat;
  bookkeeping : System;              (* collisions, frameCollisions, handlers *)
  dynamicsWorld : option btDiscreteDynamicsWorld
}.

Definition set_bookkeeping (b : System) (this : RigidBodyComponentSystem) :=
  {| maxSubSteps := maxSubSteps this; fixedTimeStep := fixedTimeStep this;
     gravity := gravity this; _gravityFloat32 := _gravityFloat32 this;
     _dynamic := _dynamic this; _kinematic := _kinematic this;
     _triggers := _triggers this; _compounds := _compounds this;
     bookkeeping := b; dynamicsWorld := dynamicsWorld this |}.

Definition set_dynamicsWorld (w : option btDiscreteDynamicsWorld)
    (this : RigidBodyComponentSystem) :=
  {| maxSubSteps := maxSubSteps this; fixedTimeStep := fixedTimeStep this;
     gravity := gravity this; _gravityFloat32 := _gravityFloat32 this;
     _dynamic := _dynamic this; _kinematic := _kinematic this;
     _triggers := _triggers this; _compounds := _compounds this;
     bookkeeping := bookkeeping this; dynamicsWorld := w |}.

Definition set__gravityFloat32 (g : Vec3) (this : RigidBodyComponentSystem) :=
  {| maxSubSteps := maxSubSteps this; fixedTimeStep := fixedTimeStep this;
     gravity := gravity this; _gravityFloat32 := g;
     _dynamic := _dynamic this; _kinematic := _kinematic this;
     _triggers := _triggers this; _compounds := _compounds this;
     bookkeeping := bookkeeping this; dynamicsWorld := dynamicsWorld this |}.

(** The field initialisers and the constructor. *)
Definition constructor : RigidBodyComponentSystem :=
  {| maxSubSteps := nlit 10;
     fixedTimeStep := ndiv (nlit 1) (nlit 60);
     gravity := {| Math.x := nlit 0; Math.y := ndecimal (-981) 2; Math.z := nlit 0 |};
     _gravityFloat32 := Math.ZERO;
     _dynamic := []; _kinematic := []; _triggers := []; _compounds := [];
     bookkeeping := {| collisions := ∅; frameCollisions := ∅; systemHandlers := [] |};
     dynamicsWorld := None |}.

Definition tickCallbackWarning : string :=
  "WARNING: This version of ammo.js can potentially fail to report contacts. Please update it to the latest version.".

(** [onLibraryLoaded]; the argument is the global [Ammo], [None] when it is
    undefined. *)
Definition onLibraryLoaded (Ammo : option AmmoLibrary) (this : RigidBodyComponentSystem)
  : RigidBodyComponentSystem * list Call :=
  match Ammo with
  | Some lib =>
      let world :=
        {| worldGravity := initialGravity lib;
           exposesTickCallback := has_setInternalTickCallback lib;
           tickCallback := has_setInternalTickCallback lib |} in
      (set_dynamicsWorld (Some world) this,
       (if exposesTickCallback world
        then [Ammo_addFunction; setInternalTickCallback]
        else [Debug_warn tickCallbackWarning]) ++
       [systems_on_update])
  | None => (this, [systems_off_update])
  end.

(** What the wrapped library does in one call of [stepSimulation]: the
    manifolds of its dispatcher at each internal tick, and after the call. *)
Record StepOutcome := {
  ticks : list (list btPersistentManifold);
  manifoldsAfter : list btPersistentManifold
}.

(** The internal ticks of one step: the world runs the registered callback
    once per tick. *)
Fixpoint runTicks (ts : list (list btPersistentManifold)) (b : System)
  : System * list Call :=
  match ts with
  | [] => (b, [])
  | manifolds :: rest =>
      let r := _checkForCollisions manifolds b in
      let '(b', calls) := runTicks rest (stateOf r) in
      (b', internalTick (firedOf r) :: calls)
  end.

(** [onUpdate]; without a dynamics world the method throws ([None]). *)
Definition onUpdate (dt : num) (outcome : StepOutcome) (this : RigidBodyComponentSystem)
  : option (RigidBodyComponentSystem * list Call) :=
  match dynamicsWorld this with
  | None => None
  | Some world =>
      let float32 :=
        {| Math.x := nfround (Math.x (gravity this));
           Math.y := nfround (Math.y (gravity this));
           Math.z := nfround (Math.z (gravity this)) |} in
      let differs :=
        nne (Math.x (worldGravity world)) (Math.x float32) ||
        nne (Math.y (worldGravity world)) (Math.y float32) ||
        nne (Math.z (worldGravity world)) (Math.z float32) in
      let world1 :=
        if differs
        then {| worldGravity := float32;
                exposesTickCallback := exposesTickCallback world;
                tickCallback := tickCallback world |}
        else world in
      let '(b1, tickCalls) :=
        if tickCallback world1 then runTicks (ticks outcome) (bookkeeping this)
        else (bookkeeping this, []) in
      let manual :=
        if negb (exposesTickCallback world1)
        then Some (_checkForCollisions (manifoldsAfter outcome) b1)
        else None in
      let b2 := from_option stateOf b1 manual in
      Some (set_bookkeeping b2
              (set_dynamicsWorld (Some world1) (set__gravityFloat32 float32 this)),
            [getGravity] ++
            (if differs then [setGravity (gravity this)] else []) ++
            map updateTransform (_triggers this) ++
            map _updateCompound (_compounds this) ++
            map _updateKinematic (_kinematic this) ++
            [stepSimulation dt (maxSubSteps this) (fixedTimeStep this)] ++
            tickCalls ++
            map _updateDynamic (_dynamic this) ++
            from_option (λ r, [manualCheck (firedOf r)]) [] manual)
  end.

(** *** Ray casts and shape tests *)

Record RaycastResult := {
  rr_entity : option Entity;
  rr_point : Vec3;
  rr_normal : Vec3
}.

Record HitResult := {
  hr_entity : Entity;
  hr_point : Vec3;
  hr_normal : Vec3
}.

(** One hit of [rayTest]: the collision object cast to a rigid body ([None]
    when the cast fails), the hit point and the hit normal. *)
Definition RayHit : Type := option btRigidBody * Vec3 * Vec3.

(** One call of [addSingleResult] by [contactTest]. *)
Record ContactTestResult := {
  ct_body1 : btRigidBody;
  ct_getDistance : num;
  ct_positionWorldOnB : Vec3;
  ct_normalWorldOnB : Vec3
}.

Definition raycastAllMessage : string :=
  "pc.RigidBodyComponentSystem#raycastAll: Your version of ammo.js does not expose Ammo.AllHitsRayResultCallback. Update it to latest.".

Definition shapeTestMessage : string :=
  "pc.RigidBodyComponentSystem#_shapecast: Your version of ammo.js does not expose Ammo.ConcreteContactResultCallback. Update it to latest.".

(** [raycastAll]; [new] of an entry point that the library lacks throws
    ([None]), after the assertion has reported it. *)
Definition raycastAll (Ammo : AmmoLibrary) (start end_ : Vec3) (hits : list RayHit)
  : list Call * option (list RaycastResult) :=
  let asserted :=
    [Debug_assert (has_AllHitsRayResultCallback Ammo) raycastAllMessage] in
  if has_AllHitsRayResultCallback Ammo then
    (asserted ++
     [new_AllHitsRayResultCallback; rayTest start end_; Ammo_destroy "rayCallback"],
     Some (omap (λ hit : RayHit,
                   match hit with
                   | (Some body, p, n) =>
                       Some {| rr_entity := bodyEntity body; rr_point := p;
                               rr_normal := n |}
                   | (None, _, _) => None
                   end) hits))
  else (asserted, None).

(** The callback given to [contactTest]. *)
Definition addSingleResult (c : ContactTestResult) : option HitResult :=
  match bodyEntity (ct_body1 c) with
  | Some e =>
      if nlt (ct_getDistance c) (nlit 0)
      then Some {| hr_entity := e; hr_point := ct_positionWorldOnB c;
                   hr_normal := ct_normalWorldOnB c |}
      else None
  | None => None
  end.

(** [_shapeTest]; [shapeTestBody] is the module variable that holds the
    body of the tests once it has been created, and the first component of
    the result is its new value. *)
Definition _shapeTest (Ammo : AmmoLibrary) (shapeTestBody : bool)
    (shape : btCollisionShape) (position : Vec3) (rotation : Rotation)
    (contacts : list ContactTestResult)
  : bool * list Call * option (list HitResult) :=
  let before :=
    [Debug_assert (has_ConcreteContactResultCallback Ammo) shapeTestMessage] ++
    (if shapeTestBody then [] else [createBody]) ++
    [setCollisionShape (Some shape); setWorldTransform position rotation;
     forceActivationState BODYSTATE_ACTIVE_TAG] in
  if has_ConcreteContactResultCallback Ammo then
    (true,
     before ++
     [new_ConcreteContactResultCallback; contactTest;
      forceActivationState BODYSTATE_DISABLE_DEACTIVATION; setCollisionShape None;
      Ammo_destroy "resultCallback"; Ammo_destroy "shape"],
     Some (omap addSingleResult contacts))
  else (true, before, None).

(** *** Box and sphere casts

    The vectors that a caller passes are objects that the casts write to:
    a heap maps each object to its value. *)
Local Abbreviation Heap := (nat → Vec3).

(** [Mat4.setLookAt] followed by [Quat.setFromMat4], with [Vec3.UP] as the
    up vector; neither class is part of the source. *)
Variable lookAtRotation : Vec3 → Vec3 → Quat.

Definition boxCast (Ammo : AmmoLibrary) (shapeTestBody : bool)
    (halfExtents start end_ : nat) (contacts : list ContactTestResult) (heap : Heap)
  : Heap * (bool * list Call * option (list HitResult)) :=
  (* halfExtents.z += start.distance(end) / 2 *)
  let h := heap halfExtents in
  let heap1 : nat → Vec3 :=
    <[halfExtents :=
        {| Math.x := Math.x h; Math.y := Math.y h;
           Math.z := nadd (Math.z h)
                          (ndiv (Math.distance (heap start) (heap end_)) (nlit 2)) |}]>
      heap in
  let shapecastRotation := lookAtRotation (heap1 start) (heap1 end_) in
  (* start.add(end).divScalar(2) *)
  let heap2 : nat → Vec3 := <[start := Math.add (heap1 start) (heap1 end_)]> heap1 in
  let heap3 : nat → Vec3 := <[start := Math.divScalar (heap2 start) (nlit 2)]> heap2 in
  (heap3,
   _shapeTest Ammo shapeTestBody (btBoxShape (heap3 halfExtents)) (heap3 start)
              (ByQuat shapecastRotation) contacts).

Definition sphereCast (Ammo : AmmoLibrary) (shapeTestBody : bool)
    (radius : num) (start end_ : nat) (contacts : list ContactTestResult) (heap : Heap)
  : Heap * (bool * list Call * option (list HitResult)) :=
  let height := Math.distance (heap start) (heap end_) in
  let shapecastRotation := lookAtRotation (heap start) (heap end_) in
  let heap1 : nat → Vec3 := <[start := Math.add (heap start) (heap end_)]> heap in
  let heap2 : nat → Vec3 := <[start := Math.divScalar (heap1 start) (nlit 2)]> heap1 in
  (heap2,
   _shapeTest Ammo shapeTestBody (btCapsuleShapeZ radius height) (heap2 start)
              (ByQuat shapecastRotation) contacts).

(** The arguments of the calls of [stepSimulation] among the calls, the events
    of the checks that the update runs itself, and those of the checks that
    the world runs at its ticks. *)
Definition stepCalls (calls : list Call) : list (num * num * num) :=
  omap (λ c, match c with stepSimulation dt n h => Some (dt, n, h) | _ => None end)
       calls.

Definition manualChecks (calls : list Call) : list (list Fired) :=
  omap (λ c, match c with manualCheck f => Some f | _ => None end) calls.

Definition internalTicks (calls : list Call) : list (list Fired) :=
  omap (λ c, match c with internalTick f => Some f | _ => None end) calls.

(** The sub-step settings of a system are the ones of the field
    initialisers. *)
Definition defaultStepping (this : RigidBodyComponentSystem) : Prop :=
  maxSubSteps this = nlit 10 ∧ fixedTimeStep this = ndiv (nlit 1) (nlit 60).

(** *** Vocabulary for the statements about the collision check *)

(** The entities recorded in a map as in contact with the entity of guid
    [guid]; no record is the same as an empty one. *)
Definition othersAt (m : gmap string CollisionRecord) (guid : string) : list Entity :=
  match m !! guid with
  | Some c => others c
  | None => []
  end.

(** Every record is stored under the guid of its entity. *)
Definition keyed (m : gmap string CollisionRecord) : Prop :=
  ∀ guid c, m !! guid = Some c → getGuid (entity c) = guid.

(** The entity on whose component an event is fired, and the other
    entity that the event is about. *)
Definition firedOn (ev : Fired) : option Entity :=
  match target ev with
  | OnCollision e | OnRigidbody e => Some e
  | OnSystem => None
  end.

Definition firedAbout (ev : Fired) : option Entity :=
  match payload ev with
  | EntityArg e => Some e
  | ContactResultArg r => Some (other r)
  | SingleContactResultArg _ => None
  end.

(** The two entities of a manifold, when both bodies have one. *)
Definition manifoldEntities (manifold : btPersistentManifold)
  : option (Entity * Entity) :=
  match bodyEntity (getBody0 manifold), bodyEntity (getBody1 manifold) with
  | Some e0, Some e1 => Some (e0, e1)
  | _, _ => None
  end.

(** At least one body of the manifold has the no-response flag. *)
Definition isTriggerManifold (manifold : btPersistentManifold) : bool :=
  noResponse (getCollisionFlags (getBody0 manifold)) ||
  noResponse (getCollisionFlags (getBody1 manifold)).

(** The manifold is between an entity of guid [guid] and [oth]. *)
Definition joins (manifold : btPersistentManifold) (guid : string) (oth : Entity)
  : Prop :=
  ∃ e0 e1, manifoldEntities manifold = Some (e0, e1) ∧
           ((getGuid e0 = guid ∧ e1 = oth) ∨ (getGuid e1 = guid ∧ e0 = oth)).

(** [n] was fired with a contact result about [oth] on every component
    that the entity [ent] has. *)
Definition firedOnComponents (fired : list Fired) (n : EventName)
    (ent oth : Entity) : Prop :=
  ∃ r, other r = oth ∧
    (is_Some (collision ent) →
       {| target := OnCollision ent; name := n; payload := ContactResultArg r |} ∈ fired) ∧
    (is_Some (rigidbody ent) →
       {| target := OnRigidbody ent; name := n; payload := ContactResultArg r |} ∈ fired).

(** An entity of guid [guid] with contact callbacks got the event [n]
    about [oth]. *)
Definition notified (fired : list Fired) (n : EventName)
    (guid : string) (oth : Entity) : Prop :=
  ∃ ent, getGuid ent = guid ∧ _hasContactEvent ent = true ∧
         firedOnComponents fired n ent oth.





End system.
End RigidBody.

(** ** Component data: [initializeComponentData] and [cloneComponent] *)

Module ComponentData.
Section data.
Context `{JSNumber num}.

(** The values of a data block: numbers, strings, booleans, arrays, and
    the vectors that [initializeComponentData] makes of arrays.  The class
    [Vec3] is not part of the source, so that [new Vec3(x, y, z)] is kept as
    it is written. *)
Inductive JSData :=
  | DUndefined
  | DBoolean (b : bool)
  | DNumber (n : num)
  | DString (s : string)
  | DArray (elements : list JSData)
  | new_Vec3 (x y z : JSData).

(** [value[i]]: an index past the end reads [undefined]. *)
Definition element (value : list JSData) (i : nat) : JSData :=
  default DUndefined (value !! i).

(** What the methods do to objects of other classes: an assignment
    [component[property] = value], which runs a setter of the component, and
    the calls of the two methods of the base class [ComponentSystem]. *)
Inductive ComponentCall :=
  | Assign (property : string) (value : JSData)
  | super_initializeComponentData (data : gmap string JSData) (properties : list string)
  | addComponent (entity : nat) (data : gmap string JSData).

Definition props : list string :=
  ["mass"; "linearDamping"; "angularDamping"; "linearFactor"; "angularFactor";
   "friction"; "rollingFriction"; "restitution"; "type"; "group"; "mask"].

(** [Array.isArray(value) ? new Vec3(value[0], value[1], value[2]) : value] *)
Definition converted (value : JSData) : JSData :=
  match value with
  | DArray v => new_Vec3 (element v 0) (element v 1) (element v 2)
  | _ => value
  end.

(** [for (const property of props)]; a data block is a map from its own
    property names to their values. *)
Fixpoint assignProperties (properties : list string) (data : gmap string JSData)
  : list ComponentCall :=
  match properties with
  | [] => []
  | property :: rest =>
      (match data !! property with
       | Some value => [Assign property (converted value)]
       | None => []
       end) ++ assignProperties rest data
  end.

(** [initializeComponentData(component, data, properties)]: the calls on
    the component, in order. *)
Definition initializeComponentData (data : gmap string JSData)
    (properties : list string) : list ComponentCall :=
  assignProperties props data ++ [super_initializeComponentData data ["enabled"]].

(** The properties of a rigid-body component that [cloneComponent] reads;
    the class is not part of the source, and the types are those of its
    documentation. *)
Record RigidBodyComponent := {
  enabled : bool;
  mass : num;
  linearDamping : num;
  angularDamping : num;
  linearFactor : Math.Vec3 num;
  angularFactor : Math.Vec3 num;
  friction : num;
  rollingFriction : num;
  restitution : num;
  type : string;
  group : num;
  mask : num
}.

(** [[v.x, v.y, v.z]] *)
Definition coordinates (v : Math.Vec3 num) : JSData :=
  DArray [DNumber (Math.x v); DNumber (Math.y v); DNumber (Math.z v)].

(** The data block of [cloneComponent]. *)
Definition cloneData (rigidbody : RigidBodyComponent) : gmap string JSData :=
  list_to_map
    [("enabled", DBoolean (enabled rigidbody));
     ("mass", DNumber (mass rigidbody));
     ("linearDamping", DNumber (linearDamping rigidbody));
     ("angularDamping", DNumber (angularDamping rigidbody));
     ("linearFactor", coordinates (linearFactor rigidbody));
     ("angularFactor", coordinates (angularFactor rigidbody));
     ("friction", DNumber (friction rigidbody));
     ("rollingFriction", DNumber (rollingFriction rigidbody));
     ("restitution", DNumber (restitution rigidbody));
     ("type", DString (type rigidbody));
     ("group", DNumber (group rigidbody));
     ("mask", DNumber (mask rigidbody))].

(** [cloneComponent(entity, clone)], with the rigid-body component of
    [entity]. *)
Definition cloneComponent (rigidbody : RigidBodyComponent) (clone : nat)
  : ComponentCall :=
  addComponent clone (cloneData rigidbody).

End data.
End ComponentData.

(** ** Bodies: [createBody], [destroyBody], [addBody], [removeBody], [onRemove] *)

Module Bodies.
Section bodies.
Context `{JSNumber num}.

(** The objects of the wrapped library are named by their pointers.  A
    body keeps the motion state that it was constructed with, and
    [getMotionState] returns it. *)
Record NativeBody := { pointer : nat; motionState : option nat }.

Inductive NativeCall :=
  | new_btVector3 (result : nat)
  | calculateLocalInertia (shape : nat) (mass : num) (localInertia : nat)
  | new_btDefaultMotionState (result : nat) (transform : nat)
  | new_btRigidBodyConstructionInfo (result : nat) (mass : num)
      (motionState shape localInertia : nat)
  | new_btRigidBody (result : nat) (bodyInfo : nat)
  | Ammo_destroy (object : nat)
  | getMotionState (body : nat)
  | addRigidBody (body : nat) (filter : option (num * num))
  | removeRigidBody (body : nat).

(** [createBody(mass, shape, transform)]; [next] is the first pointer that
    the library has not handed out yet, and the second component of the
    result is its new value. *)
Definition createBody (mass : num) (shape transform : nat) (next : nat)
  : NativeBody * nat * list NativeCall :=
  let localInertia := next in
  let motionState := S next in
  let bodyInfo := S (S next) in
  let body := S (S (S next)) in
  ({| pointer := body; motionState := Some motionState |},
   S (S (S (S next))),
   [new_btVector3 localInertia] ++
   (if bool_decide (mass ≠ nlit 0)
    then [calculateLocalInertia shape mass localInertia] else []) ++
   [new_btDefaultMotionState motionState transform;
    new_btRigidBodyConstructionInfo bodyInfo mass motionState shape localInertia;
    new_btRigidBody body bodyInfo;
    Ammo_destroy bodyInfo;
    Ammo_destroy localInertia]).

Definition destroyBody (body : NativeBody) : list NativeCall :=
  [getMotionState (pointer body)] ++
  (if motionState body is Some state then [Ammo_destroy state] else []) ++
  [Ammo_destroy (pointer body)].

(** [addBody(body, group, mask)]; [None] is [undefined]. *)
Definition addBody (body : NativeBody) (group mask : option num) : list NativeCall :=
  match group, mask with
  | Some g, Some m => [addRigidBody (pointer body) (Some (g, m))]
  | _, _ => [addRigidBody (pointer body) None]
  end.

Definition removeBody (body : NativeBody) : list NativeCall :=
  [removeRigidBody (pointer body)].

(** The two fields of a component that the system reads and writes when
    the component is removed. *)
Record BodyComponent := { enabled : bool; body : option NativeBody }.

Definition onBeforeRemove (component : BodyComponent) : BodyComponent :=
  if enabled component then {| enabled := false; body := body component |}
  else component.

Definition onRemove (component : BodyComponent) : BodyComponent * list NativeCall :=
  match body component with
  | Some b =>
      ({| enabled := enabled component; body := None |},
       removeBody b ++ destroyBody b)
  | None => (component, [])
  end.

(** The pointers that the calls obtain from the library, the pointers that
    they destroy, and the bodies that are in the world after them. *)
Definition allocated (calls : list NativeCall) : list nat :=
  omap (λ c, match c with
             | new_btVector3 p | new_btDefaultMotionState p _
             | new_btRigidBodyConstructionInfo p _ _ _ _ | new_btRigidBody p _ => Some p
             | _ => None
             end) calls.

Definition released (calls : list NativeCall) : list nat :=
  omap (λ c, match c with Ammo_destroy p => Some p | _ => None end) calls.

Fixpoint inWorld (calls : list NativeCall) (world : gset nat) : gset nat :=
  match calls with
  | [] => world
  | addRigidBody b _ :: rest => inWorld rest ({[ b ]} ∪ world)
  | removeRigidBody b :: rest => inWorld rest (world ∖ {[ b ]})
  | _ :: rest => inWorld rest world
  end.

End bodies.
End Bodies.

(** ** [raycastFirst] *)

Module Raycasts.
Import RigidBody.

(** What a caller can pass as a third argument: a function, which returns
    or throws when it is called, or a value that is no function
    ([undefined] included), the call of which throws a [TypeError]. *)
Inductive ThirdArgument :=
  | Function (returns : bool)
  | NoFunction.

(** A method returns a value or throws. *)
Inductive Completion (A : Type) :=
  | Returns (value : A)
  | Throws.
Arguments Returns {A} value.
Arguments Throws {A}.

Section raycasts.
Context `{JSNumber num}.

Inductive RayCall :=
  | new_ClosestRayResultCallback (rayStart rayEnd : Math.Vec3 num)
  | rayTest (rayStart rayEnd : Math.Vec3 num)
  | Debug_deprecated (message : string)
  | callback (result : RaycastResult (num:=num))          (* arguments[2](result) *)
  | Ammo_destroy_rayCallback.

Definition raycastFirstMessage : string :=
  "pc.RigidBodyComponentSystem#rayCastFirst no longer requires a callback. The result of the raycast is returned by the function instead.".

(** [raycastFirst]; [hit] is the closest hit of the ray test ([None] when
    [hasHit()] is false), and [extra] is [arguments[2]] when the call has
    more than two arguments.  The result is [None] for null.  The call of
    the third argument is in no [try] block: when it throws, the method
    stops there. *)
Definition raycastFirst (start end_ : Math.Vec3 num)
    (hit : option (RayHit (num:=num))) (extra : option ThirdArgument)
  : list RayCall * Completion (option RaycastResult) :=
  let tested := [new_ClosestRayResultCallback start end_; rayTest start end_] in
  match hit with
  | Some (Some body, p, n) =>
      let result := {| rr_entity := bodyEntity body; rr_point := p; rr_normal := n |} in
      match extra with
      | None => (tested ++ [Ammo_destroy_rayCallback], Returns (Some result))
      | Some (Function true) =>
          (tested ++ [Debug_deprecated raycastFirstMessage; callback result] ++
           [Ammo_destroy_rayCallback],
           Returns (Some result))
      | Some (Function false) =>
          (tested ++ [Debug_deprecated raycastFirstMessage; callback result], Throws)
      | Some NoFunction =>
          (tested ++ [Debug_deprecated raycastFirstMessage], Throws)
      end
  | _ => (tested ++ [Ammo_destroy_rayCallback], Returns None)
  end.

End raycasts.
End Raycasts.

(** ** The shape tests of the public interface *)

Module ShapeTests.
Import RigidBody.
Section tests.
Context `{JSNumber num}.










End tests.
End ShapeTests.

(** ** A small scene used to exercise the statements below *)

Module Scene.
Import RigidBody.

Definition listener : Component :=
  {| handlers := [contact; collisionstart; collisionend] |}.

Definition triggerListener : Component :=
  {| handlers := [triggerenter; triggerleave] |}.

(** Two rigid bodies with contact callbacks, and one trigger volume. *)
Definition crate : Entity :=
  {| eid := 1; getGuid := "crate"; collision := Some listener;
     rigidbody := Some listener; trigger := false |}.

Definition floor : Entity :=
  {| eid := 2; getGuid := "floor"; collision := Some listener;
     rigidbody := None; trigger := false |}.

Definition zone : Entity :=
  {| eid := 3; getGuid := "zone"; collision := Some triggerListener;
     rigidbody := None; trigger := true |}.

Definition player : Entity :=
  {| eid := 4; getGuid := "player"; collision := Some {| handlers := [] |};
     rigidbody := Some triggerListener; trigger := false |}.

(** The value of [BODYFLAG_NORESPONSE_OBJECT] in the engine. *)
Definition NORESPONSE : Z := 4.

Definition origin : Math.Vec3 Z := {| Math.x := 0%Z; Math.y := 0%Z; Math.z := 0%Z |}.

Definition touch : btManifoldPoint (num:=Z) :=
  {| get_m_localPointA := origin; get_m_localPointB := origin;
     getPositionWorldOnA := origin; getPositionWorldOnB := origin;
     get_m_normalWorldOnB := origin; getAppliedImpulse := 1%Z |}.

Definition solid (e : Entity) : btRigidBody :=
  {| bodyEntity := Some e; getCollisionFlags := 0 |}.

Definition volume (e : Entity) : btRigidBody :=
  {| bodyEntity := Some e; getCollisionFlags := NORESPONSE |}.

Definition crateOnFloor : btPersistentManifold :=
  {| getBody0 := solid crate; getBody1 := solid floor; contactPoints := [touch] |}.

Definition playerInZone : btPersistentManifold :=
  {| getBody0 := volume zone; getBody1 := solid player; contactPoints := [touch] |}.

Definition fresh : System :=
  {| collisions := ∅; frameCollisions := ∅; systemHandlers := [] |}.

(** Three directional lights, of which the lamp casts no shadows, and two
    layers of a camera: the moon belongs to none of them. *)
Definition sun : Composition.Light :=
  {| Composition.lid := 1; Composition.castShadows := true |}.

Definition lamp : Composition.Light :=
  {| Composition.lid := 2; Composition.castShadows := false |}.

Definition moon : Composition.Light :=
  {| Composition.lid := 3; Composition.castShadows := true |}.

Definition outdoors : Composition.Layer :=
  {| Composition.enabled := true; Composition._lightsSet := {[ sun; lamp ]} |}.

Definition interface : Composition.Layer :=
  {| Composition.enabled := true; Composition._lightsSet := ∅ |}.

(** A system with a callback for its own 'contact' event. *)
Definition watched : System :=
  {| collisions := ∅; frameCollisions := ∅; systemHandlers := [contact] |}.

(** The system after a step in which the crate rests on the floor and the
    player stands in the zone. *)
Definition resting : System :=
  stateOf (_checkForCollisions (num:=Z) NORESPONSE [crateOnFloor; playerInZone] fresh).

Definition crateInZone : btPersistentManifold :=
  {| getBody0 := solid crate; getBody1 := volume zone; contactPoints := [touch] |}.

(** The system after a step in which both the player and the crate are in
    the zone. *)
Definition crowded : System :=
  stateOf (_checkForCollisions (num:=Z) NORESPONSE [playerInZone; crateInZone] fresh).








(** A manifold with a contact point whose second body has no entity. *)
Definition stray : btPersistentManifold :=
  {| getBody0 := solid crate;
     getBody1 := {| bodyEntity := None; getCollisionFlags := 0 |};
     contactPoints := [touch] |}.

(** Rational numbers as the numbers of the examples: exact arithmetic, a
    square root that is exact on squares and rounded down otherwise, and no
    rounding in [nfround]. *)
Abbreviation Q := QArith_base.Q.
Abbreviation Qmake := QArith_base.Qmake.
Abbreviation inject_Z := QArith_base.inject_Z.
Abbreviation Qred := Qreduction.Qred.

#[global] Instance Q_eq_dec : EqDecision Q.
Proof. solve_decision. Defined.

#[global] Instance rationals : JSNumber Q := {|
  nlit := inject_Z;
  nadd a b := Qred (QArith_base.Qplus a b);
  nsub a b := Qred (QArith_base.Qminus a b);
  nmul a b := Qred (QArith_base.Qmult a b);
  ndiv a b := Qred (QArith_base.Qdiv a b);
  nsqrt a :=
    Qmake (Z.sqrt (QArith_base.Qnum (Qred a))) (Pos.sqrt (QArith_base.Qden (Qred a)));
  nfround a := a;
  ndecimal m e := Qred (Qmake m (Pos.pow 10 (Pos.of_nat e)));
  nlt a b := negb (QArith_base.Qle_bool b a);
  nne a b := negb (QArith_base.Qeq_bool a b)
|}.

(** Numbers with a NaN: [None] is NaN, which every operation hands on,
    which is less than nothing and which is unequal to every number, itself
    included. *)
#[global] Instance withNaN : JSNumber (option Q) := {|
  nlit z := Some (inject_Z z);
  nadd a b := match a, b with Some a, Some b => Some (nadd a b) | _, _ => None end;
  nsub a b := match a, b with Some a, Some b => Some (nsub a b) | _, _ => None end;
  nmul a b := match a, b with Some a, Some b => Some (nmul a b) | _, _ => None end;
  ndiv a b := match a, b with Some a, Some b => Some (ndiv a b) | _, _ => None end;
  nsqrt a := match a with Some a => Some (nsqrt a) | None => None end;
  nfround a := a;
  ndecimal m e := Some (ndecimal m e);
  nlt a b := match a, b with Some a, Some b => nlt a b | _, _ => false end;
  nne a b := match a, b with Some a, Some b => nne a b | _, _ => true end
|}.

(** A system with a world whose gravity has been given a NaN component. *)
Definition adrift : RigidBodyComponentSystem (num:=option Q) :=
  {| maxSubSteps := nlit 10;
     fixedTimeStep := ndiv (nlit 1) (nlit 60);
     gravity := {| Math.x := None; Math.y := ndecimal (-981) 2; Math.z := nlit 0 |};
     _gravityFloat32 := Math.ZERO;
     _dynamic := []; _kinematic := []; _triggers := []; _compounds := [];
     bookkeeping := fresh;
     dynamicsWorld :=
       Some {| worldGravity :=
                 {| Math.x := nlit 0; Math.y := nlit (-10); Math.z := nlit 0 |};
               exposesTickCallback := true; tickCallback := true |} |}.

(** A step of the world without a tick. *)
Definition still : StepOutcome (num:=option Q) :=
  {| ticks := []; manifoldsAfter := [] |}.

(** A library with every optional entry point, and an old one without. *)
Definition recentAmmo : AmmoLibrary (num:=Q) :=
  {| has_setInternalTickCallback := true;
     has_AllHitsRayResultCallback := true;
     has_ConcreteContactResultCallback := true;
     initialGravity := {| Math.x := (inject_Z 0); Math.y := inject_Z (-10); Math.z := (inject_Z 0) |} |}.

Definition oldAmmo : AmmoLibrary (num:=Q) :=
  {| has_setInternalTickCallback := false;
     has_AllHitsRayResultCallback := false;
     has_ConcreteContactResultCallback := false;
     initialGravity := {| Math.x := (inject_Z 0); Math.y := inject_Z (-10); Math.z := (inject_Z 0) |} |}.

(** A step of the world that ticks twice and reports no manifold. *)
Definition quiet : StepOutcome (num:=Q) :=
  {| ticks := [[]; []]; manifoldsAfter := [] |}.

(** Three vectors of a caller: the half extents of a box, and the two ends
    of a cast along the z axis. *)
Definition vectors (object : nat) : Math.Vec3 Q :=
  match object with
  | 0 => {| Math.x := (inject_Z 1); Math.y := (inject_Z 1); Math.z := (inject_Z 1) |}
  | 1 => {| Math.x := (inject_Z 0); Math.y := (inject_Z 0); Math.z := (inject_Z 0) |}
  | _ => {| Math.x := (inject_Z 0); Math.y := (inject_Z 0); Math.z := inject_Z 4 |}
  end.

(** The rotation of the casts is not computed in the examples. *)
Definition noRotation (_ _ : Math.Vec3 Q) : Math.Quat Q :=
  {| Math.qx := (inject_Z 0); Math.qy := (inject_Z 0); Math.qz := (inject_Z 0); Math.qw := (inject_Z 1) |}.

End Scene.

Module CompositionProofs.
Import Composition.

(** What one run of the inner loop keeps and adds. *)
Definition synced (ra : RenderAction) : Prop :=
  NoDup (directionalLights ra) ∧
  ∀ l, l ∈ directionalLightsSet ra ↔ l ∈ directionalLights ra.

Lemma collectLayers_synced light layers ra :
  synced ra → synced (collectLayers light layers ra).
Proof.
  revert ra. induction layers as [|layer rest IH]; intros ra Hs; simpl; [done|].
  apply IH. repeat case_bool_decide; try done.
  destruct Hs as [Hnd Hiff]. split; simpl.
  - apply NoDup_app. split_and!; [done| |apply NoDup_singleton].
    intros x Hx ->%list_elem_of_singleton. by apply Hiff in Hx.
  - intros l. rewrite elem_of_union, elem_of_singleton, elem_of_app,
      list_elem_of_singleton, Hiff. tauto.
Qed.

Lemma collectLayers_elem light layers ra l :
  synced ra →
  l ∈ directionalLights (collectLayers light layers ra) ↔
  l ∈ directionalLights ra ∨
  (l = light ∧ ∃ layer, layer ∈ layers ∧ light ∈ _lightsSet layer).
Proof.
  revert ra. induction layers as [|layer rest IH]; intros ra Hs; simpl.
  - set_solver.
  - pose proof (collectLayers_synced light [layer] ra Hs) as Hs'.
    simpl in Hs'. rewrite IH by done. clear IH Hs'.
    destruct Hs as [_ Hs]. specialize (Hs light).
    setoid_rewrite elem_of_cons.
    repeat case_bool_decide; simpl;
      rewrite ?elem_of_app, ?list_elem_of_singleton; naive_solver.
Qed.

Lemma collectLights_synced dirLights layers ra :
  synced ra → synced (collectLights dirLights layers ra).
Proof.
  revert ra. induction dirLights as [|light rest IH]; intros ra Hs; simpl; [done|].
  apply IH. destruct (castShadows light); [by apply collectLayers_synced|done].
Qed.

Lemma collectLights_elem dirLights layers ra l :
  synced ra →
  l ∈ directionalLights (collectLights dirLights layers ra) ↔
  l ∈ directionalLights ra ∨
  (l ∈ dirLights ∧ castShadows l = true ∧
   ∃ layer, layer ∈ layers ∧ l ∈ _lightsSet layer).
Proof.
  revert ra. induction dirLights as [|light rest IH]; intros ra Hs; simpl.
  - set_solver.
  - setoid_rewrite elem_of_cons. destruct (castShadows light) eqn:Hcast; simpl.
    + rewrite IH; [|by apply collectLayers_synced].
      rewrite collectLayers_elem by done. naive_solver.
    + rewrite (IH ra Hs). naive_solver congruence.
Qed.

(** C8. After [collectDirectionalLights], the array [directionalLights]
    holds exactly the shadow-casting lights of [dirLights] that belong to
    the light set of at least one camera layer, each of them once, the set
    [directionalLightsSet] has the same elements, and [isLayerEnabled]
    returns [true] exactly when the layer at [layerIndex] is enabled and
    its entry in [subLayerEnabled] is [true]. *)
Theorem collect_and_enabled_spec :
  (∀ this cameraLayers dirLights allLights,
     let this' := collectDirectionalLights this cameraLayers dirLights allLights in
     NoDup (directionalLights this') ∧
     (∀ l, l ∈ directionalLights this' ↔
           l ∈ dirLights ∧ castShadows l = true ∧
           ∃ layer, layer ∈ cameraLayers ∧ l ∈ _lightsSet layer) ∧
     (∀ l, l ∈ directionalLightsSet this' ↔ l ∈ directionalLights this')) ∧
  (∀ this layerComposition,
     isLayerEnabled this layerComposition = Some (JBool true) ↔
     ∃ layer, layerList layerComposition !! layerIndex this = Some layer ∧
              enabled layer = true ∧
              subLayerEnabled layerComposition !! layerIndex this = Some true).
Proof.
  split.
  - intros this cameraLayers dirLights allLights this'.
    assert (synced {| layerIndex := layerIndex this;
                      directionalLightsSet := ∅; directionalLights := [] |}) as H0.
    { split; simpl; [constructor|]. intros l. set_solver. }
    pose proof (collectLights_synced dirLights cameraLayers _ H0) as [Hnd Hset].
    split_and!; [done| |done].
    intros l. unfold this', collectDirectionalLights.
    rewrite collectLights_elem by done. simpl. set_solver.
  - intros this lc. unfold isLayerEnabled.
    destruct (layerList lc !! layerIndex this) as [layer|]; [|naive_solver].
    destruct (enabled layer) eqn:He; [|naive_solver congruence].
    destruct (subLayerEnabled lc !! layerIndex this) as [[]|]; naive_solver.
Qed.

(** *** The order of the collected lights *)

(** The light casts shadows and belongs to a camera layer. *)
Definition shadowed (cameraLayers : list Layer) (light : Light) : Prop :=
  castShadows light = true ∧ Exists (λ layer, light ∈ _lightsSet layer) cameraLayers.

#[local] Instance shadowed_dec cameraLayers light : Decision (shadowed cameraLayers light).
Proof. unfold shadowed. apply _. Defined.

Lemma collectLayers_lights light layers ra :
  synced ra →
  directionalLights (collectLayers light layers ra) =
  directionalLights ra ++
  (if decide ((light ∉ directionalLights ra) ∧
              Exists (λ layer, light ∈ _lightsSet layer) layers)
   then [light] else []).
Proof.
  revert ra. induction layers as [|layer rest IH]; intros ra Hs; simpl.
  - rewrite decide_False; [by rewrite app_nil_r|]. by intros [_ ?%Exists_nil].
  - pose proof (collectLayers_synced light [layer] ra Hs) as Hs'. simpl in Hs'.
    rewrite IH by done. clear IH Hs'. destruct Hs as [_ Hs]. specialize (Hs light).
    repeat case_bool_decide; simpl.
    + repeat case_decide; try done; rewrite ?Exists_cons in *; naive_solver.
    + rewrite <- app_assoc. simpl.
      rewrite decide_False by (rewrite elem_of_app, list_elem_of_singleton; naive_solver).
      rewrite decide_True; [done|]. rewrite Exists_cons. naive_solver.
    + repeat case_decide; try done; rewrite ?Exists_cons in *; naive_solver.
Qed.

Lemma collectLights_lights dirLights layers ra :
  synced ra →
  ∃ more,
    directionalLights (collectLights dirLights layers ra) =
      directionalLights ra ++ more ∧
    more `sublist_of` dirLights ∧
    (NoDup dirLights → (∀ l, l ∈ dirLights → l ∉ directionalLights ra) →
     more = filter (shadowed layers) dirLights).
Proof.
  revert ra. induction dirLights as [|light rest IH]; intros ra Hs; simpl.
  - exists []. by rewrite app_nil_r.
  - destruct (castShadows light) eqn:Hcast.
    + destruct (IH _ (collectLayers_synced light layers ra Hs)) as (more & Heq & Hsub & Hnd).
      rewrite Heq, collectLayers_lights by done.
      case_decide as Hadd.
      * exists (light :: more). rewrite <- app_assoc. split; [done|].
        split; [by apply sublist_skip|].
        intros [Hl Hrest]%NoDup_cons Hfresh.
        rewrite filter_cons_True by (split; [done|apply Hadd]).
        f_equal. apply Hnd; [done|].
        intros l Hl'. rewrite collectLayers_lights, decide_True by done.
        rewrite elem_of_app, list_elem_of_singleton.
        intros [?| ->]; [|done]. by apply (Hfresh l); [right|].
      * exists more. rewrite app_nil_r. split; [done|].
        split; [by apply sublist_cons|].
        intros [Hl Hrest]%NoDup_cons Hfresh.
        rewrite filter_cons_False.
        -- apply Hnd; [done|]. intros l Hl'.
           rewrite collectLayers_lights, decide_False, app_nil_r by done.
           apply Hfresh. by right.
        -- intros [_ Hex]. apply Hadd. split; [|done]. apply Hfresh. by left.
    + destruct (IH ra Hs) as (more & Heq & Hsub & Hnd).
      exists more. split; [done|]. split; [by apply sublist_cons|].
      intros [Hl Hrest]%NoDup_cons Hfresh.
      rewrite filter_cons_False by (intros [? _]; congruence).
      apply Hnd; [done|]. intros l Hl'. apply Hfresh. by right.
Qed.

(** X16. The collected lights keep the order of [dirLights]: the array is a
    sublist of it, and when [dirLights] names no light twice the array is
    [dirLights] with the lights left out that cast no shadow or belong to no
    camera layer. *)
Theorem collected_lights_keep_their_order this cameraLayers dirLights allLights :
  directionalLights (collectDirectionalLights this cameraLayers dirLights allLights)
    `sublist_of` dirLights ∧
  (NoDup dirLights →
   directionalLights (collectDirectionalLights this cameraLayers dirLights allLights) =
   filter (shadowed cameraLayers) dirLights).
Proof.
  unfold collectDirectionalLights.
  destruct (collectLights_lights dirLights cameraLayers
              {| layerIndex := layerIndex this;
                 directionalLightsSet := ∅; directionalLights := [] |})
    as (more & Heq & Hsub & Hnd).
  { split; simpl; [constructor|]. intros l. set_solver. }
  simpl in Heq. rewrite Heq. split; [done|].
  intros Hnodup. apply Hnd; [done|]. intros l _. simpl. apply not_elem_of_nil.
Qed.

(** *** The getter and the other methods *)

Import RenderActionMethods.

(** X17. After the lights are collected, the getter tells whether a light of
    [dirLights] casts shadows and belongs to a camera layer. *)
Theorem shadow_lights_flag_after_collecting this cameraLayers dirLights allLights :
  hasDirectionalShadowLights (collect this cameraLayers dirLights allLights) = true ↔
  ∃ l, l ∈ dirLights ∧ castShadows l = true ∧
       ∃ layer, layer ∈ cameraLayers ∧ l ∈ _lightsSet layer.
Proof.
  unfold hasDirectionalShadowLights, collect, collectDirectionalLights. simpl.
  rewrite bool_decide_eq_true.
  assert (synced {| layerIndex := layerIndex (lights this);
                    directionalLightsSet := ∅; directionalLights := [] |}) as H0.
  { split; simpl; [constructor|]. intros l. set_solver. }
  pose proof (λ l, collectLights_elem dirLights cameraLayers _ l H0) as Helem.
  destruct (directionalLights (collectLights dirLights cameraLayers _))
    as [|l ls] eqn:Hls; simpl.
  - split; [lia|]. intros (l & Hl). exfalso.
    apply (not_elem_of_nil l), Helem. by right.
  - split; [intros _|lia]. exists l.
    destruct (Helem l) as [[Hin|Hin] _]; [by left| |done].
    simpl in Hin. by apply elem_of_nil in Hin.
Qed.

Lemma call_synced this m : synced (lights this) → synced (lights (call this m)).
Proof.
  intros Hs. destruct m as [|cameraLayers dirLights allLights|]; simpl; [| |done].
  - split; simpl; [constructor|]. intros l. set_solver.
  - apply collectLights_synced. split; simpl; [constructor|]. intros l. set_solver.
Qed.

(** X18. Whatever methods are called on a new render action, and in whatever
    order, the array and the set of its directional lights hold the same
    lights, the array holds none twice, and the getter tells whether the set
    is non-empty.  [reset] empties both, and [destroy] leaves the lights as
    they are. *)
Theorem render_action_lights_stay_in_step (methods : list Method) :
  let this := foldl call constructor methods in
  NoDup (directionalLights (lights this)) ∧
  (∀ l, l ∈ directionalLightsSet (lights this) ↔ l ∈ directionalLights (lights this)) ∧
  (hasDirectionalShadowLights this = true ↔ directionalLightsSet (lights this) ≠ ∅) ∧
  hasDirectionalShadowLights (reset this) = false ∧
  directionalLightsSet (lights (reset this)) = ∅ ∧
  lights (destroy this).1 = lights this.
Proof.
  intros this.
  assert (synced (lights this)) as [Hnd Hset].
  { unfold this.
    assert (synced (lights constructor)) as H0.
    { split; simpl; [constructor|]. intros l. set_solver. }
    revert H0. generalize constructor.
    induction methods as [|m ms IH]; intros s Hs; simpl; [done|].
    by apply IH, call_synced. }
  split_and!; try done.
  unfold hasDirectionalShadowLights. rewrite bool_decide_eq_true.
  destruct (directionalLights (lights this)) as [|l ls] eqn:Hl; simpl.
  - split; [lia|]. intros Hne. exfalso. apply Hne. apply set_eq. intros l.
    rewrite Hset. set_solver.
  - split; [intros _|lia]. intros Hempty.
    assert (l ∈ directionalLightsSet (lights this)) as Hin by (apply Hset; by left).
    rewrite Hempty in Hin. set_solver.
Qed.

(** *** The statements at work on three lights *)

Import Scene.

Lemma collected_lights_keep_their_order_witness :
  directionalLights
    (collectDirectionalLights (lights RenderActionMethods.constructor)
       [outdoors; interface] [sun; lamp; moon] []) = [sun].
Proof.
  destruct (collected_lights_keep_their_order
              (lights RenderActionMethods.constructor)
              [outdoors; interface] [sun; lamp; moon] []) as [_ Hfilter].
  rewrite Hfilter; [vm_compute; reflexivity|].
  repeat (apply NoDup_cons; split;
            [rewrite ?elem_of_cons, ?elem_of_nil; intros Heq;
             repeat (destruct Heq as [Heq|Heq]; [discriminate Heq|]); exact Heq|]).
  apply NoDup_nil_2.
Defined.

End CompositionProofs.

Module RigidBodyProofs.
Import RigidBody.

Section system.
Context `{JSNumber num}.
Variable NORESPONSE : Z.

Local Abbreviation Sys := (@Sys num).
Local Abbreviation System := (@System).
Local Abbreviation Fired := (@Fired num).
Local Abbreviation _storeCollision := (@_storeCollision num).
Local Abbreviation cleanOthers := (@cleanOthers num).
Local Abbreviation leaveEvents := (@leaveEvents num).
Local Abbreviation cleanGuid := (@cleanGuid num).
Local Abbreviation _cleanOldCollisions := (@_cleanOldCollisions num).
Local Abbreviation contactLoop := (@contactLoop num).
Local Abbreviation notifyContact := (@notifyContact num).
Local Abbreviation triggerBranch := (@triggerBranch num NORESPONSE).
Local Abbreviation contactBranch := (@contactBranch num).
Local Abbreviation notified := (@notified num).
Local Abbreviation firedOnComponents := (@firedOnComponents num).
Local Abbreviation checkManifold := (@checkManifold num NORESPONSE).
Local Abbreviation _checkForCollisions := (@_checkForCollisions num NORESPONSE).

(** *** A program logic for the methods of the system

    [hoare P m Q]: run from a system and a log of fired events that
    satisfy [P], the method [m] ends with a value, a system and an
    extended log that satisfy [Q]. *)
Definition hoare {A} (P : System → list Fired → Prop) (m : Sys A)
    (Q : A → System → list Fired → Prop) : Prop :=
  ∀ this fired, P this fired →
    Q (valueOf (m this)) (stateOf (m this)) (fired ++ firedOf (m this)).

Lemma hoare_ret {A} (P : System → list Fired → Prop) (v : A) Q :
  (∀ this fired, P this fired → Q v this fired) → hoare P (ret v) Q.
Proof. intros HQ this fired HP. cbn. rewrite app_nil_r. by apply HQ. Qed.

Lemma hoare_bind {A B} P (m : Sys A) (k : A → Sys B) R Q :
  hoare P m R → (∀ v, hoare (R v) (k v) Q) → hoare P (bind m k) Q.
Proof.
  intros Hm Hk this fired HP. specialize (Hm this fired HP).
  unfold bind, valueOf, stateOf, firedOf in *.
  destruct (m this) as [[v this1] fired1]. simpl in Hm.
  specialize (Hk v this1 _ Hm). unfold valueOf, stateOf, firedOf in Hk.
  destruct (k v this1) as [[w this2] fired2]. simpl in *.
  by rewrite app_assoc.
Qed.

Lemma hoare_fire P t n p (Q : unit → System → list Fired → Prop) :
  (∀ this fired, P this fired →
     Q tt this (fired ++ [ {| target := t; name := n; payload := p |} ])) →
  hoare P (fire t n p) Q.
Proof. intros HQ this fired HP. cbn. by apply HQ. Qed.

Lemma hoare_when P (c : bool) (m : Sys unit) (Q : unit → System → list Fired → Prop) :
  (c = true → hoare P m Q) →
  (c = false → ∀ this fired, P this fired → Q tt this fired) →
  hoare P (when c m) Q.
Proof.
  intros Ht Hf. destruct c; simpl; [by apply Ht|]. apply hoare_ret. by apply Hf.
Qed.

Lemma hoare_forEach {A} (I : System → list Fired → Prop) (l : list A)
    (body : A → Sys unit) :
  (∀ v, v ∈ l → hoare I (body v) (λ _, I)) →
  hoare I (forEach l body) (λ _, I).
Proof.
  induction l as [|v rest IH]; intros Hbody; simpl.
  - by apply hoare_ret.
  - eapply hoare_bind.
    + apply Hbody. by left.
    + intros ?. apply IH. intros w Hw. apply Hbody. by right.
Qed.

(** *** [_storeCollision] *)

Lemma store_value ent oth this :
  valueOf (_storeCollision ent oth this) =
  bool_decide (oth ∉ othersAt (collisions this) (getGuid ent)).
Proof.
  unfold valueOf, RigidBody._storeCollision, othersAt. simpl.
  by destruct (collisions this !! getGuid ent).
Qed.

Lemma store_fired ent oth this : firedOf (_storeCollision ent oth this) = [].
Proof. done. Qed.

Lemma store_collisions ent oth this guid :
  othersAt (collisions (stateOf (_storeCollision ent oth this))) guid =
  if decide (guid = getGuid ent) then
    if bool_decide (oth ∉ othersAt (collisions this) guid)
    then othersAt (collisions this) guid ++ [oth]
    else othersAt (collisions this) guid
  else othersAt (collisions this) guid.
Proof.
  unfold stateOf, RigidBody._storeCollision, othersAt. simpl.
  destruct (decide (guid = getGuid ent)) as [->|Hne].
  - rewrite lookup_insert_eq.
    destruct (collisions this !! getGuid ent); simpl; [|done].
    by destruct (bool_decide (oth ∉ _)).
  - by rewrite lookup_insert_ne.
Qed.

Lemma store_frameCollisions ent oth this guid :
  othersAt (frameCollisions (stateOf (_storeCollision ent oth this))) guid =
  if decide (guid = getGuid ent)
  then othersAt (frameCollisions this) guid ++ [oth]
  else othersAt (frameCollisions this) guid.
Proof.
  unfold stateOf, RigidBody._storeCollision, othersAt. simpl.
  destruct (decide (guid = getGuid ent)) as [->|Hne].
  - rewrite lookup_insert_eq. by destruct (frameCollisions this !! getGuid ent).
  - by rewrite lookup_insert_ne.
Qed.

Lemma store_collisions_elem ent oth this guid v :
  v ∈ othersAt (collisions (stateOf (_storeCollision ent oth this))) guid ↔
  v ∈ othersAt (collisions this) guid ∨ (guid = getGuid ent ∧ v = oth).
Proof.
  rewrite store_collisions. case_decide; [|naive_solver].
  case_bool_decide as Hin.
  - rewrite elem_of_app, list_elem_of_singleton. naive_solver.
  - naive_solver.
Qed.

Lemma store_frameCollisions_elem ent oth this guid v :
  v ∈ othersAt (frameCollisions (stateOf (_storeCollision ent oth this))) guid ↔
  v ∈ othersAt (frameCollisions this) guid ∨ (guid = getGuid ent ∧ v = oth).
Proof.
  rewrite store_frameCollisions. case_decide; [|naive_solver].
  rewrite elem_of_app, list_elem_of_singleton. naive_solver.
Qed.

Lemma store_entity ent oth this guid c :
  collisions this !! guid = Some c →
  ∃ c', collisions (stateOf (_storeCollision ent oth this)) !! guid = Some c' ∧
        entity c' = entity c.
Proof.
  intros Hc. unfold stateOf, RigidBody._storeCollision. simpl.
  destruct (decide (guid = getGuid ent)) as [->|Hne].
  - rewrite lookup_insert_eq, Hc. simpl. case_bool_decide; eauto.
  - rewrite lookup_insert_ne by done. eauto.
Qed.

Lemma store_keyed ent oth this :
  keyed (collisions this) →
  keyed (collisions (stateOf (_storeCollision ent oth this))).
Proof.
  intros Hk guid c. unfold stateOf, RigidBody._storeCollision. simpl.
  destruct (decide (guid = getGuid ent)) as [->|Hne].
  - rewrite lookup_insert_eq. intros [= <-].
    destruct (collisions this !! getGuid ent) as [c0|] eqn:Hc0; simpl.
    + apply Hk in Hc0. by case_bool_decide.
    + done.
  - rewrite lookup_insert_ne by done. apply Hk.
Qed.

(** A call of [_storeCollision] that keeps [I] and tells [φ] about its
    result, followed by a continuation that keeps [I]. *)
Lemma hoare_store {A} (I : System → list Fired → Prop) (φ : bool → Prop)
    ent oth (k : bool → Sys A) Q :
  (∀ this fired, I this fired →
     I (stateOf (_storeCollision ent oth this)) fired ∧
     φ (valueOf (_storeCollision ent oth this))) →
  (∀ nc, φ nc → hoare I (k nc) Q) →
  hoare I (bind (_storeCollision ent oth) k) Q.
Proof.
  intros Hstore Hk.
  apply (hoare_bind _ _ _ (λ nc this fired, I this fired ∧ φ nc)).
  - intros this fired HI. rewrite store_fired, app_nil_r. by apply Hstore.
  - intros nc this fired [HI Hφ]. by apply Hk.
Qed.

Lemma hoare_systemHasEvent {A} (I : System → list Fired → Prop) n
    (k : bool → Sys A) Q :
  (∀ b, hoare I (k b) Q) → hoare I (bind (systemHasEvent n) k) Q.
Proof.
  intros Hk. apply (hoare_bind _ _ _ (λ _, I)); [|done].
  intros this fired HI. cbn. by rewrite app_nil_r.
Qed.

Lemma hoare_store_last (I : System → list Fired → Prop) ent oth :
  (∀ this fired, I this fired → I (stateOf (_storeCollision ent oth this)) fired) →
  hoare I (_storeCollision ent oth) (λ _, I).
Proof. intros Hstore this fired HI. rewrite store_fired, app_nil_r. by apply Hstore. Qed.

(** One step through the control structure of a method, with the invariant
    [I] at every point; the calls of [_storeCollision] and [fire] are left
    to the tactic of the invariant. *)
Ltac hoare_struct I :=
  lazymatch goal with
  | |- hoare _ (bind (RigidBody._storeCollision _ _) _) _ => fail
  | |- hoare _ (bind (systemHasEvent _) _) _ =>
      apply hoare_systemHasEvent; intros ?
  | |- hoare _ (bind _ _) _ => apply (hoare_bind _ _ _ (λ _, I)); [|intros ?]
  | |- hoare _ (ret _) _ => apply hoare_ret; intros ? ? ?; assumption
  | |- hoare _ (when _ _) _ =>
      apply hoare_when; [intros ?|intros ? ? ? ?; assumption]
  | |- hoare _ (if ?c then _ else _) _ => destruct c eqn:?
  | |- hoare _ (match ?c with _ => _ end) _ => destruct c eqn:?
  end.

(** *** The invariant of the loop over the manifolds

    [prev] is [this.collisions] when the check starts. *)

Definition eventOk (prev : gmap string CollisionRecord) (ev : Fired) : Prop :=
  name ev ≠ collisionend ∧ name ev ≠ triggerleave ∧
  (name ev = collisionstart →
   ∃ e o, firedOn ev = Some e ∧ firedAbout ev = Some o ∧
          o ∉ othersAt prev (getGuid e)).

Definition loopInv (prev : gmap string CollisionRecord)
    (this : System) (fired : list Fired) : Prop :=
  (∀ guid v, v ∈ othersAt (collisions this) guid ↔
             v ∈ othersAt prev guid ∨ v ∈ othersAt (frameCollisions this) guid) ∧
  (∀ guid c, prev !! guid = Some c →
             ∃ c', collisions this !! guid = Some c' ∧ entity c' = entity c) ∧
  (keyed prev → keyed (collisions this)) ∧
  (∀ ev, ev ∈ fired → eventOk prev ev).

Lemma loopInv_store prev ent oth this fired :
  loopInv prev this fired →
  loopInv prev (stateOf (_storeCollision ent oth this)) fired ∧
  (valueOf (_storeCollision ent oth this) = true →
   oth ∉ othersAt prev (getGuid ent)).
Proof.
  intros (Hall & Hent & Hkey & Hev). split; [split_and!|].
  - intros guid v. rewrite store_collisions_elem, store_frameCollisions_elem, Hall.
    tauto.
  - intros guid c Hc. destruct (Hent guid c Hc) as (c1 & Hc1 & <-).
    by apply store_entity.
  - intros Hk. by apply store_keyed, Hkey.
  - done.
  - rewrite store_value. intros Hnew%bool_decide_eq_true Hprev.
    apply Hnew, Hall. by left.
Qed.

Lemma loopInv_fire prev this fired ev :
  eventOk prev ev → loopInv prev this fired → loopInv prev this (fired ++ [ev]).
Proof.
  intros Hok (Hall & Hent & Hkey & Hev). split_and!; try done.
  intros ev' [?| ->%list_elem_of_singleton]%elem_of_app; auto.
Qed.

Ltac loopInv_leaf prev :=
  lazymatch goal with
  | |- hoare _ (bind (RigidBody._storeCollision ?e ?o) _) _ =>
      apply (hoare_store (loopInv prev)
               (λ nc, nc = true → o ∉ othersAt prev (getGuid e)));
      [intros ? ?; apply loopInv_store|intros ? ?]
  | |- hoare _ (RigidBody._storeCollision _ _) _ =>
      apply hoare_store_last; intros ? ? ?; by apply loopInv_store
  | |- hoare _ (fire _ _ _) _ =>
      apply hoare_fire; intros ? ? ?; apply loopInv_fire; [|assumption];
      unfold eventOk; simpl; split_and!; [done|done|];
      first [solve [intros [=]]
            |intros _; eexists _, _; split_and!; [reflexivity|reflexivity|auto]]
  end.

Ltac loopInv_walk prev :=
  repeat first [hoare_struct (loopInv prev)|loopInv_leaf prev].

Lemma loopInv_contactLoop prev e0 e1 b0 b1 g pts fwd rev :
  hoare (loopInv prev) (contactLoop e0 e1 b0 b1 g pts fwd rev)
        (λ _, loopInv prev).
Proof.
  revert fwd rev. induction pts as [|pt pts IH]; intros fwd rev; simpl.
  - by apply hoare_ret.
  - destruct (if b0 || b1 then _ else _) as [fwd' rev'].
    apply (hoare_bind _ _ _ (λ _, loopInv prev)); [|intros ?; apply IH].
    loopInv_walk prev.
Qed.

Lemma loopInv_notifyContact prev ent oth cs :
  hoare (loopInv prev) (notifyContact ent oth cs) (λ _, loopInv prev).
Proof.
  unfold RigidBody.notifyContact.
  loopInv_walk prev.
Qed.

Lemma loopInv_checkManifold prev m :
  hoare (loopInv prev) (checkManifold m) (λ _, loopInv prev).
Proof.
  unfold RigidBody.checkManifold.
  destruct (bodyEntity (getBody0 m)) as [e0|]; [|by apply hoare_ret].
  destruct (bodyEntity (getBody1 m)) as [e1|]; [|by apply hoare_ret].
  destruct (0 <? _)%nat; [|by apply hoare_ret].
  destruct (noResponse _ _ || noResponse _ _).
  - unfold RigidBody.triggerBranch.
    loopInv_walk prev.
  - unfold RigidBody.contactBranch. apply hoare_systemHasEvent. intros g.
    destruct (g || _ || _); [|by apply hoare_ret].
    apply (hoare_bind _ _ _ (λ _, loopInv prev));
      [apply loopInv_contactLoop|intros cs].
    apply (hoare_bind _ _ _ (λ _, loopInv prev)).
    + destruct (_hasContactEvent e0);
        [apply loopInv_notifyContact|by apply hoare_ret].
    + intros ?. destruct (_hasContactEvent e1);
        [apply loopInv_notifyContact|by apply hoare_ret].
Qed.

(** *** [_cleanOldCollisions] *)

(** The contacts that the [while] loop keeps. *)
Definition kept (frameCollision : option CollisionRecord) (os : list Entity)
  : list Entity :=
  filter (λ o, goneThisFrame frameCollision o = false) os.

Lemma cleanOthers_spec i frameCollision ent os :
  (cleanOthers i frameCollision ent os).1 =
    kept frameCollision (take i os) ++ drop i os ∧
  ∀ ev, ev ∈ (cleanOthers i frameCollision ent os).2 ↔
        ∃ o, o ∈ take i os ∧ goneThisFrame frameCollision o = true ∧
             ev ∈ leaveEvents ent o.
Proof.
  revert os. induction i as [|i IH]; intros os; simpl.
  - rewrite take_0, drop_0. split; [done|]. intros ev.
    split; [by intros ?%elem_of_nil|]. by intros (o & ?%elem_of_nil & _).
  - destruct (os !! i) as [oth|] eqn:Hoth.
    + assert (i < length os)%nat as Hlt by by eapply lookup_lt_Some.
      rewrite (take_S_r _ _ _ Hoth). unfold kept. rewrite filter_app.
      destruct (goneThisFrame frameCollision oth) eqn:Hgone.
      * destruct (IH (delete i os)) as [IH1 IH2].
        destruct (cleanOthers i frameCollision ent (delete i os)) as [os' fired].
        simpl in *. rewrite delete_take_drop in IH1, IH2.
        rewrite take_app_length', drop_app_length' in IH1
          by (rewrite length_take; lia).
        rewrite take_app_length' in IH2 by (rewrite length_take; lia).
        split.
        -- rewrite IH1. unfold kept. f_equal.
           rewrite filter_cons_False, filter_nil, app_nil_r; [done|].
           by rewrite Hgone.
        -- intros ev. rewrite elem_of_app, IH2. setoid_rewrite elem_of_app.
           setoid_rewrite list_elem_of_singleton. naive_solver.
      * destruct (IH os) as [IH1 IH2]. split.
        -- rewrite IH1, (drop_S _ _ _ Hoth). unfold kept.
           rewrite filter_cons_True, filter_nil by done.
           by rewrite <- app_assoc.
        -- intros ev. rewrite IH2. setoid_rewrite elem_of_app.
           setoid_rewrite list_elem_of_singleton. naive_solver congruence.
    + apply lookup_ge_None in Hoth.
      rewrite (take_ge os (S i)), (drop_ge os (S i)) by lia.
      destruct (IH os) as [IH1 IH2].
      rewrite (take_ge os i), (drop_ge os i) in * by lia. done.
Qed.

(** What the loop makes of one record, and the events it fires for it. *)
Definition cleaned (frame : gmap string CollisionRecord) (guid : string)
    (c : CollisionRecord) : option CollisionRecord :=
  let os := kept (frame !! guid) (others c) in
  if bool_decide (length os = 0%nat) then None
  else Some {| others := os; entity := entity c |}.

Definition leaving (frame : gmap string CollisionRecord) (guid : string)
    (c : CollisionRecord) (ev : Fired) : Prop :=
  ∃ o, o ∈ others c ∧ goneThisFrame (frame !! guid) o = true ∧
       ev ∈ leaveEvents (entity c) o.

Lemma cleanGuid_spec guid this :
  frameCollisions (stateOf (cleanGuid guid this)) = frameCollisions this ∧
  systemHandlers (stateOf (cleanGuid guid this)) = systemHandlers this ∧
  (∀ g, collisions (stateOf (cleanGuid guid this)) !! g =
        if decide (g = guid)
        then collisions this !! g ≫= cleaned (frameCollisions this) g
        else collisions this !! g) ∧
  (∀ ev, ev ∈ firedOf (cleanGuid guid this) ↔
         ∃ c, collisions this !! guid = Some c ∧
              leaving (frameCollisions this) guid c ev).
Proof.
  unfold RigidBody.cleanGuid, stateOf, firedOf.
  destruct (collisions this !! guid) as [c|] eqn:Hc; simpl.
  - pose proof (cleanOthers_spec (length (others c)) (frameCollisions this !! guid)
                  (entity c) (others c)) as [Hos Hev].
    destruct (cleanOthers _ _ _ _) as [os fired]. simpl in *.
    rewrite firstn_all, drop_all, app_nil_r in Hos.
    split_and!; try done.
    + intros g. destruct (decide (g = guid)) as [->|Hne].
      * rewrite Hc. simpl. unfold cleaned. rewrite <- Hos.
        case_bool_decide; [by rewrite lookup_delete_eq|by rewrite lookup_insert_eq].
      * case_bool_decide;
          [by rewrite lookup_delete_ne|by rewrite lookup_insert_ne].
    + intros ev. rewrite Hev, firstn_all. unfold leaving. naive_solver.
  - split_and!; try done.
    + intros g. destruct (decide (g = guid)) as [->|Hne]; [by rewrite Hc|done].
    + intros ev. split; [by intros ?%elem_of_nil|]. by intros (c & [=] & _).
Qed.

Lemma forEach_cleanGuid keys this :
  NoDup keys →
  frameCollisions (stateOf (forEach keys cleanGuid this)) = frameCollisions this ∧
  systemHandlers (stateOf (forEach keys cleanGuid this)) = systemHandlers this ∧
  (∀ g, collisions (stateOf (forEach keys cleanGuid this)) !! g =
        if decide (g ∈ keys)
        then collisions this !! g ≫= cleaned (frameCollisions this) g
        else collisions this !! g) ∧
  (∀ ev, ev ∈ firedOf (forEach keys cleanGuid this) ↔
         ∃ g c, g ∈ keys ∧ collisions this !! g = Some c ∧
                leaving (frameCollisions this) g c ev).
Proof.
  revert this. induction keys as [|k keys IH]; intros this Hnd; simpl.
  - split_and!; try done.
    intros ev. split; [by intros ?%elem_of_nil|].
    by intros (g & c & ?%elem_of_nil & _).
  - apply NoDup_cons in Hnd as [Hk Hnd].
    destruct (cleanGuid_spec k this) as (Hf1 & Hh1 & Hc1 & Hev1).
    unfold bind, stateOf, firedOf in *.
    destruct (cleanGuid k this) as [[[] this1] fired1]. simpl in *.
    destruct (IH this1 Hnd) as (Hf2 & Hh2 & Hc2 & Hev2).
    destruct (forEach keys cleanGuid this1) as [[[] this2] fired2]. simpl in *.
    split_and!; [congruence|congruence| |].
    + intros g. rewrite Hc2, Hc1, Hf1.
      destruct (decide (g = k)) as [->|Hne].
      * rewrite decide_False by done. rewrite decide_True by by left. done.
      * destruct (decide (g ∈ keys)).
        -- rewrite decide_True by by right. done.
        -- rewrite decide_False; [done|]. by intros [?|?]%elem_of_cons.
    + intros ev. rewrite elem_of_app, Hev1, Hev2. setoid_rewrite elem_of_cons.
      rewrite Hf1. split.
      * intros [(c & ? & ?)|(g & c & Hg & Hc & ?)]; [by eauto 6|].
        exists g, c. split_and!; [by right| |done].
        rewrite Hc1 in Hc. rewrite decide_False in Hc; [done|by intros ->].
      * intros (g & c & [->|Hg] & Hc & ?); [by eauto|]. right.
        exists g, c. split_and!; [done| |done].
        rewrite Hc1. rewrite decide_False; [done|by intros ->].
Qed.

Lemma cleanOld_spec this :
  let r := _cleanOldCollisions this in
  frameCollisions (stateOf r) = frameCollisions this ∧
  systemHandlers (stateOf r) = systemHandlers this ∧
  (∀ g, collisions (stateOf r) !! g =
        collisions this !! g ≫= cleaned (frameCollisions this) g) ∧
  (∀ ev, ev ∈ firedOf r ↔
         ∃ g c, collisions this !! g = Some c ∧
                leaving (frameCollisions this) g c ev).
Proof.
  unfold RigidBody._cleanOldCollisions.
  destruct (forEach_cleanGuid (map_to_list (collisions this)).*1 this)
    as (Hf & Hh & Hc & Hev); [apply NoDup_fst_map_to_list|].
  split_and!; [done|done| |].
  - intros g. rewrite Hc. case_decide as Hin; [done|].
    destruct (collisions this !! g) as [c|] eqn:Hg; [|done].
    exfalso. apply Hin, list_elem_of_fmap. exists (g, c).
    split; [done|]. by apply elem_of_map_to_list.
  - intros ev. rewrite Hev. split.
    + intros (g & c & _ & ? & ?); eauto.
    + intros (g & c & Hg & ?). exists g, c. split_and!; [|done|done].
      apply list_elem_of_fmap. exists (g, c).
      split; [done|]. by apply elem_of_map_to_list.
Qed.

Lemma leaveEvents_inv ent o ev :
  ev ∈ leaveEvents ent o →
  (name ev = triggerleave ∧ trigger ent = true) ∨
  (name ev = collisionend ∧ firedOn ev = Some ent ∧ firedAbout ev = Some o ∧
   trigger ent = false ∧ trigger o = false).
Proof.
  unfold RigidBody.leaveEvents.
  destruct (trigger ent), (trigger o), (collision ent), (rigidbody ent),
    (rigidbody o); simpl; set_solver.
Qed.

(** *** The whole check, split into its three phases *)

Definition afterReset (this : System) : System := set_frameCollisions ∅ this.

Definition afterLoop (manifolds : list btPersistentManifold) (this : System)
  : unit * System * list Fired :=
  forEach manifolds checkManifold (afterReset this).

Lemma check_phases manifolds this :
  stateOf (_checkForCollisions manifolds this) =
    stateOf (_cleanOldCollisions (stateOf (afterLoop manifolds this))) ∧
  firedOf (_checkForCollisions manifolds this) =
    firedOf (afterLoop manifolds this) ++
    firedOf (_cleanOldCollisions (stateOf (afterLoop manifolds this))).
Proof.
  unfold RigidBody._checkForCollisions, afterLoop, afterReset, bind,
    stateOf, firedOf. simpl.
  destruct (forEach manifolds _ _) as [[[] this1] fired1]. simpl.
  by destruct (RigidBody._cleanOldCollisions this1) as [[[] this2] fired2].
Qed.

Lemma loopInv_start this : loopInv (collisions this) (afterReset this) [].
Proof.
  split_and!; simpl; try done.
  - intros guid v. unfold othersAt at 3. rewrite lookup_empty.
    rewrite elem_of_nil. tauto.
  - eauto.
  - by intros ev ?%elem_of_nil.
Qed.

Lemma loopInv_afterLoop manifolds this :
  loopInv (collisions this) (stateOf (afterLoop manifolds this))
          (firedOf (afterLoop manifolds this)).
Proof.
  apply (hoare_forEach (loopInv (collisions this)) manifolds checkManifold
           (λ m _, loopInv_checkManifold (collisions this) m)
           (afterReset this) [] (loopInv_start this)).
Qed.

(** The frame set of the check is the one the loop has built. *)
Lemma check_frameCollisions manifolds this :
  frameCollisions (stateOf (_checkForCollisions manifolds this)) =
  frameCollisions (stateOf (afterLoop manifolds this)).
Proof.
  destruct (check_phases manifolds this) as [-> _].
  by destruct (cleanOld_spec (stateOf (afterLoop manifolds this))) as (-> & _).
Qed.

Lemma check_collisions manifolds this guid :
  collisions (stateOf (_checkForCollisions manifolds this)) !! guid =
  collisions (stateOf (afterLoop manifolds this)) !! guid ≫=
    cleaned (frameCollisions (stateOf (afterLoop manifolds this))) guid.
Proof.
  destruct (check_phases manifolds this) as [-> _].
  by destruct (cleanOld_spec (stateOf (afterLoop manifolds this)))
    as (_ & _ & -> & _).
Qed.

Lemma check_fired manifolds this ev :
  ev ∈ firedOf (_checkForCollisions manifolds this) ↔
  ev ∈ firedOf (afterLoop manifolds this) ∨
  ∃ g c, collisions (stateOf (afterLoop manifolds this)) !! g = Some c ∧
         leaving (frameCollisions (stateOf (afterLoop manifolds this))) g c ev.
Proof.
  destruct (check_phases manifolds this) as [_ ->]. rewrite elem_of_app.
  by destruct (cleanOld_spec (stateOf (afterLoop manifolds this)))
    as (_ & _ & _ & ->).
Qed.

Lemma kept_elem frameCollision os o :
  o ∈ kept frameCollision os ↔ o ∈ os ∧ goneThisFrame frameCollision o = false.
Proof. unfold kept. rewrite list_elem_of_filter. tauto. Qed.

Lemma goneThisFrame_othersAt frame guid o :
  goneThisFrame (frame !! guid) o = true ↔ o ∉ othersAt frame guid.
Proof.
  unfold goneThisFrame, othersAt. destruct (frame !! guid).
  - by rewrite bool_decide_eq_true.
  - split; [intros _; apply not_elem_of_nil|done].
Qed.

Lemma cleaned_elem frame guid c o :
  o ∈ from_option others [] (cleaned frame guid c) ↔
  o ∈ others c ∧ o ∈ othersAt frame guid.
Proof.
  assert (o ∈ kept (frame !! guid) (others c) ↔
          o ∈ others c ∧ o ∈ othersAt frame guid) as Hkept.
  { rewrite kept_elem, <- not_true_iff_false, goneThisFrame_othersAt.
    split; intros [? ?]; split; try done; [by apply dec_stable|naive_solver]. }
  unfold cleaned. case_bool_decide as Hlen; simpl; [|done].
  apply nil_length_inv in Hlen. rewrite <- Hkept, Hlen. done.
Qed.

(** After the check, a contact is recorded exactly when it was recorded at
    the end of the loop and belongs to the frame set. *)
Lemma check_collisions_elem manifolds this guid o :
  o ∈ othersAt (collisions (stateOf (_checkForCollisions manifolds this))) guid ↔
  o ∈ othersAt (collisions (stateOf (afterLoop manifolds this))) guid ∧
  o ∈ othersAt (frameCollisions (stateOf (afterLoop manifolds this))) guid.
Proof.
  unfold othersAt at 1 2. rewrite check_collisions.
  destruct (collisions (stateOf (afterLoop manifolds this)) !! guid) as [c|];
    simpl; [|by rewrite elem_of_nil; tauto].
  apply (cleaned_elem _ guid c o).
Qed.

(** *** The invariant of the loop for one recorded pair

    [guid] and [o] are fixed: the pair is the entry of [o] in the record of
    [guid]. *)

Definition contactEvents (ent oth : Entity) (cs : list ContactPoint)
    (newCollision : bool) : list Fired :=
  let result := ContactResultArg (_createContactResult oth cs) in
  (if collision ent is Some _ then
     {| target := OnCollision ent; name := contact; payload := result |} ::
     (if newCollision
      then [ {| target := OnCollision ent; name := collisionstart; payload := result |} ]
      else [])
   else []) ++
  (if rigidbody ent is Some _ then
     {| target := OnRigidbody ent; name := contact; payload := result |} ::
     (if newCollision
      then [ {| target := OnRigidbody ent; name := collisionstart; payload := result |} ]
      else [])
   else []).

Lemma notifyContact_eq ent oth cs this :
  notifyContact ent oth cs this =
  (tt, stateOf (_storeCollision ent oth this),
   contactEvents ent oth cs (valueOf (_storeCollision ent oth this))).
Proof.
  unfold RigidBody.notifyContact, contactEvents, bind, valueOf, stateOf.
  destruct (_storeCollision ent oth this) as [[nc this1] fired1] eqn:Hstore.
  assert (fired1 = []) as -> by by rewrite <- (store_fired ent oth this), Hstore.
  by destruct (collision ent), (rigidbody ent), nc.
Qed.

Lemma contactEvents_notified ent oth cs nc n :
  n = contact ∨ (n = collisionstart ∧ nc = true) →
  firedOnComponents (contactEvents ent oth cs nc) n ent oth.
Proof.
  intros Hn. exists (_createContactResult oth cs). split; [done|].
  unfold contactEvents.
  split; intros [cmp Hcmp]; rewrite Hcmp;
    destruct Hn as [->|[-> ->]];
    destruct (collision ent), (rigidbody ent); set_solver.
Qed.

Lemma notified_mono fired more n guid o :
  notified fired n guid o → notified (fired ++ more) n guid o.
Proof.
  intros (ent & Hg & Hev & r & Hr & Hc & Hb).
  exists ent. split_and!; [done|done|]. exists r.
  split_and!; [done| |]; intros ?; apply elem_of_app; left; auto.
Qed.

Lemma notified_later fired more n ent o :
  _hasContactEvent ent = true →
  firedOnComponents more n ent o →
  notified (fired ++ more) n (getGuid ent) o.
Proof.
  intros Hev (r & Hr & Hc & Hb). exists ent. split_and!; [done|done|].
  exists r. split_and!; [done| |]; intros ?; apply elem_of_app; right; auto.
Qed.

Definition pairInv (prev : gmap string CollisionRecord) (guid : string) (o : Entity)
    (this : System) (fired : list Fired) : Prop :=
  loopInv prev this fired ∧
  (o ∈ othersAt (frameCollisions this) guid →
   notified fired contact guid o ∧
   (o ∈ othersAt prev guid ∨ notified fired collisionstart guid o)).

Lemma pairInv_fire prev guid o this fired ev :
  eventOk prev ev →
  pairInv prev guid o this fired → pairInv prev guid o this (fired ++ [ev]).
Proof.
  intros Hok [Hloop Hpair]. split; [by apply loopInv_fire|].
  intros Hin. destruct (Hpair Hin) as [Hc Hs].
  split; [by apply notified_mono|].
  destruct Hs as [?|?]; [by left|right]. by apply notified_mono.
Qed.

Lemma pairInv_store prev guid o ent oth this fired :
  ¬ (getGuid ent = guid ∧ oth = o) →
  pairInv prev guid o this fired →
  pairInv prev guid o (stateOf (_storeCollision ent oth this)) fired.
Proof.
  intros Hne [Hloop Hpair]. split; [by apply loopInv_store|].
  rewrite store_frameCollisions_elem. intros [Hin|[-> ->]]; [auto|].
  by destruct Hne.
Qed.

Lemma pairInv_notifyContact prev guid o ent oth cs :
  _hasContactEvent ent = true →
  hoare (pairInv prev guid o) (notifyContact ent oth cs)
        (λ _, pairInv prev guid o).
Proof.
  intros Hev this fired [Hloop Hpair].
  pose proof (loopInv_notifyContact prev ent oth cs this fired Hloop) as Hloop'.
  split; [done|]. clear Hloop'.
  rewrite notifyContact_eq. unfold stateOf at 1, firedOf. cbn [fst snd].
  rewrite store_frameCollisions_elem. intros Hin.
  assert (o ∈ othersAt (frameCollisions this) guid →
          notified (fired ++ contactEvents ent oth cs
                      (valueOf (_storeCollision ent oth this))) contact guid o ∧
          (o ∈ othersAt prev guid ∨
           notified (fired ++ contactEvents ent oth cs
                       (valueOf (_storeCollision ent oth this)))
                    collisionstart guid o)) as Hold.
  { intros Hf. destruct (Hpair Hf) as [Hc Hs].
    split; [by apply notified_mono|].
    destruct Hs as [?|?]; [by left|right]. by apply notified_mono. }
  destruct Hin as [Hf|[-> ->]]; [by apply Hold|].
  split.
  { apply notified_later; [done|]. apply contactEvents_notified. by left. }
  destruct (valueOf (_storeCollision ent oth this)) eqn:Hnew.
  { right. apply notified_later; [done|]. apply contactEvents_notified. by right. }
  rewrite store_value in Hnew. apply bool_decide_eq_false in Hnew.
  apply dec_stable in Hnew.
  destruct Hloop as (Hall & _). apply Hall in Hnew as [Hp|Hf]; [by left|].
  by apply Hold.
Qed.

Lemma pairInv_contactLoop prev guid o e0 e1 b0 b1 g pts fwd rev :
  hoare (pairInv prev guid o) (contactLoop e0 e1 b0 b1 g pts fwd rev)
        (λ _, pairInv prev guid o).
Proof.
  revert fwd rev. induction pts as [|pt pts IH]; intros fwd rev; simpl.
  - by apply hoare_ret.
  - destruct (if b0 || b1 then _ else _) as [fwd' rev'].
    apply (hoare_bind _ _ _ (λ _, pairInv prev guid o)); [|intros ?; apply IH].
    apply hoare_when; [intros _|done].
    apply hoare_fire. intros this fired Hinv. by apply pairInv_fire.
Qed.

Ltac pairInv_leaf prev guid o :=
  lazymatch goal with
  | |- hoare _ (bind (RigidBody._storeCollision ?e ?x) _) _ =>
      apply (hoare_store (pairInv prev guid o) (λ _, True));
      [intros ? ? ?; split; [apply pairInv_store; [naive_solver|assumption]|done]
      |intros ? _]
  | |- hoare _ (RigidBody._storeCollision _ _) _ =>
      apply hoare_store_last; intros ? ? ?;
      apply pairInv_store; [naive_solver|assumption]
  | |- hoare _ (fire _ _ _) _ =>
      apply hoare_fire; intros ? ? ?; apply pairInv_fire; [|assumption];
      unfold eventOk; simpl; split_and!; [done|done|]; solve [intros [=]]
  end.

Lemma pairInv_checkManifold prev guid o m :
  (joins m guid o → isTriggerManifold NORESPONSE m = false) →
  hoare (pairInv prev guid o) (checkManifold m) (λ _, pairInv prev guid o).
Proof.
  unfold joins, isTriggerManifold, manifoldEntities, RigidBody.checkManifold.
  destruct (bodyEntity (getBody0 m)) as [e0|]; [|by intros; apply hoare_ret].
  destruct (bodyEntity (getBody1 m)) as [e1|]; [|by intros; apply hoare_ret].
  destruct (0 <? _)%nat; [|by intros; apply hoare_ret].
  destruct (noResponse _ _ || noResponse _ _); intros Hjoin.
  - assert (¬ (getGuid e0 = guid ∧ e1 = o)) as Hne0 by naive_solver.
    assert (¬ (getGuid e1 = guid ∧ e0 = o)) as Hne1 by naive_solver.
    clear Hjoin. unfold RigidBody.triggerBranch.
    repeat first [hoare_struct (pairInv prev guid o)|pairInv_leaf prev guid o].
  - unfold RigidBody.contactBranch. apply hoare_systemHasEvent. intros g.
    destruct (g || _ || _); [|by apply hoare_ret].
    apply (hoare_bind _ _ _ (λ _, pairInv prev guid o));
      [apply pairInv_contactLoop|intros cs].
    apply (hoare_bind _ _ _ (λ _, pairInv prev guid o)).
    + destruct (_hasContactEvent e0) eqn:?;
        [by apply pairInv_notifyContact|by apply hoare_ret].
    + intros ?. destruct (_hasContactEvent e1) eqn:?;
        [by apply pairInv_notifyContact|by apply hoare_ret].
Qed.

Lemma pairInv_afterLoop manifolds this guid o :
  (∀ m, m ∈ manifolds → joins m guid o → isTriggerManifold NORESPONSE m = false) →
  pairInv (collisions this) guid o (stateOf (afterLoop manifolds this))
          (firedOf (afterLoop manifolds this)).
Proof.
  intros Hms.
  apply (hoare_forEach (pairInv (collisions this) guid o) manifolds checkManifold
           (λ m Hm, pairInv_checkManifold (collisions this) guid o m (Hms m Hm))
           (afterReset this) []).
  split; [apply loopInv_start|]. simpl. unfold othersAt at 1.
  rewrite lookup_empty. by intros ?%elem_of_nil.
Qed.

(** The events of a contact that was recorded before the check and is
    absent from its frame set. *)
Lemma vanished_leaveEvents manifolds this guid c o :
  collisions this !! guid = Some c →
  o ∈ others c →
  o ∉ othersAt (frameCollisions (stateOf (_checkForCollisions manifolds this))) guid →
  ∀ ev, ev ∈ leaveEvents (entity c) o →
        ev ∈ firedOf (_checkForCollisions manifolds this).
Proof.
  intros Hc Ho. rewrite check_frameCollisions. intros Hgone ev Hev.
  destruct (loopInv_afterLoop manifolds this) as (Hall & Hent & _ & _).
  destruct (Hent guid c Hc) as (c' & Hc' & Hentity).
  assert (o ∈ others c') as Ho'.
  { specialize (Hall guid o). unfold othersAt at 1 2 in Hall.
    rewrite Hc, Hc' in Hall. apply Hall. by left. }
  apply check_fired. right. exists guid, c'.
  split; [done|]. exists o. rewrite Hentity.
  by rewrite goneThisFrame_othersAt.
Qed.

(** *** Manifolds with a no-response body *)

Lemma hoare_store_gen (P : System → list Fired → Prop) ent oth
    (Q : bool → System → list Fired → Prop) :
  (∀ this fired, P this fired →
     Q (valueOf (_storeCollision ent oth this))
       (stateOf (_storeCollision ent oth this)) fired) →
  hoare P (_storeCollision ent oth) Q.
Proof. intros HQ this fired HP. rewrite store_fired, app_nil_r. by apply HQ. Qed.

Lemma hoare_run {A} (P : System → list Fired → Prop) (m : Sys A) Q this :
  hoare P m Q → P this [] → Q (valueOf (m this)) (stateOf (m this)) (firedOf (m this)).
Proof. intros Hm HP. apply (Hm this [] HP). Qed.















(** A notified entity has a component, so the event is in the log. *)
Lemma notified_fired fired n guid o :
  notified fired n guid o → ∃ ev, ev ∈ fired ∧ name ev = n.
Proof.
  intros (ent & _ & Hev & r & _ & Hc & Hb).
  unfold _hasContactEvent, listensToContact in Hev.
  destruct (collision ent) as [c|]; [by eexists; split; [apply Hc|]|].
  destruct (rigidbody ent) as [b|]; [by eexists; split; [apply Hb|]|].
  done.
Qed.

(** *** The statements about one check *)

(** C9. After a check, every record left in [this.collisions] has a
    non-empty [others] array; [_cleanOldCollisions] alone leaves no empty
    record either, and [_storeCollision] leaves a record that holds the
    stored entity. *)
Theorem remaining_records_nonempty manifolds this guid c :
  (collisions (stateOf (_checkForCollisions manifolds this)) !! guid = Some c →
   others c ≠ []) ∧
  (collisions (stateOf (_cleanOldCollisions this)) !! guid = Some c →
   others c ≠ []) ∧
  (∀ ent oth,
     ∃ c', collisions (stateOf (_storeCollision ent oth this)) !! getGuid ent = Some c' ∧
           oth ∈ others c').
Proof.
  assert (∀ frame c0, cleaned frame guid c0 = Some c → others c ≠ []) as Hcleaned.
  { intros frame c0. unfold cleaned. case_bool_decide as Hlen; [done|].
    intros [= <-]. simpl. intros Hnil. by rewrite Hnil in Hlen. }
  split_and!.
  - rewrite check_collisions.
    destruct (collisions (stateOf (afterLoop manifolds this)) !! guid); [|done].
    apply Hcleaned.
  - destruct (cleanOld_spec this) as (_ & _ & -> & _).
    destruct (collisions this !! guid); [|done]. apply Hcleaned.
  - intros ent oth.
    assert (oth ∈ othersAt (collisions (stateOf (_storeCollision ent oth this)))
                           (getGuid ent)) as Hin.
    { apply store_collisions_elem. by right. }
    unfold othersAt in Hin.
    destruct (collisions _ !! getGuid ent) as [c'|]; [by eauto|].
    by apply elem_of_nil in Hin.
Qed.

(** C2, as amended. A contact recorded before the check and absent from the
    frame set of the check is removed from [this.collisions]; when neither
    entity is a trigger, 'collisionend' is fired on the rigidbody and on the collision
    component of the recorded entity, as far as it has them. *)
Theorem vanished_contact_ends manifolds this guid c o :
  collisions this !! guid = Some c →
  o ∈ others c →
  o ∉ othersAt (frameCollisions (stateOf (_checkForCollisions manifolds this))) guid →
  (o ∉ othersAt (collisions (stateOf (_checkForCollisions manifolds this))) guid) ∧
  (trigger (entity c) = false → trigger o = false →
   (is_Some (rigidbody (entity c)) →
    {| target := OnRigidbody (entity c); name := collisionend;
       payload := EntityArg o |} ∈ firedOf (_checkForCollisions manifolds this)) ∧
   (is_Some (collision (entity c)) →
    {| target := OnCollision (entity c); name := collisionend;
       payload := EntityArg o |} ∈ firedOf (_checkForCollisions manifolds this))).
Proof.
  intros Hc Ho Hgone. split.
  { rewrite check_frameCollisions in Hgone. rewrite check_collisions_elem. tauto. }
  intros Hte Hto.
  pose proof (vanished_leaveEvents manifolds this guid c o Hc Ho Hgone) as Hfired.
  unfold RigidBody.leaveEvents in Hfired. rewrite Hte, Hto in Hfired. simpl in Hfired.
  split; intros [cmp Hcmp]; apply Hfired; rewrite Hcmp;
    destruct (rigidbody (entity c)), (collision (entity c));
    simpl; set_solver.
Qed.

(** C1, as amended. A contact that belongs to the frame set of a check and
    was not recorded before it gets 'collisionstart': [_storeCollision] returns
    [true] for it, and the event is fired on the collision and on the
    rigidbody component of an entity of that guid with contact callbacks, as
    far as it has them.  The pair is one of solid bodies: no manifold that
    joins it has a no-response flag. *)
Theorem new_contact_starts manifolds this guid o :
  (∀ m, m ∈ manifolds → joins m guid o → isTriggerManifold NORESPONSE m = false) →
  o ∈ othersAt (frameCollisions (stateOf (_checkForCollisions manifolds this))) guid →
  o ∉ othersAt (collisions this) guid →
  (∀ ent, getGuid ent = guid → valueOf (_storeCollision ent o this) = true) ∧
  notified (firedOf (_checkForCollisions manifolds this)) collisionstart guid o.
Proof.
  intros Hms Hframe Hprev. split.
  { intros ent <-. by rewrite store_value, bool_decide_eq_true. }
  rewrite check_frameCollisions in Hframe.
  destruct (pairInv_afterLoop manifolds this guid o Hms) as [_ Hpair].
  destruct (Hpair Hframe) as [_ [?|Hstart]]; [done|].
  destruct (check_phases manifolds this) as [_ ->]. by apply notified_mono.
Qed.

(** C3, as amended. A contact recorded before a check and present in its
    frame set gets the per-step 'contact' event on the components of an
    entity of that guid with contact callbacks, and neither 'collisionstart' nor 'collisionend'
    is fired for it: [_storeCollision] returns [false] for it.  The pair is
    one of solid bodies, as in C1. *)
Theorem steady_contact_only_contact manifolds this guid o :
  keyed (collisions this) →
  (∀ m, m ∈ manifolds → joins m guid o → isTriggerManifold NORESPONSE m = false) →
  o ∈ othersAt (collisions this) guid →
  o ∈ othersAt (frameCollisions (stateOf (_checkForCollisions manifolds this))) guid →
  notified (firedOf (_checkForCollisions manifolds this)) contact guid o ∧
  (∀ ev ent, ev ∈ firedOf (_checkForCollisions manifolds this) →
             firedOn ev = Some ent → getGuid ent = guid → firedAbout ev = Some o →
             name ev ≠ collisionstart ∧ name ev ≠ collisionend) ∧
  (∀ ent, getGuid ent = guid → valueOf (_storeCollision ent o this) = false).
Proof.
  intros Hkeyed Hms Hprev Hframe. rewrite check_frameCollisions in Hframe.
  destruct (pairInv_afterLoop manifolds this guid o Hms)
    as [(_ & _ & Hkey & Hok) Hpair].
  split_and!.
  - destruct (Hpair Hframe) as [Hcontact _].
    destruct (check_phases manifolds this) as [_ ->]. by apply notified_mono.
  - intros ev ent Hev Hon Hguid Habout.
    apply check_fired in Hev as [Hev|(g & c & Hc & o' & Ho' & Hgone & Hev)].
    + destruct (Hok ev Hev) as (Hend & _ & Hstart). split; [|done].
      intros Hname. destruct (Hstart Hname) as (e & o' & He & Ho' & Habs).
      rewrite Hon in He. rewrite Habout in Ho'. by simplify_eq.
    + apply leaveEvents_inv in Hev
        as [[Hname _]|(Hname & Hon' & Habout' & _)]; [by rewrite Hname|].
      rewrite Hname. split; [done|]. intros _.
      assert (g = guid) as ->
        by (rewrite <- (Hkey Hkeyed _ _ Hc); congruence).
      assert (o' = o) as -> by congruence.
      by apply goneThisFrame_othersAt in Hgone.
  - intros ent <-. rewrite store_value. by apply bool_decide_eq_false_2; auto.
Qed.

(** The frame set is rebuilt by every check: the check does not depend on
    the frame set it finds, and without manifolds it leaves an empty one.
    [_storeCollision] pushes the other entity onto the frame record of the
    guid in every case, and onto the persistent record only when it is not
    there yet, which is exactly when it returns [true]; the records of other
    guids are left alone. *)
Lemma check_rebuilds_the_frame manifolds frame this ent oth :
  _checkForCollisions manifolds (set_frameCollisions frame this) =
    _checkForCollisions manifolds this ∧
  frameCollisions (stateOf (_checkForCollisions [] this)) = ∅ ∧
  othersAt (frameCollisions (stateOf (_storeCollision ent oth this))) (getGuid ent) =
    othersAt (frameCollisions this) (getGuid ent) ++ [oth] ∧
  othersAt (collisions (stateOf (_storeCollision ent oth this))) (getGuid ent) =
    (if valueOf (_storeCollision ent oth this)
     then othersAt (collisions this) (getGuid ent) ++ [oth]
     else othersAt (collisions this) (getGuid ent)) ∧
  (valueOf (_storeCollision ent oth this) = true ↔
   oth ∉ othersAt (collisions this) (getGuid ent)) ∧
  (∀ guid, guid ≠ getGuid ent →
     othersAt (frameCollisions (stateOf (_storeCollision ent oth this))) guid =
       othersAt (frameCollisions this) guid ∧
     othersAt (collisions (stateOf (_storeCollision ent oth this))) guid =
       othersAt (collisions this) guid).
Proof.
  split_and!.
  - reflexivity.
  - rewrite check_frameCollisions. reflexivity.
  - rewrite store_frameCollisions. by rewrite decide_True.
  - rewrite store_collisions, store_value. by rewrite decide_True.
  - rewrite store_value. apply bool_decide_eq_true.
  - intros guid Hne. rewrite store_frameCollisions, store_collisions.
    by rewrite !decide_False.
Qed.



(** The records stay stored under the guid of their entity. *)
Lemma keyed_check manifolds this :
  keyed (collisions this) →
  keyed (collisions (stateOf (_checkForCollisions manifolds this))).
Proof.
  intros Hkeyed guid c. rewrite check_collisions.
  destruct (loopInv_afterLoop manifolds this) as (_ & _ & Hkey & _).
  destruct (collisions (stateOf (afterLoop manifolds this)) !! guid)
    as [c'|] eqn:Hc'; [|done].
  simpl. unfold cleaned. case_bool_decide; [done|]. intros [= <-]. simpl.
  by apply (Hkey Hkeyed).
Qed.

(** *** The branch for solid bodies, as one step

    The loop over the contact points leaves the system alone; the branch
    stores the pair for each entity with contact callbacks and fires the
    events of the system first, then those of [e0], then those of [e1]. *)

Definition systemContact (e0 e1 : Entity) (pt : btManifoldPoint) : Fired :=
  {| target := OnSystem; name := contact;
     payload := SingleContactResultArg
                  (_createSingleContactResult e0 e1 (_createContactPointFromAmmo pt)) |}.

Lemma contactLoop_eq e0 e1 b0 b1 g pts fwd rev this :
  contactLoop e0 e1 b0 b1 g pts fwd rev this =
  ((if b0 || b1
    then (fwd ++ map _createContactPointFromAmmo pts,
          rev ++ map _createReverseContactPointFromAmmo pts)
    else (fwd, rev)),
   this,
   if g then map (systemContact e0 e1) pts else []).
Proof.
  revert fwd rev. induction pts as [|pt pts IH]; intros fwd rev; simpl.
  - unfold ret. rewrite !app_nil_r. by destruct (b0 || b1), g.
  - destruct (b0 || b1) eqn:Hb, g; unfold bind, when, fire, ret; cbn [fst snd];
      rewrite IH; by rewrite <- ?app_assoc.
Qed.

Lemma contactBranch_eq e0 e1 pts this :
  contactBranch e0 e1 pts this =
  let g := bool_decide (contact ∈ systemHandlers this) in
  let this1 :=
    if _hasContactEvent e0 then stateOf (_storeCollision e0 e1 this) else this in
  let this2 :=
    if _hasContactEvent e1 then stateOf (_storeCollision e1 e0 this1) else this1 in
  (tt, this2,
   (if g then map (systemContact e0 e1) pts else []) ++
   (if _hasContactEvent e0
    then contactEvents e0 e1 (map _createContactPointFromAmmo pts)
           (valueOf (_storeCollision e0 e1 this))
    else []) ++
   (if _hasContactEvent e1
    then contactEvents e1 e0 (map _createReverseContactPointFromAmmo pts)
           (valueOf (_storeCollision e1 e0 this1))
    else [])).
Proof.
  unfold RigidBody.contactBranch, bind, systemHasEvent. cbn zeta.
  destruct (bool_decide (contact ∈ systemHandlers this)) eqn:Hg,
    (_hasContactEvent e0) eqn:H0, (_hasContactEvent e1) eqn:H1; cbn [orb];
    rewrite ?contactLoop_eq, ?H0, ?H1; cbn [orb fst snd app];
    rewrite ?notifyContact_eq; unfold ret; cbn [fst snd app];
    rewrite ?notifyContact_eq; cbn [fst snd app];
    rewrite ?app_nil_r; try reflexivity.
Qed.

Lemma contactBranch_state e0 e1 pts this :
  stateOf (contactBranch e0 e1 pts this) =
  if _hasContactEvent e1
  then stateOf (_storeCollision e1 e0
         (if _hasContactEvent e0 then stateOf (_storeCollision e0 e1 this) else this))
  else if _hasContactEvent e0 then stateOf (_storeCollision e0 e1 this) else this.
Proof. by rewrite contactBranch_eq. Qed.

Lemma contactBranch_fired e0 e1 pts this :
  firedOf (contactBranch e0 e1 pts this) =
  (if bool_decide (contact ∈ systemHandlers this)
   then map (systemContact e0 e1) pts else []) ++
  (if _hasContactEvent e0
   then contactEvents e0 e1 (map _createContactPointFromAmmo pts)
          (valueOf (_storeCollision e0 e1 this))
   else []) ++
  (if _hasContactEvent e1
   then contactEvents e1 e0 (map _createReverseContactPointFromAmmo pts)
          (valueOf (_storeCollision e1 e0
             (if _hasContactEvent e0 then stateOf (_storeCollision e0 e1 this)
              else this)))
   else []).
Proof. by rewrite contactBranch_eq. Qed.

(** *** Loops, logs and invariants of the system alone *)

Lemma bind_fired {A B} (m : Sys A) (k : A → Sys B) this :
  firedOf (bind m k this) =
  firedOf (m this) ++ firedOf (k (valueOf (m this)) (stateOf (m this))).
Proof.
  unfold bind, firedOf, valueOf, stateOf.
  destruct (m this) as [[v this1] fired1]. simpl.
  by destruct (k v this1) as [[w this2] fired2].
Qed.

Lemma bind_state {A B} (m : Sys A) (k : A → Sys B) this :
  stateOf (bind m k this) = stateOf (k (valueOf (m this)) (stateOf (m this))).
Proof.
  unfold bind, firedOf, valueOf, stateOf.
  destruct (m this) as [[v this1] fired1]. simpl.
  by destruct (k v this1) as [[w this2] fired2].
Qed.

(** The events that the branch for triggers can fire. *)
Definition triggerEvents (e0 e1 : Entity) : list Fired :=
  (if listensToTrigger (collision e0)
   then [ {| target := OnCollision e0; name := triggerenter; payload := EntityArg e1 |} ]
   else []) ++
  (if listensToTrigger (collision e1)
   then [ {| target := OnCollision e1; name := triggerenter; payload := EntityArg e0 |} ]
   else []) ++
  (if listensToTrigger (rigidbody e0)
   then [ {| target := OnRigidbody e0; name := triggerenter; payload := EntityArg e1 |} ]
   else []) ++
  (if listensToTrigger (rigidbody e1)
   then [ {| target := OnRigidbody e1; name := triggerenter; payload := EntityArg e0 |} ]
   else []).

(** A property of the system that [_storeCollision] keeps, together with
    a log that holds events of the branch only. *)
Definition storing (I : System → Prop) (e0 e1 : Entity) (fired0 : list Fired)
    (this : System) (fired : list Fired) : Prop :=
  I this ∧ ∃ more, fired = fired0 ++ more ∧ ∀ ev, ev ∈ more → ev ∈ triggerEvents e0 e1.

Lemma storing_fire I e0 e1 fired0 this fired ev :
  ev ∈ triggerEvents e0 e1 →
  storing I e0 e1 fired0 this fired → storing I e0 e1 fired0 this (fired ++ [ev]).
Proof.
  intros Hev (HI & more & -> & Hmore). split; [done|].
  exists (more ++ [ev]). split; [by rewrite app_assoc|].
  intros ev' [?| ->%list_elem_of_singleton]%elem_of_app; auto.
Qed.

Ltac storing_leaf I e0 e1 fired0 Hstore :=
  lazymatch goal with
  | |- hoare _ (bind (RigidBody._storeCollision ?e ?o) _) _ =>
      apply (hoare_store (storing I e0 e1 fired0) (λ _, True));
      [intros ? ? [? ?]; split; [split; [by apply Hstore|assumption]|done]
      |intros ? _]
  | |- hoare _ (RigidBody._storeCollision _ _) _ =>
      apply hoare_store_last; intros ? ? [? ?]; split; [by apply Hstore|assumption]
  | |- hoare _ (fire _ _ _) _ =>
      apply hoare_fire; intros ? ? ?; apply storing_fire; [|assumption];
      unfold triggerEvents;
      repeat match goal with
             | Hl : listensToTrigger _ = true |- _ => rewrite Hl; clear Hl
             end;
      set_solver
  end.

Lemma triggerBranch_storing (I : System → Prop) e0 e1 flags0 flags1 this :
  (∀ ent oth s, I s → I (stateOf (_storeCollision ent oth s))) →
  I this →
  I (stateOf (triggerBranch e0 e1 flags0 flags1 this)) ∧
  ∀ ev, ev ∈ firedOf (triggerBranch e0 e1 flags0 flags1 this) →
        ev ∈ triggerEvents e0 e1.
Proof.
  intros Hstore HI.
  assert (hoare (storing I e0 e1 []) (triggerBranch e0 e1 flags0 flags1)
            (λ _, storing I e0 e1 [])) as Hh.
  { unfold RigidBody.triggerBranch.
    repeat first [hoare_struct (storing I e0 e1 [])
                 |storing_leaf I e0 e1 (@nil Fired) Hstore]. }
  destruct (hoare_run _ _ _ this Hh) as (HI' & more & Hmore & Hall).
  { split; [done|]. exists []. split; [done|]. by intros ? ?%elem_of_nil. }
  split; [done|]. simpl in Hmore. by rewrite Hmore.
Qed.

(** The system after the manifold, for a property that every call of
    [_storeCollision] keeps. *)
Lemma checkManifold_storing (I : System → Prop) m this :
  (∀ ent oth s, I s → I (stateOf (_storeCollision ent oth s))) →
  I this → I (stateOf (checkManifold m this)).
Proof.
  intros Hstore HI. unfold RigidBody.checkManifold.
  destruct (bodyEntity (getBody0 m)) as [e0|]; [|done].
  destruct (bodyEntity (getBody1 m)) as [e1|]; [|done].
  destruct (0 <? _)%nat; [|done].
  destruct (noResponse _ _ || noResponse _ _).
  - by apply triggerBranch_storing.
  - rewrite contactBranch_eq. unfold stateOf at 1. cbn [fst snd].
    destruct (_hasContactEvent e0), (_hasContactEvent e1); auto.
Qed.

Lemma loop_storing (I : System → Prop) manifolds this :
  (∀ ent oth s, I s → I (stateOf (_storeCollision ent oth s))) →
  I this → I (stateOf (forEach manifolds checkManifold this)).
Proof.
  intros Hstore. revert this.
  induction manifolds as [|m ms IH]; intros this HI; simpl; [done|].
  rewrite bind_state. apply IH. by apply checkManifold_storing.
Qed.

Lemma check_handlers manifolds this :
  systemHandlers (stateOf (_checkForCollisions manifolds this)) = systemHandlers this.
Proof.
  destruct (check_phases manifolds this) as [-> _].
  destruct (cleanOld_spec (stateOf (afterLoop manifolds this))) as (_ & -> & _).
  unfold afterLoop.
  apply (loop_storing (λ s, systemHandlers s = systemHandlers this));
    [by intros ent oth s <-|done].
Qed.

(** *** The records of the two maps *)

Lemma store_frame_nonempty ent oth this :
  (∀ g c, frameCollisions this !! g = Some c → others c ≠ []) →
  ∀ g c, frameCollisions (stateOf (_storeCollision ent oth this)) !! g = Some c →
         others c ≠ [].
Proof.
  intros Hne g c. unfold stateOf, RigidBody._storeCollision. simpl.
  destruct (decide (g = getGuid ent)) as [->|Hg].
  - rewrite lookup_insert_eq. intros [= <-]. simpl. by intros [? ?]%app_eq_nil.
  - rewrite lookup_insert_ne by done. apply Hne.
Qed.

Lemma check_frame_nonempty manifolds this g c :
  frameCollisions (stateOf (_checkForCollisions manifolds this)) !! g = Some c →
  others c ≠ [].
Proof.
  rewrite check_frameCollisions. unfold afterLoop.
  apply (loop_storing (λ s, ∀ g c, frameCollisions s !! g = Some c → others c ≠ [])).
  - intros ent oth s. apply store_frame_nonempty.
  - intros g' c'. simpl. by rewrite lookup_empty.
Qed.

Lemma check_collisions_nonempty manifolds this g c :
  collisions (stateOf (_checkForCollisions manifolds this)) !! g = Some c →
  others c ≠ [].
Proof.
  rewrite check_collisions.
  destruct (collisions (stateOf (afterLoop manifolds this)) !! g) as [c'|]; [|done].
  simpl. unfold cleaned. case_bool_decide as Hlen; [done|]. intros [= <-]. simpl.
  intros Hnil. by rewrite Hnil in Hlen.
Qed.

Lemma othersAt_nonempty (m : gmap string CollisionRecord) g :
  (∀ c, m !! g = Some c → others c ≠ []) →
  is_Some (m !! g) ↔ othersAt m g ≠ [].
Proof.
  intros Hne. unfold othersAt. destruct (m !! g) as [c|] eqn:Hc.
  - split; [intros _; by apply Hne|by eauto].
  - split; [by intros [? ?]|done].
Qed.

Lemma check_collisions_frame manifolds this guid o :
  o ∈ othersAt (collisions (stateOf (_checkForCollisions manifolds this))) guid ↔
  o ∈ othersAt (frameCollisions (stateOf (_checkForCollisions manifolds this))) guid.
Proof.
  rewrite check_collisions_elem, check_frameCollisions.
  destruct (loopInv_afterLoop manifolds this) as (Hall & _).
  rewrite Hall. tauto.
Qed.

(** X1. After a check the persistent map holds the contacts of the frame map:
    the same entities for every guid, and the same guids. *)
Theorem recorded_contacts_are_this_frame manifolds this :
  (∀ guid o,
     o ∈ othersAt (collisions (stateOf (_checkForCollisions manifolds this))) guid ↔
     o ∈ othersAt (frameCollisions (stateOf (_checkForCollisions manifolds this))) guid) ∧
  dom (collisions (stateOf (_checkForCollisions manifolds this))) =
  dom (frameCollisions (stateOf (_checkForCollisions manifolds this))).
Proof.
  pose proof (check_collisions_frame manifolds this) as Hsame.
  split; [done|]. apply set_eq. intros g. rewrite !elem_of_dom.
  rewrite !othersAt_nonempty
    by (intros c; first [apply check_collisions_nonempty|apply check_frame_nonempty]).
  split; intros Hne.
  - destruct (othersAt (collisions _) g) as [|o os] eqn:Hos; [done|].
    assert (o ∈ othersAt (frameCollisions
              (stateOf (_checkForCollisions manifolds this))) g) as Hin
      by (apply Hsame; rewrite Hos; by left).
    intros Hnil. rewrite Hnil in Hin. by apply elem_of_nil in Hin.
  - destruct (othersAt (frameCollisions _) g) as [|o os] eqn:Hos; [done|].
    assert (o ∈ othersAt (collisions
              (stateOf (_checkForCollisions manifolds this))) g) as Hin
      by (apply Hsame; rewrite Hos; by left).
    intros Hnil. rewrite Hnil in Hin. by apply elem_of_nil in Hin.
Qed.

(** The records of [this.collisions] as the methods keep them: each one is
    stored under the guid of its entity, and its [others] array is not
    empty and holds no entity twice. *)
Definition wellFormed (m : gmap string CollisionRecord) : Prop :=
  keyed m ∧ ∀ guid c, m !! guid = Some c → others c ≠ [] ∧ NoDup (others c).

Lemma wellFormed_othersAt (m : gmap string CollisionRecord) :
  (∀ guid c, m !! guid = Some c → NoDup (others c)) ↔
  (∀ guid, NoDup (othersAt m guid)).
Proof.
  unfold othersAt. split.
  - intros Hnd guid. destruct (m !! guid) as [c|] eqn:Hc; [by eapply Hnd|constructor].
  - intros Hnd guid c Hc. specialize (Hnd guid). by rewrite Hc in Hnd.
Qed.

Lemma store_NoDup ent oth this :
  (∀ guid, NoDup (othersAt (collisions this) guid)) →
  ∀ guid, NoDup (othersAt (collisions (stateOf (_storeCollision ent oth this))) guid).
Proof.
  intros Hnd guid. rewrite store_collisions. case_decide; [|done].
  case_bool_decide as Hnew; [|done].
  apply NoDup_app. split_and!; [done| |apply NoDup_singleton].
  by intros x Hx ->%list_elem_of_singleton.
Qed.

Lemma check_NoDup manifolds this :
  (∀ guid, NoDup (othersAt (collisions this) guid)) →
  ∀ guid, NoDup (othersAt (collisions (stateOf (_checkForCollisions manifolds this)))
                          guid).
Proof.
  intros Hnd guid. unfold othersAt. rewrite check_collisions.
  assert (∀ guid, NoDup (othersAt (collisions (stateOf (afterLoop manifolds this)))
                                  guid)) as Hloop.
  { unfold afterLoop.
    apply (loop_storing (λ s, ∀ guid, NoDup (othersAt (collisions s) guid)));
      [intros ent oth s; apply store_NoDup|done]. }
  specialize (Hloop guid). unfold othersAt in Hloop.
  destruct (collisions (stateOf (afterLoop manifolds this)) !! guid) as [c|];
    simpl; [|constructor].
  unfold cleaned. case_bool_decide; simpl; [constructor|].
  unfold kept. by apply NoDup_filter.
Qed.

Lemma store_wellFormed ent oth this :
  wellFormed (collisions this) →
  wellFormed (collisions (stateOf (_storeCollision ent oth this))).
Proof.
  intros [Hkeyed Hrec]. split; [by apply store_keyed|].
  intros guid c Hc. split.
  - revert Hc. unfold stateOf, RigidBody._storeCollision. simpl.
    destruct (decide (guid = getGuid ent)) as [->|Hg].
    + rewrite lookup_insert_eq. intros [= <-].
      destruct (collisions this !! getGuid ent) as [c0|] eqn:Hc0; simpl; [|done].
      case_bool_decide; simpl; [by intros [? ?]%app_eq_nil|].
      by apply (Hrec _ _ Hc0).
    + rewrite lookup_insert_ne by done. intros Hc. by apply (Hrec _ _ Hc).
  - revert guid c Hc. apply wellFormed_othersAt. apply store_NoDup.
    apply wellFormed_othersAt. intros guid c Hc. by apply (Hrec _ _ Hc).
Qed.

Lemma check_wellFormed manifolds this :
  wellFormed (collisions this) →
  wellFormed (collisions (stateOf (_checkForCollisions manifolds this))).
Proof.
  intros [Hkeyed Hrec]. split; [by apply keyed_check|].
  intros guid c Hc. split; [by eapply check_collisions_nonempty|].
  revert guid c Hc. apply wellFormed_othersAt. apply check_NoDup.
  apply wellFormed_othersAt. intros guid c Hc. by apply (Hrec _ _ Hc).
Qed.

(** X2. The well-formedness of the records is there from the constructor on,
    and [_storeCollision] and [_checkForCollisions] keep it. *)
Theorem collision_records_stay_well_formed :
  wellFormed (collisions (bookkeeping (constructor (num:=num)))) ∧
  (∀ ent oth this,
     wellFormed (collisions this) →
     wellFormed (collisions (stateOf (_storeCollision ent oth this)))) ∧
  (∀ manifolds this,
     wellFormed (collisions this) →
     wellFormed (collisions (stateOf (_checkForCollisions manifolds this)))).
Proof.
  split_and!.
  - split; [by intros guid c|]. intros guid c. simpl. by rewrite lookup_empty.
  - apply store_wellFormed.
  - apply check_wellFormed.
Qed.

(** *** The events of one manifold *)

Lemma forEach_fired_inv {A} (I : System → Prop) (l : list A) (body : A → Sys unit)
    this ev :
  (∀ v s, I s → I (stateOf (body v s))) →
  I this →
  ev ∈ firedOf (forEach l body this) →
  ∃ v s, v ∈ l ∧ I s ∧ ev ∈ firedOf (body v s).
Proof.
  intros Hbody. revert this. induction l as [|v l IH]; intros this HI; simpl.
  - by intros ?%elem_of_nil.
  - rewrite bind_fired. intros [Hev|Hev]%elem_of_app.
    + exists v, this. split_and!; [by left|done|done].
    + destruct (IH _ (Hbody v this HI) Hev) as (w & s & Hw & Hs & Hin).
      exists w, s. split_and!; [by right|done|done].
Qed.

Lemma contactEvents_inv ent oth cs nc ev :
  ev ∈ contactEvents ent oth cs nc →
  payload ev = ContactResultArg (_createContactResult oth cs) ∧
  (name ev = contact ∨ (name ev = collisionstart ∧ nc = true)) ∧
  ((target ev = OnCollision ent ∧ is_Some (collision ent)) ∨
   (target ev = OnRigidbody ent ∧ is_Some (rigidbody ent))).
Proof.
  unfold contactEvents.
  destruct (collision ent), (rigidbody ent), nc; simpl;
    rewrite ?elem_of_cons, ?elem_of_nil; naive_solver.
Qed.

Lemma triggerEvents_inv e0 e1 ev :
  ev ∈ triggerEvents e0 e1 →
  name ev = triggerenter ∧
  ((target ev = OnCollision e0 ∧ payload ev = EntityArg e1 ∧
    listensToTrigger (collision e0) = true) ∨
   (target ev = OnCollision e1 ∧ payload ev = EntityArg e0 ∧
    listensToTrigger (collision e1) = true) ∨
   (target ev = OnRigidbody e0 ∧ payload ev = EntityArg e1 ∧
    listensToTrigger (rigidbody e0) = true) ∨
   (target ev = OnRigidbody e1 ∧ payload ev = EntityArg e0 ∧
    listensToTrigger (rigidbody e1) = true)).
Proof.
  unfold triggerEvents.
  destruct (listensToTrigger (collision e0)), (listensToTrigger (collision e1)),
    (listensToTrigger (rigidbody e0)), (listensToTrigger (rigidbody e1)); simpl;
    rewrite ?elem_of_cons, ?elem_of_nil; naive_solver.
Qed.

Lemma listensToTrigger_is_Some c : listensToTrigger c = true → is_Some c.
Proof. destruct c; [by eauto|done]. Qed.

(** The events of one manifold: 'triggerenter' events of the pair when a
    body has the no-response flag; otherwise the 'contact' events of the
    system, one per contact point, and the events of the two entities, whose
    results list the contact points of the manifold in its order. *)
Lemma checkManifold_fired m this ev :
  ev ∈ firedOf (checkManifold m this) →
  ∃ e0 e1,
    manifoldEntities m = Some (e0, e1) ∧
    ((isTriggerManifold NORESPONSE m = true ∧ ev ∈ triggerEvents e0 e1) ∨
     (isTriggerManifold NORESPONSE m = false ∧
      ((contact ∈ systemHandlers this ∧
        ev ∈ map (systemContact e0 e1) (contactPoints m)) ∨
       (_hasContactEvent e0 = true ∧
        ∃ nc, ev ∈ contactEvents e0 e1
                     (map _createContactPointFromAmmo (contactPoints m)) nc) ∨
       (_hasContactEvent e1 = true ∧
        ∃ nc, ev ∈ contactEvents e1 e0
                     (map _createReverseContactPointFromAmmo (contactPoints m)) nc)))).
Proof.
  unfold RigidBody.checkManifold, manifoldEntities, isTriggerManifold.
  destruct (bodyEntity (getBody0 m)) as [e0|]; [|by intros ?%elem_of_nil].
  destruct (bodyEntity (getBody1 m)) as [e1|]; [|by intros ?%elem_of_nil].
  destruct (0 <? _)%nat; [|by intros ?%elem_of_nil].
  intros Hev. exists e0, e1. split; [done|].
  destruct (noResponse _ _ || noResponse _ _).
  - left. split; [done|].
    destruct (triggerBranch_storing (λ _, True) e0 e1
                (getCollisionFlags (getBody0 m)) (getCollisionFlags (getBody1 m)) this)
      as [_ Hall]; [done|done|].
    by apply Hall.
  - right. split; [done|]. revert Hev. rewrite contactBranch_eq.
    unfold firedOf. cbn [snd].
    rewrite !elem_of_app. intros [Hev|[Hev|Hev]].
    + left. case_bool_decide; [done|by apply elem_of_nil in Hev].
    + right. left. destruct (_hasContactEvent e0); [by eauto|by apply elem_of_nil in Hev].
    + right. right.
      destruct (_hasContactEvent e1); [by eauto|by apply elem_of_nil in Hev].
Qed.

(** The events of the loop of a check, with the system callbacks of the
    check. *)
Lemma loop_fired manifolds this ev :
  ev ∈ firedOf (afterLoop manifolds this) →
  ∃ m s, m ∈ manifolds ∧ systemHandlers s = systemHandlers this ∧
         ev ∈ firedOf (checkManifold m s).
Proof.
  unfold afterLoop.
  apply (forEach_fired_inv (λ s, systemHandlers s = systemHandlers this)); [|done].
  intros m s Hs.
  by apply (checkManifold_storing (λ s, systemHandlers s = systemHandlers this)).
Qed.

Lemma leaving_inv frame g c ev :
  leaving frame g c ev →
  payload ev = EntityArg (entity c) ∨ (∃ o, payload ev = EntityArg o ∧ o ∈ others c).
Proof.
  intros (o & Ho & _ & Hev). revert Hev. unfold RigidBody.leaveEvents.
  destruct (trigger (entity c)), (trigger o), (collision (entity c)),
    (rigidbody (entity c)), (rigidbody o); simpl;
    rewrite ?elem_of_cons, ?elem_of_nil; naive_solver.
Qed.

Lemma leaveEvents_target ent o ev :
  ev ∈ leaveEvents ent o →
  (name ev = triggerleave ∨ name ev = collisionend) ∧
  ((target ev = OnCollision ent ∧ is_Some (collision ent)) ∨
   (target ev = OnRigidbody ent ∧ is_Some (rigidbody ent)) ∨
   (target ev = OnRigidbody o ∧ is_Some (rigidbody o))).
Proof.
  unfold RigidBody.leaveEvents.
  destruct (trigger ent), (trigger o), (collision ent), (rigidbody ent),
    (rigidbody o); simpl; rewrite ?elem_of_cons, ?elem_of_nil; naive_solver.
Qed.

(** X3. No event is fired on a component that the entity lacks, and the system
    itself fires nothing but 'contact', and only with a callback attached
    for it. *)
Theorem events_only_where_they_can_be_heard manifolds this ev :
  ev ∈ firedOf (_checkForCollisions manifolds this) →
  match target ev with
  | OnCollision e => is_Some (collision e)
  | OnRigidbody e => is_Some (rigidbody e)
  | OnSystem => name ev = contact ∧ contact ∈ systemHandlers this
  end.
Proof.
  intros [Hev|(g & c & _ & o & _ & _ & Hev)]%check_fired.
  - apply loop_fired in Hev as (m & s & _ & Hs & Hev).
    apply checkManifold_fired in Hev
      as (e0 & e1 & _ & [[_ Hev]|[_ [[Hg Hev]|[[_ [nc Hev]]|[_ [nc Hev]]]]]]).
    + apply triggerEvents_inv in Hev
        as (_ & [(-> & _ & Hl)|[(-> & _ & Hl)|[(-> & _ & Hl)|(-> & _ & Hl)]]]);
        by apply listensToTrigger_is_Some.
    + apply list_elem_of_fmap in Hev as (pt & -> & _). simpl. by rewrite <- Hs.
    + by apply contactEvents_inv in Hev as (_ & _ & [[-> ?]|[-> ?]]).
    + by apply contactEvents_inv in Hev as (_ & _ & [[-> ?]|[-> ?]]).
  - by apply leaveEvents_target in Hev as (_ & [[-> ?]|[[-> ?]|[-> ?]]]).
Qed.

(** X4. Every contact result handed to a callback of an entity lists all the
    contact points of one manifold, in the order of the manifold: as they
    are for the first entity of the manifold, and with the two sides
    exchanged for the second. *)
Theorem contact_results_list_the_manifold manifolds this ev r :
  ev ∈ firedOf (_checkForCollisions manifolds this) →
  payload ev = ContactResultArg r →
  ∃ m e0 e1,
    m ∈ manifolds ∧ manifoldEntities m = Some (e0, e1) ∧
    isTriggerManifold NORESPONSE m = false ∧
    ((firedOn ev = Some e0 ∧ other r = e1 ∧
      contacts r = map _createContactPointFromAmmo (contactPoints m)) ∨
     (firedOn ev = Some e1 ∧ other r = e0 ∧
      contacts r = map _createReverseContactPointFromAmmo (contactPoints m))).
Proof.
  intros [Hev|(g & c & _ & Hev)]%check_fired Hr.
  - apply loop_fired in Hev as (m & s & Hm & _ & Hev).
    apply checkManifold_fired in Hev
      as (e0 & e1 & Hents & [[_ Hev]|[Hsolid [[_ Hev]|[[_ [nc Hev]]|[_ [nc Hev]]]]]]).
    + apply triggerEvents_inv in Hev
        as (_ & [(_ & Hp & _)|[(_ & Hp & _)|[(_ & Hp & _)|(_ & Hp & _)]]]);
        congruence.
    + apply list_elem_of_fmap in Hev as (pt & -> & _). done.
    + exists m, e0, e1. split_and!; [done|done|done|]. left.
      apply contactEvents_inv in Hev as (Hp & _ & Ht).
      rewrite Hp in Hr. injection Hr as <-. unfold firedOn.
      by destruct Ht as [[-> _]|[-> _]].
    + exists m, e0, e1. split_and!; [done|done|done|]. right.
      apply contactEvents_inv in Hev as (Hp & _ & Ht).
      rewrite Hp in Hr. injection Hr as <-. unfold firedOn.
      by destruct Ht as [[-> _]|[-> _]].
  - apply leaving_inv in Hev as [Hp|(o & Hp & _)]; congruence.
Qed.

(** *** The 'contact' events of the system *)

#[local] Instance Target_eq_dec : EqDecision Target.
Proof. solve_decision. Defined.

(** The events of a log that are fired on the system itself. *)
Definition systemEvents (fired : list Fired) : list Fired :=
  filter (λ ev, target ev = OnSystem) fired.

(** The events that the system owes to one manifold: one per contact
    point, between the two entities in the order of the manifold, unless a
    body lacks its entity or has the no-response flag. *)
Definition systemContacts (m : btPersistentManifold) : list Fired :=
  match manifoldEntities m with
  | Some (e0, e1) =>
      if isTriggerManifold NORESPONSE m then []
      else map (systemContact e0 e1) (contactPoints m)
  | None => []
  end.

Lemma filter_none {A} (P : A → Prop) `{∀ x, Decision (P x)} (l : list A) :
  (∀ x, x ∈ l → ¬ P x) → filter P l = [].
Proof.
  induction l as [|x l IH]; intros Hl; [done|].
  rewrite filter_cons_False by (apply Hl; by left).
  apply IH. intros y Hy. apply Hl. by right.
Qed.

Lemma filter_all {A} (P : A → Prop) `{∀ x, Decision (P x)} (l : list A) :
  (∀ x, x ∈ l → P x) → filter P l = l.
Proof.
  induction l as [|x l IH]; intros Hl; [done|].
  rewrite filter_cons_True by (apply Hl; by left).
  f_equal. apply IH. intros y Hy. apply Hl. by right.
Qed.

Lemma systemEvents_contactEvents ent oth cs nc :
  systemEvents (contactEvents ent oth cs nc) = [].
Proof.
  apply filter_none. intros ev Hev Ht.
  apply contactEvents_inv in Hev as (_ & _ & [[Hon _]|[Hon _]]); congruence.
Qed.

Lemma systemEvents_systemContact e0 e1 pts :
  systemEvents (map (systemContact e0 e1) pts) = map (systemContact e0 e1) pts.
Proof. apply filter_all. by intros ev (pt & -> & _)%list_elem_of_fmap. Qed.

Lemma checkManifold_systemEvents m this :
  systemEvents (firedOf (checkManifold m this)) =
  if bool_decide (contact ∈ systemHandlers this) then systemContacts m else [].
Proof.
  unfold RigidBody.checkManifold, systemContacts, manifoldEntities, isTriggerManifold.
  destruct (bodyEntity (getBody0 m)) as [e0|]; [|by case_bool_decide].
  destruct (bodyEntity (getBody1 m)) as [e1|]; [|by case_bool_decide].
  unfold getNumContacts.
  destruct (contactPoints m) as [|pt pts] eqn:Hpts.
  { cbn [length Nat.ltb Nat.leb map]. case_bool_decide; [|done].
    by destruct (noResponse _ _ || noResponse _ _). }
  cbn [length Nat.ltb Nat.leb].
  destruct (noResponse _ _ || noResponse _ _).
  - transitivity (@nil Fired); [|by case_bool_decide].
    apply filter_none. intros ev Hev Ht.
    destruct (triggerBranch_storing (λ _, True) e0 e1
                (getCollisionFlags (getBody0 m)) (getCollisionFlags (getBody1 m)) this)
      as [_ Hall]; [done|done|].
    apply Hall, triggerEvents_inv in Hev
      as (_ & [(Hon & _)|[(Hon & _)|[(Hon & _)|(Hon & _)]]]); congruence.
  - rewrite contactBranch_eq. unfold firedOf. cbn [snd]. unfold systemEvents.
    rewrite !filter_app.
    fold (systemEvents (if _hasContactEvent e0
                        then contactEvents e0 e1
                               (map _createContactPointFromAmmo (pt :: pts))
                               (valueOf (_storeCollision e0 e1 this))
                        else [])).
    fold (systemEvents
            (if _hasContactEvent e1
             then contactEvents e1 e0
                    (map _createReverseContactPointFromAmmo (pt :: pts))
                    (valueOf (_storeCollision e1 e0
                       (if _hasContactEvent e0
                        then stateOf (_storeCollision e0 e1 this) else this)))
             else [])).
    assert (∀ (c : bool) l, systemEvents (if c then l else []) =
                            if c then systemEvents l else []) as Hif
      by (by intros []).
    rewrite !Hif, !systemEvents_contactEvents.
    destruct (_hasContactEvent e0), (_hasContactEvent e1); rewrite !app_nil_r;
      (case_bool_decide; [apply systemEvents_systemContact|done]).
Qed.

Lemma loop_systemEvents manifolds this :
  systemEvents (firedOf (forEach manifolds checkManifold this)) =
  if bool_decide (contact ∈ systemHandlers this)
  then flat_map systemContacts manifolds else [].
Proof.
  revert this. induction manifolds as [|m ms IH]; intros this; simpl.
  - by case_bool_decide.
  - rewrite bind_fired. unfold systemEvents. rewrite filter_app.
    fold (systemEvents (firedOf (checkManifold m this))).
    fold (systemEvents (firedOf (forEach ms checkManifold
                                   (stateOf (checkManifold m this))))).
    rewrite checkManifold_systemEvents, IH.
    rewrite (checkManifold_storing (λ s, systemHandlers s = systemHandlers this))
      by done.
    by case_bool_decide.
Qed.

(** X5. The system fires its own 'contact' event once for every contact point
    of every manifold between two entities without a no-response body,
    manifold after manifold and point after point, when a callback is
    attached to the system for it; it fires nothing else, and nothing
    without that callback. *)
Theorem system_contact_per_contact_point manifolds this :
  systemEvents (firedOf (_checkForCollisions manifolds this)) =
  if bool_decide (contact ∈ systemHandlers this)
  then flat_map systemContacts manifolds else [].
Proof.
  destruct (check_phases manifolds this) as [_ ->].
  unfold systemEvents. rewrite filter_app.
  fold (systemEvents (firedOf (afterLoop manifolds this))).
  unfold afterLoop. rewrite loop_systemEvents.
  assert (filter (λ ev : Fired, target ev = OnSystem)
            (firedOf (_cleanOldCollisions
               (stateOf (forEach manifolds checkManifold (afterReset this))))) = [])
    as ->; [|by rewrite app_nil_r].
  apply filter_none. intros ev Hev Ht.
  destruct (cleanOld_spec
              (stateOf (forEach manifolds checkManifold (afterReset this))))
    as (_ & _ & _ & Hfired).
  apply Hfired in Hev as (g & c & _ & o & _ & _ & Hev).
  apply leaveEvents_target in Hev as (_ & [[Hon _]|[[Hon _]|[Hon _]]]); congruence.
Qed.

(** *** What an event tells about the two maps *)

(** The contacts recorded in [prev] are still recorded in the system. *)
Definition extends (prev : gmap string CollisionRecord) (this : System) : Prop :=
  ∀ guid o, o ∈ othersAt prev guid → o ∈ othersAt (collisions this) guid.

Lemma extends_store prev ent oth this :
  extends prev this → extends prev (stateOf (_storeCollision ent oth this)).
Proof. intros Hext guid o Ho. rewrite store_collisions_elem. auto. Qed.

Lemma store_new prev ent oth this :
  extends prev this → valueOf (_storeCollision ent oth this) = true →
  oth ∉ othersAt prev (getGuid ent).
Proof.
  intros Hext. rewrite store_value. intros Hnew%bool_decide_eq_true Hprev.
  by apply Hnew, Hext.
Qed.

(** The branch for triggers fires an event only after a call of
    [_storeCollision] has returned [true]: one of the two directions of the
    pair was not recorded. *)
Section novelty.
Variables (prev : gmap string CollisionRecord) (e0 e1 : Entity).

Let novel : Prop :=
  e1 ∉ othersAt prev (getGuid e0) ∨ e0 ∉ othersAt prev (getGuid e1).

Let quiet (this : System) (fired : list Fired) : Prop :=
  extends prev this ∧ (fired = [] ∨ novel).

Let told (nc : bool) (this : System) (fired : list Fired) : Prop :=
  quiet this fired ∧ (nc = true → novel).

Lemma novelty_store (ent oth : Entity) :
  (ent = e0 ∧ oth = e1) ∨ (ent = e1 ∧ oth = e0) →
  hoare quiet (_storeCollision ent oth) told.
Proof.
  intros Hpair. apply hoare_store_gen. intros s f [Hext Hlog].
  split; [split; [by apply extends_store|done]|].
  intros Hnew%(store_new prev); [|done]. unfold novel. naive_solver.
Qed.

Lemma novelty_fire nc t p :
  hoare (told nc) (when nc (fire t triggerenter p)) (λ _, told nc).
Proof.
  apply hoare_when; [|by intros].
  intros ->. apply hoare_fire. intros s f [[Hext _] Hnovel].
  split; [split; [done|right; by apply Hnovel]|done].
Qed.

Lemma novelty_collision (c d : bool) ent oth t p nc0 :
  (ent = e0 ∧ oth = e1) ∨ (ent = e1 ∧ oth = e0) →
  hoare (told nc0)
        (if c
         then bind (_storeCollision ent oth)
                   (λ nc, bind (when (nc && d) (fire t triggerenter p)) (λ _, ret nc))
         else ret nc0)
        told.
Proof.
  intros Hpair. destruct c; [|by apply hoare_ret].
  apply (hoare_bind _ _ _ told).
  { intros s f [Hq _]. by apply novelty_store. }
  intros nc. apply (hoare_bind _ _ _ (λ _, told nc)); [|by intros; apply hoare_ret].
  destruct d; [rewrite andb_true_r; apply novelty_fire|].
  rewrite andb_false_r. by apply hoare_ret.
Qed.

Lemma novelty_stored_once (ent oth : Entity) nc0 :
  (ent = e0 ∧ oth = e1) ∨ (ent = e1 ∧ oth = e0) →
  hoare (told nc0)
        (if negb nc0 then _storeCollision ent oth else ret nc0) told.
Proof.
  intros Hpair. destruct nc0; simpl; [by apply hoare_ret|].
  intros s f [Hq _]. by apply novelty_store.
Qed.

Lemma triggerBranch_novel flags0 flags1 this ev :
  extends prev this →
  ev ∈ firedOf (triggerBranch e0 e1 flags0 flags1 this) → novel.
Proof.
  intros Hext Hev.
  assert (hoare (told false) (triggerBranch e0 e1 flags0 flags1) (λ _, quiet)) as Hh.
  { unfold RigidBody.triggerBranch.
    apply (hoare_bind _ _ _ told); [apply novelty_collision; by left|].
    intros nc1. apply (hoare_bind _ _ _ told); [apply novelty_collision; by right|].
    intros nc2. apply (hoare_bind _ _ _ told).
    { destruct (listensToTrigger (rigidbody e0)); [|by apply hoare_ret].
      apply (hoare_bind _ _ _ told); [apply novelty_stored_once; by right|].
      intros nc. apply (hoare_bind _ _ _ (λ _, told nc)); [apply novelty_fire|].
      intros _. by apply hoare_ret. }
    intros nc3.
    destruct (listensToTrigger (rigidbody e1)); [|by apply hoare_ret; intros ? ? []].
    apply (hoare_bind _ _ _ told); [apply novelty_stored_once; by left|].
    intros nc s f Ht. by apply novelty_fire. }
  destruct (hoare_run _ _ _ this Hh) as [_ [Hnil|Hnovel]]; [| |done].
  - split; [by split; [|left]|done].
  - rewrite Hnil in Hev. by apply elem_of_nil in Hev.
Qed.

End novelty.

(** The frame map only grows while the manifolds are visited. *)
Definition frameExtends (frame : gmap string CollisionRecord) (this : System) : Prop :=
  ∀ guid o, o ∈ othersAt frame guid → o ∈ othersAt (frameCollisions this) guid.

Lemma frameExtends_store frame ent oth this :
  frameExtends frame this → frameExtends frame (stateOf (_storeCollision ent oth this)).
Proof. intros Hext guid o Ho. rewrite store_frameCollisions_elem. auto. Qed.

(** What an event of the loop tells: a 'contact' or 'collisionstart' of an
    entity is about a contact of the frame map, a 'collisionstart' about one
    that was not recorded, and a 'triggerenter' about a pair of which one
    direction was not recorded. *)
Definition startSound (prev frame : gmap string CollisionRecord) (ev : Fired) : Prop :=
  name ev ≠ collisionend ∧ name ev ≠ triggerleave ∧
  ∀ e, firedOn ev = Some e →
    ∃ o, firedAbout ev = Some o ∧
      (name ev = contact ∨ name ev = collisionstart →
       o ∈ othersAt frame (getGuid e)) ∧
      (name ev = collisionstart → o ∉ othersAt prev (getGuid e)) ∧
      (name ev = triggerenter →
       o ∉ othersAt prev (getGuid e) ∨ e ∉ othersAt prev (getGuid o)).

Lemma startSound_mono prev frame frame' ev :
  (∀ guid o, o ∈ othersAt frame guid → o ∈ othersAt frame' guid) →
  startSound prev frame ev → startSound prev frame' ev.
Proof.
  intros Hsub (Hend & Hleave & Hon). split_and!; [done|done|].
  intros e He. destruct (Hon e He) as (o & Ho & Hframe & Hrest).
  exists o. split_and!; [done| |apply Hrest|apply Hrest]. auto.
Qed.

Lemma checkManifold_startSound prev m this ev :
  extends prev this →
  ev ∈ firedOf (checkManifold m this) →
  startSound prev (frameCollisions (stateOf (checkManifold m this))) ev.
Proof.
  intros Hext. unfold RigidBody.checkManifold.
  destruct (bodyEntity (getBody0 m)) as [e0|]; [|by intros ?%elem_of_nil].
  destruct (bodyEntity (getBody1 m)) as [e1|]; [|by intros ?%elem_of_nil].
  destruct (0 <? _)%nat; [|by intros ?%elem_of_nil].
  destruct (noResponse _ _ || noResponse _ _).
  - intros Hev.
    pose proof (triggerBranch_novel prev e0 e1 _ _ this ev Hext Hev) as Hnovel.
    destruct (triggerBranch_storing (λ _, True) e0 e1
                (getCollisionFlags (getBody0 m)) (getCollisionFlags (getBody1 m)) this)
      as [_ Hall]; [done|done|].
    apply Hall, triggerEvents_inv in Hev as (Hname & Hshape).
    split_and!; [by rewrite Hname|by rewrite Hname|].
    unfold firedOn, firedAbout. rewrite Hname. intros e He.
    destruct Hshape as [(Ht & Hp & _)|[(Ht & Hp & _)|[(Ht & Hp & _)|(Ht & Hp & _)]]];
      rewrite Ht in He; rewrite Hp; simplify_eq; eexists; split_and!;
      try done; naive_solver.
  - rewrite contactBranch_state, contactBranch_fired.
    rewrite !elem_of_app. intros [Hsys|[Hc|Hc]].
    + case_bool_decide; [|by apply elem_of_nil in Hsys].
      apply list_elem_of_fmap in Hsys as (pt & -> & _).
      split_and!; [done|done|]. by intros e.
    + destruct (_hasContactEvent e0); [|by apply elem_of_nil in Hc].
      apply contactEvents_inv in Hc as (Hp & Hname & Ht).
      split_and!; [by destruct Hname as [->|[-> _]]|by destruct Hname as [->|[-> _]]|].
      intros e He. unfold firedOn in He.
      assert (e = e0) as ->
        by (destruct Ht as [[Ht _]|[Ht _]]; rewrite Ht in He; by simplify_eq).
      exists e1. split_and!; [by unfold firedAbout; rewrite Hp| | |].
      * intros _. destruct (_hasContactEvent e1);
          rewrite ?store_frameCollisions_elem; naive_solver.
      * intros Hstart. destruct Hname as [Hn|[_ Hnew]]; [congruence|].
        by apply (store_new prev) in Hnew.
      * intros Henter. destruct Hname as [Hn|[Hn _]]; congruence.
    + destruct (_hasContactEvent e1); [|by apply elem_of_nil in Hc].
      apply contactEvents_inv in Hc as (Hp & Hname & Ht).
      split_and!; [by destruct Hname as [->|[-> _]]|by destruct Hname as [->|[-> _]]|].
      intros e He. unfold firedOn in He.
      assert (e = e1) as ->
        by (destruct Ht as [[Ht _]|[Ht _]]; rewrite Ht in He; by simplify_eq).
      exists e0. split_and!; [by unfold firedAbout; rewrite Hp| | |].
      * intros _. lazy iota. rewrite store_frameCollisions_elem. naive_solver.
      * intros Hstart. destruct Hname as [Hn|[_ Hnew]]; [congruence|].
        apply (store_new prev) in Hnew; [done|].
        destruct (_hasContactEvent e0); [by apply extends_store|done].
      * intros Henter. destruct Hname as [Hn|[Hn _]]; congruence.
Qed.

Lemma loop_startSound prev manifolds this ev :
  extends prev this →
  ev ∈ firedOf (forEach manifolds checkManifold this) →
  startSound prev (frameCollisions (stateOf (forEach manifolds checkManifold this))) ev.
Proof.
  revert this. induction manifolds as [|m ms IH]; intros this Hext; simpl.
  - by intros ?%elem_of_nil.
  - rewrite bind_fired, bind_state. intros [Hev|Hev]%elem_of_app.
    + apply (startSound_mono prev (frameCollisions (stateOf (checkManifold m this))));
        [|by apply checkManifold_startSound].
      apply (loop_storing
               (frameExtends (frameCollisions (stateOf (checkManifold m this)))));
        [intros ent oth s; apply frameExtends_store|by intros guid o].
    + apply IH; [|done].
      by apply (checkManifold_storing (extends prev));
        [intros ent oth s; apply extends_store|].
Qed.

(** X6. A start event is about a contact of this check.  An event of an entity
    in the loop of a check is about a second entity; for 'contact' and
    'collisionstart' the pair is in the frame map after the check, for
    'collisionstart' it was not recorded before the check, and for
    'triggerenter' one of its two directions was not. *)
Theorem start_events_are_for_new_contacts manifolds this ev e :
  ev ∈ firedOf (_checkForCollisions manifolds this) →
  firedOn ev = Some e →
  name ev = contact ∨ name ev = collisionstart ∨ name ev = triggerenter →
  ∃ o, firedAbout ev = Some o ∧
    (name ev = contact ∨ name ev = collisionstart →
     o ∈ othersAt (frameCollisions (stateOf (_checkForCollisions manifolds this)))
                  (getGuid e)) ∧
    (name ev = collisionstart → o ∉ othersAt (collisions this) (getGuid e)) ∧
    (name ev = triggerenter →
     o ∉ othersAt (collisions this) (getGuid e) ∨
     e ∉ othersAt (collisions this) (getGuid o)).
Proof.
  intros [Hev|(g & c & _ & o & _ & _ & Hev)]%check_fired Hon Hname.
  - rewrite check_frameCollisions. unfold afterLoop in *.
    apply (loop_startSound (collisions this)) in Hev as (_ & _ & Hsound);
      [|by intros guid o].
    by apply Hsound.
  - apply leaveEvents_target in Hev as ([Hn|Hn] & _); rewrite Hn in Hname;
      by destruct Hname as [?|[?|?]].
Qed.

(** X7. An end event is about a contact that has gone.  It is fired for a
    contact that was recorded before the check and is absent from the frame
    map: 'collisionend' on the entity of the record when neither entity is a
    trigger, 'triggerleave' when the entity of the record is one, on its
    collision component and on the rigidbody of the other entity. *)
Theorem end_events_are_for_vanished_contacts manifolds this ev :
  keyed (collisions this) →
  ev ∈ firedOf (_checkForCollisions manifolds this) →
  name ev = collisionend ∨ name ev = triggerleave →
  ∃ e o,
    o ∈ othersAt (collisions this) (getGuid e) ∧
    (o ∉ othersAt (frameCollisions (stateOf (_checkForCollisions manifolds this)))
                  (getGuid e)) ∧
    (o ∉ othersAt (collisions (stateOf (_checkForCollisions manifolds this)))
                  (getGuid e)) ∧
    ((name ev = collisionend ∧ trigger e = false ∧ trigger o = false ∧
      firedOn ev = Some e ∧ payload ev = EntityArg o) ∨
     (name ev = triggerleave ∧ trigger e = true ∧
      ((target ev = OnCollision e ∧ payload ev = EntityArg o) ∨
       (target ev = OnRigidbody o ∧ payload ev = EntityArg e)))).
Proof.
  intros Hkeyed [Hev|(g & c & Hc & o & Ho & Hgone & Hev)]%check_fired Hname.
  - destruct (loopInv_afterLoop manifolds this) as (_ & _ & _ & Hok).
    destruct (Hok ev Hev) as (? & ? & _). by destruct Hname.
  - destruct (loopInv_afterLoop manifolds this) as (Hall & _ & Hkey & _).
    assert (getGuid (entity c) = g) as Hg by (by apply (Hkey Hkeyed)).
    apply goneThisFrame_othersAt in Hgone.
    assert (o ∈ othersAt (collisions this) g) as Hprev.
    { destruct (Hall g o) as [Hin _]. unfold othersAt at 1 in Hin. rewrite Hc in Hin.
      by destruct (Hin Ho). }
    exists (entity c), o. rewrite Hg, check_frameCollisions, check_collisions_elem.
    split_and!; [done|done|tauto|].
    revert Hev. unfold RigidBody.leaveEvents, firedOn.
    destruct (trigger (entity c)), (trigger o), (collision (entity c)),
      (rigidbody (entity c)), (rigidbody o); simpl;
      rewrite ?elem_of_cons, ?elem_of_nil; naive_solver.
Qed.


(** *** The contacts that a check tracks *)

(** The manifold makes the check store [o] for the guid [guid]: it has
    contact points, joins an entity of that guid to [o], and a callback asks
    for the pair.  Between solid bodies that is a contact callback of the
    entity; with a no-response body it is a trigger callback of the
    collision component of the entity or of the rigidbody of [o]. *)
Definition tracks (m : btPersistentManifold (num:=num)) (guid : string) (o : Entity)
  : Prop :=
  ∃ e0 e1,
    manifoldEntities m = Some (e0, e1) ∧ contactPoints m ≠ [] ∧
    if isTriggerManifold NORESPONSE m then
      (getGuid e0 = guid ∧ o = e1 ∧
       (listensToTrigger (collision e0) = true ∨
        listensToTrigger (rigidbody e1) = true)) ∨
      (getGuid e1 = guid ∧ o = e0 ∧
       (listensToTrigger (collision e1) = true ∨
        listensToTrigger (rigidbody e0) = true))
    else
      (getGuid e0 = guid ∧ o = e1 ∧ _hasContactEvent e0 = true) ∨
      (getGuid e1 = guid ∧ o = e0 ∧ _hasContactEvent e1 = true).

(** The frame map holds what it held in [frame], and pairs of [e0] and
    [e1] that a trigger callback asks for. *)
Definition grownBy (frame : gmap string CollisionRecord) (e0 e1 : Entity)
    (this : System) (fired : list Fired) : Prop :=
  ∀ guid o, o ∈ othersAt (frameCollisions this) guid →
    o ∈ othersAt frame guid ∨
    (getGuid e0 = guid ∧ o = e1 ∧
     (listensToTrigger (collision e0) = true ∨ listensToTrigger (rigidbody e1) = true)) ∨
    (getGuid e1 = guid ∧ o = e0 ∧
     (listensToTrigger (collision e1) = true ∨ listensToTrigger (rigidbody e0) = true)).

Ltac grownBy_store :=
  let Hinv := fresh "Hinv" in
  let guid := fresh "guid" in
  let o := fresh "o" in
  intros ? ? Hinv guid o; rewrite store_frameCollisions_elem;
  intros [?|[-> ->]]; [by apply Hinv|]; right; naive_solver.

Lemma triggerBranch_grownBy e0 e1 flags0 flags1 this :
  grownBy (frameCollisions this) e0 e1
          (stateOf (triggerBranch e0 e1 flags0 flags1 this)) [].
Proof.
  set (frame := frameCollisions this).
  assert (hoare (grownBy frame e0 e1) (triggerBranch e0 e1 flags0 flags1)
            (λ _, grownBy frame e0 e1)) as Hh.
  { unfold RigidBody.triggerBranch.
    apply (hoare_bind _ _ _ (λ _, grownBy frame e0 e1)).
    { destruct (listensToTrigger (collision e0)) eqn:Hl; [|by apply hoare_ret].
      apply (hoare_store (grownBy frame e0 e1) (λ _, True)).
      - intros s f Hs. split; [|done]. revert s f Hs. grownBy_store.
      - intros nc _. repeat first [hoare_struct (grownBy frame e0 e1)
                                  |apply hoare_fire; intros ? ? ?; assumption]. }
    intros nc1. apply (hoare_bind _ _ _ (λ _, grownBy frame e0 e1)).
    { destruct (listensToTrigger (collision e1)) eqn:Hl; [|by apply hoare_ret].
      apply (hoare_store (grownBy frame e0 e1) (λ _, True)).
      - intros s f Hs. split; [|done]. revert s f Hs. grownBy_store.
      - intros nc _. repeat first [hoare_struct (grownBy frame e0 e1)
                                  |apply hoare_fire; intros ? ? ?; assumption]. }
    intros nc2. apply (hoare_bind _ _ _ (λ _, grownBy frame e0 e1)).
    { destruct (listensToTrigger (rigidbody e0)) eqn:Hl; [|by apply hoare_ret].
      apply (hoare_bind _ _ _ (λ _, grownBy frame e0 e1)).
      - destruct (negb nc2); [|by apply hoare_ret].
        apply hoare_store_last. grownBy_store.
      - intros nc. repeat first [hoare_struct (grownBy frame e0 e1)
                                |apply hoare_fire; intros ? ? ?; assumption]. }
    intros nc3.
    destruct (listensToTrigger (rigidbody e1)) eqn:Hl; [|by apply hoare_ret].
    apply (hoare_bind _ _ _ (λ _, grownBy frame e0 e1)).
    - destruct (negb nc3); [|by apply hoare_ret].
      apply hoare_store_last. grownBy_store.
    - intros nc. repeat first [hoare_struct (grownBy frame e0 e1)
                              |apply hoare_fire; intros ? ? ?; assumption]. }
  assert (grownBy frame e0 e1 this []) as Hstart by (intros guid o; by left).
  pose proof (Hh this [] Hstart) as Hend. intros guid o Ho.
  by apply Hend.
Qed.

Lemma checkManifold_tracks m this guid o :
  o ∈ othersAt (frameCollisions (stateOf (checkManifold m this))) guid →
  o ∈ othersAt (frameCollisions this) guid ∨ tracks m guid o.
Proof.
  unfold RigidBody.checkManifold, tracks, manifoldEntities, isTriggerManifold,
    getNumContacts.
  destruct (bodyEntity (getBody0 m)) as [e0|]; [|by left].
  destruct (bodyEntity (getBody1 m)) as [e1|]; [|by left].
  destruct (contactPoints m) as [|pt pts] eqn:Hpts; [by left|].
  cbn [length Nat.ltb Nat.leb].
  destruct (noResponse _ _ || noResponse _ _).
  - intros Ho. apply triggerBranch_grownBy in Ho as [?|Ho]; [by left|right].
    exists e0, e1. by split_and!.
  - rewrite contactBranch_state. intros Ho.
    assert (o ∈ othersAt (frameCollisions this) guid ∨
            (getGuid e0 = guid ∧ o = e1 ∧ _hasContactEvent e0 = true) ∨
            (getGuid e1 = guid ∧ o = e0 ∧ _hasContactEvent e1 = true)) as [?|Hnew].
    { revert Ho. destruct (_hasContactEvent e0), (_hasContactEvent e1);
        rewrite ?store_frameCollisions_elem; naive_solver. }
    + by left.
    + right. exists e0, e1. by split_and!.
Qed.

Lemma checkManifold_stores m this guid o :
  isTriggerManifold NORESPONSE m = false →
  tracks m guid o →
  o ∈ othersAt (frameCollisions (stateOf (checkManifold m this))) guid.
Proof.
  intros Hsolid (e0 & e1 & Hents & Hpts & Hwant). rewrite Hsolid in Hwant.
  revert Hents Hsolid.
  unfold RigidBody.checkManifold, manifoldEntities, isTriggerManifold, getNumContacts.
  destruct (bodyEntity (getBody0 m)); [|done].
  destruct (bodyEntity (getBody1 m)); [|done].
  intros [= -> ->] ->.
  destruct (contactPoints m) as [|pt pts]; [done|]. cbn [length Nat.ltb Nat.leb].
  rewrite contactBranch_state.
  destruct Hwant as [(<- & -> & ->)|(<- & -> & ->)].
  - destruct (_hasContactEvent e1); rewrite ?store_frameCollisions_elem; naive_solver.
  - rewrite store_frameCollisions_elem. naive_solver.
Qed.

Lemma loop_tracks manifolds this guid o :
  o ∈ othersAt (frameCollisions (stateOf (forEach manifolds checkManifold this))) guid →
  o ∈ othersAt (frameCollisions this) guid ∨ ∃ m, m ∈ manifolds ∧ tracks m guid o.
Proof.
  revert this. induction manifolds as [|m ms IH]; intros this; simpl; [by left|].
  rewrite bind_state. intros [Ho|(m' & Hm' & Ht)]%IH.
  - apply checkManifold_tracks in Ho as [?|?]; [by left|right].
    exists m. split; [by left|done].
  - right. exists m'. split; [by right|done].
Qed.

Lemma loop_stores manifolds m this guid o :
  m ∈ manifolds → isTriggerManifold NORESPONSE m = false → tracks m guid o →
  o ∈ othersAt (frameCollisions (stateOf (forEach manifolds checkManifold this))) guid.
Proof.
  intros Hm Hsolid Ht. revert this.
  induction manifolds as [|m' ms IH]; intros this; [by apply elem_of_nil in Hm|].
  simpl. rewrite bind_state. apply elem_of_cons in Hm as [->|Hm]; [|by apply IH].
  apply (loop_storing (frameExtends (frameCollisions (stateOf (checkManifold m' this)))));
    [intros ent oth s; apply frameExtends_store|by intros g x|].
  by apply checkManifold_stores.
Qed.

(** X8. A contact is tracked on behalf of a callback.  Every contact recorded
    after a check comes from a manifold of the check that has contact points
    and a callback asking for the pair; and a manifold between solid bodies
    with such a callback has its pair recorded. *)
Theorem tracked_contacts_have_listeners manifolds this :
  (∀ guid o,
     o ∈ othersAt (collisions (stateOf (_checkForCollisions manifolds this))) guid →
     ∃ m, m ∈ manifolds ∧ tracks m guid o) ∧
  (∀ m guid o,
     m ∈ manifolds → isTriggerManifold NORESPONSE m = false → tracks m guid o →
     o ∈ othersAt (collisions (stateOf (_checkForCollisions manifolds this))) guid).
Proof.
  pose proof (check_collisions_frame manifolds this) as Hsame.
  split.
  - intros guid o Ho. apply Hsame in Ho. rewrite check_frameCollisions in Ho.
    unfold afterLoop, afterReset in Ho. apply loop_tracks in Ho as [Ho|?]; [|done].
    simpl in Ho. unfold othersAt in Ho. rewrite lookup_empty in Ho.
    by apply elem_of_nil in Ho.
  - intros m guid o Hm Hsolid Ht. apply Hsame. rewrite check_frameCollisions.
    by apply loop_stores with m.
Qed.

(** *** A second check over the same manifolds *)

Lemma store_recorded ent oth this :
  oth ∈ othersAt (collisions this) (getGuid ent) →
  collisions (stateOf (_storeCollision ent oth this)) = collisions this ∧
  valueOf (_storeCollision ent oth this) = false.
Proof.
  unfold othersAt, stateOf, valueOf, RigidBody._storeCollision. simpl.
  destruct (collisions this !! getGuid ent) as [c|] eqn:Hc;
    [|by intros ?%elem_of_nil].
  simpl. intros Hin. rewrite bool_decide_eq_false_2 by auto.
  split; [|done]. by apply insert_id.
Qed.

Lemma store_frame_only ent oth this this' :
  frameCollisions this = frameCollisions this' →
  frameCollisions (stateOf (_storeCollision ent oth this)) =
  frameCollisions (stateOf (_storeCollision ent oth this')).
Proof. unfold stateOf, RigidBody._storeCollision. simpl. by intros ->. Qed.

(** The 'contact' events of a log. *)
Definition contactOnly (fired : list Fired) : list Fired :=
  filter (λ ev, name ev = contact) fired.

Lemma contactOnly_app fired more :
  contactOnly (fired ++ more) = contactOnly fired ++ contactOnly more.
Proof. apply filter_app. Qed.

Lemma contactOnly_contactEvents ent oth cs nc :
  contactOnly (contactEvents ent oth cs nc) = contactEvents ent oth cs false.
Proof.
  unfold contactOnly, contactEvents.
  by destruct (collision ent), (rigidbody ent), nc.
Qed.

Lemma contactOnly_systemContact e0 e1 pts :
  contactOnly (map (systemContact e0 e1) pts) = map (systemContact e0 e1) pts.
Proof. apply filter_all. by intros ev (pt & -> & _)%list_elem_of_fmap. Qed.

Lemma contactOnly_if (c : bool) fired :
  contactOnly (if c then fired else []) = if c then contactOnly fired else [].
Proof. by destruct c. Qed.

(** One manifold between solid bodies, visited from a system in which the
    pairs that it tracks are recorded already, and from another system with
    the same frame map and the same callbacks. *)
Lemma checkManifold_again m this this' :
  isTriggerManifold NORESPONSE m = false →
  frameCollisions this = frameCollisions this' →
  systemHandlers this = systemHandlers this' →
  (∀ guid o, tracks m guid o → o ∈ othersAt (collisions this') guid) →
  frameCollisions (stateOf (checkManifold m this)) =
    frameCollisions (stateOf (checkManifold m this')) ∧
  collisions (stateOf (checkManifold m this')) = collisions this' ∧
  firedOf (checkManifold m this') = contactOnly (firedOf (checkManifold m this)).
Proof.
  unfold tracks, RigidBody.checkManifold, manifoldEntities, isTriggerManifold,
    getNumContacts.
  destruct (bodyEntity (getBody0 m)) as [e0|]; [|done].
  destruct (bodyEntity (getBody1 m)) as [e1|]; [|done].
  destruct (contactPoints m) as [|pt pts] eqn:Hpts; [done|].
  cbn [length Nat.ltb Nat.leb]. intros -> Hframe Hhandlers Htracked.
  rewrite !contactBranch_state, !contactBranch_fired, !contactOnly_app,
    !contactOnly_if, !contactOnly_contactEvents, contactOnly_systemContact,
    Hhandlers.
  assert (_hasContactEvent e0 = true →
          collisions (stateOf (_storeCollision e0 e1 this')) = collisions this' ∧
          valueOf (_storeCollision e0 e1 this') = false) as H0.
  { intros He. apply store_recorded, Htracked. exists e0, e1.
    split_and!; [done|done|]. by left. }
  assert (∀ s, collisions s = collisions this' → _hasContactEvent e1 = true →
               collisions (stateOf (_storeCollision e1 e0 s)) = collisions this' ∧
               valueOf (_storeCollision e1 e0 s) = false) as H1.
  { intros s Hs He. rewrite <- Hs. apply store_recorded. rewrite Hs.
    apply Htracked. exists e0, e1. split_and!; [done|done|]. by right. }
  destruct (_hasContactEvent e0) eqn:He0, (_hasContactEvent e1) eqn:He1.
  - destruct (H0 eq_refl) as [Hc0 Hv0].
    destruct (H1 (stateOf (_storeCollision e0 e1 this')) Hc0 eq_refl) as [Hc1 Hv1].
    split_and!; [by do 2 apply store_frame_only|done|by rewrite Hv0, Hv1].
  - destruct (H0 eq_refl) as [Hc0 Hv0].
    split_and!; [by apply store_frame_only|done|by rewrite Hv0].
  - destruct (H1 this' eq_refl eq_refl) as [Hc1 Hv1].
    split_and!; [by apply store_frame_only|done|by rewrite Hv1].
  - done.
Qed.

Lemma loop_again manifolds this this' :
  (∀ m, m ∈ manifolds → isTriggerManifold NORESPONSE m = false) →
  frameCollisions this = frameCollisions this' →
  systemHandlers this = systemHandlers this' →
  (∀ m guid o, m ∈ manifolds → tracks m guid o →
               o ∈ othersAt (collisions this') guid) →
  frameCollisions (stateOf (forEach manifolds checkManifold this)) =
    frameCollisions (stateOf (forEach manifolds checkManifold this')) ∧
  collisions (stateOf (forEach manifolds checkManifold this')) = collisions this' ∧
  firedOf (forEach manifolds checkManifold this') =
    contactOnly (firedOf (forEach manifolds checkManifold this)).
Proof.
  revert this this'. induction manifolds as [|m ms IH];
    intros this this' Hsolid Hframe Hhandlers Htracked; simpl; [done|].
  rewrite !bind_state, !bind_fired, contactOnly_app.
  destruct (checkManifold_again m this this') as (Hf & Hc & He);
    [apply Hsolid; by left|done|done|intros guid o; apply Htracked; by left|].
  destruct (IH (stateOf (checkManifold m this)) (stateOf (checkManifold m this')))
    as (Hf' & Hc' & He').
  - intros m' Hm'. apply Hsolid. by right.
  - done.
  - rewrite !(checkManifold_storing (λ s, systemHandlers s = systemHandlers _) m _
                (λ ent oth s Hs, Hs) eq_refl). done.
  - intros m' guid o Hm' Ht. rewrite Hc. apply (Htracked m'); [by right|done].
  - split_and!; [done|congruence|by rewrite He, He'].
Qed.

Lemma System_eq (this this' : System) :
  collisions this = collisions this' →
  frameCollisions this = frameCollisions this' →
  systemHandlers this = systemHandlers this' →
  this = this'.
Proof. destruct this, this'. simpl. by intros -> -> ->. Qed.

(** Every contact of the record is in the frame map: the loop of
    [_cleanOldCollisions] leaves the record as it is. *)
Lemma cleaned_all frame guid c :
  others c ≠ [] →
  (∀ o, o ∈ others c → o ∈ othersAt frame guid) →
  cleaned frame guid c = Some c.
Proof.
  intros Hne Hall. unfold cleaned.
  assert (kept (frame !! guid) (others c) = others c) as ->.
  { apply filter_all. intros o Ho. apply not_true_iff_false.
    rewrite goneThisFrame_othersAt. intros Hgone. by apply Hgone, Hall. }
  rewrite bool_decide_eq_false_2; [by destruct c|].
  by intros ?%nil_length_inv.
Qed.

(** X9. A steady state.  When no manifold has a no-response body, a second
    check over the same manifolds leaves the system as the first check left
    it, and fires the 'contact' events of the first check again, and nothing
    else. *)
Theorem steady_check_repeats_contact manifolds this :
  (∀ m, m ∈ manifolds → isTriggerManifold NORESPONSE m = false) →
  stateOf (_checkForCollisions manifolds
             (stateOf (_checkForCollisions manifolds this))) =
    stateOf (_checkForCollisions manifolds this) ∧
  firedOf (_checkForCollisions manifolds
             (stateOf (_checkForCollisions manifolds this))) =
    contactOnly (firedOf (_checkForCollisions manifolds this)).
Proof.
  intros Hsolid.
  set (first := stateOf (_checkForCollisions manifolds this)).
  destruct (loop_again manifolds (afterReset this) (afterReset first))
    as (Hframe & Hcollisions & Hfired); [done|done| | |].
  { simpl. unfold first. by rewrite check_handlers. }
  { intros m guid o Hm Ht. simpl. unfold first. apply check_collisions_frame.
    rewrite check_frameCollisions. unfold afterLoop.
    apply loop_stores with m; [done|by apply Hsolid|done]. }
  fold (afterLoop manifolds this) in Hframe, Hfired.
  fold (afterLoop manifolds first) in Hframe, Hcollisions, Hfired.
  simpl in Hcollisions.
  assert (frameCollisions (stateOf (afterLoop manifolds first)) =
          frameCollisions first) as Hframe'.
  { rewrite <- Hframe. unfold first. by rewrite check_frameCollisions. }
  destruct (cleanOld_spec (stateOf (afterLoop manifolds first)))
    as (Hf2 & Hh2 & Hc2 & He2).
  destruct (check_phases manifolds first) as [Hstate2 Hfired2].
  split.
  - rewrite Hstate2. apply System_eq.
    + apply map_eq. intros g. rewrite Hc2, Hcollisions, Hframe'.
      destruct (collisions first !! g) as [c|] eqn:Hc; [|done]. simpl.
      apply cleaned_all.
      * by apply (check_collisions_nonempty manifolds this g).
      * intros o Ho. apply check_collisions_frame. unfold othersAt.
        fold first. by rewrite Hc.
    + by rewrite Hf2.
    + rewrite Hh2. unfold afterLoop.
      by rewrite (loop_storing (λ s, systemHandlers s = systemHandlers first)
                    manifolds (afterReset first) (λ ent oth s Hs, Hs) eq_refl).
  - rewrite Hfired2, Hfired.
    destruct (check_phases manifolds this) as [_ ->]. rewrite contactOnly_app.
    f_equal.
    transitivity (@nil Fired); [|symmetry].
    + apply elem_of_nil_inv. intros ev (g & c & Hc & o & Ho & Hgone & _)%He2.
      rewrite Hcollisions in Hc. rewrite Hframe' in Hgone.
      apply goneThisFrame_othersAt in Hgone. apply Hgone.
      apply check_collisions_frame. unfold othersAt. fold first. by rewrite Hc.
    + apply filter_none. intros ev Hev Hname.
      destruct (cleanOld_spec (stateOf (afterLoop manifolds this)))
        as (_ & _ & _ & He1).
      apply He1 in Hev as (g & c & _ & o & _ & _ & Hev).
      apply leaveEvents_target in Hev as ([Hn|Hn] & _); congruence.
Qed.

(** *** The backward loop of [_cleanOldCollisions] *)

Lemma cleanOthers_fired i frameCollision ent os :
  (i ≤ length os)%nat →
  (cleanOthers i frameCollision ent os).2 =
  flat_map (leaveEvents ent)
           (reverse (filter (λ o, goneThisFrame frameCollision o = true) (take i os))).
Proof.
  revert os. induction i as [|i IH]; intros os Hi; [done|].
  cbn [RigidBody.cleanOthers].
  - destruct (os !! i) as [oth|] eqn:Hoth;
      [|apply lookup_ge_None in Hoth; lia].
    rewrite (take_S_r _ _ _ Hoth), filter_app, reverse_app.
    destruct (goneThisFrame frameCollision oth) eqn:Hgone.
    + rewrite filter_cons_True, filter_nil by done. simpl.
      specialize (IH (delete i os)).
      destruct (cleanOthers i frameCollision ent (delete i os)) as [os' fired].
      simpl in *. rewrite IH by (rewrite length_delete by eauto; lia).
      rewrite delete_take_drop, take_app_length'; [done|]. rewrite length_take. lia.
    + rewrite filter_cons_False, filter_nil by (by rewrite Hgone). simpl.
      apply IH. lia.
Qed.

(** X10. The loop over the [others] array of a record runs from its last index
    down, and splices the array while it runs.  It removes the contacts that
    are absent from the frame map, all of them and nothing else, and leaves
    the other contacts in their order; it fires the events of the removed
    contacts once each, those of the contact recorded last first.  The frame
    map and the other records are left alone. *)
Theorem backward_loop_removes_the_vanished guid this c :
  collisions this !! guid = Some c →
  othersAt (collisions (stateOf (cleanGuid guid this))) guid =
    filter (λ o, o ∈ othersAt (frameCollisions this) guid) (others c) ∧
  firedOf (cleanGuid guid this) =
    flat_map (leaveEvents (entity c))
      (reverse (filter (λ o, o ∉ othersAt (frameCollisions this) guid) (others c))) ∧
  frameCollisions (stateOf (cleanGuid guid this)) = frameCollisions this ∧
  (∀ g, g ≠ guid →
        collisions (stateOf (cleanGuid guid this)) !! g = collisions this !! g).
Proof.
  intros Hc.
  destruct (cleanGuid_spec guid this) as (Hframe & _ & Hcollisions & _).
  split_and!; [| |done|].
  - unfold othersAt at 1. rewrite Hcollisions, decide_True, Hc by done. simpl.
    unfold cleaned, kept.
    assert (filter (λ o, goneThisFrame (frameCollisions this !! guid) o = false)
                   (others c) =
            filter (λ o, o ∈ othersAt (frameCollisions this) guid) (others c)) as ->.
    { apply list_filter_iff. intros o.
      rewrite <- not_true_iff_false, goneThisFrame_othersAt.
      split; [apply dec_stable|by intros ? ?]. }
    case_bool_decide as Hlen; [|done]. by apply nil_length_inv in Hlen as ->.
  - unfold RigidBody.cleanGuid, firedOf. rewrite Hc.
    pose proof (cleanOthers_fired (length (others c)) (frameCollisions this !! guid)
                  (entity c) (others c) (le_n _)) as Hfired.
    destruct (cleanOthers _ _ _ _) as [os fired]. simpl in *.
    rewrite Hfired, firstn_all. do 2 f_equal.
    apply list_filter_iff. intros o. by rewrite goneThisFrame_othersAt.
  - intros g Hg. by rewrite Hcollisions, decide_False.
Qed.

End system.

(** *** The statements at work on the small scene *)

Import Scene.

Ltac compute_decision := apply (bool_decide_unpack _); vm_compute; exact I.

Lemma remaining_records_nonempty_witness :
  ∃ c, collisions resting !! "crate" = Some c ∧ others c ≠ [].
Proof.
  eexists. split; [vm_compute; reflexivity|].
  apply (proj1 (remaining_records_nonempty (num:=Z) NORESPONSE
                  [crateOnFloor; playerInZone] fresh "crate" _)).
  vm_compute. reflexivity.
Defined.

Lemma vanished_contact_ends_witness :
  (floor ∉ othersAt (collisions (stateOf (_checkForCollisions (num:=Z)
                                            NORESPONSE [] resting))) "crate") ∧
  {| target := OnRigidbody crate; name := collisionend;
     payload := EntityArg (num:=Z) floor |}
    ∈ firedOf (_checkForCollisions NORESPONSE [] resting).
Proof.
  destruct (vanished_contact_ends (num:=Z) NORESPONSE [] resting "crate"
              {| others := [floor]; entity := crate |} floor)
    as [Hgone Hend].
  - vm_compute. reflexivity.
  - compute_decision.
  - compute_decision.
  - split; [exact Hgone|]. apply Hend; [reflexivity|reflexivity|]. by eexists.
Defined.

Lemma new_contact_starts_witness :
  notified (firedOf (_checkForCollisions (num:=Z) NORESPONSE [crateOnFloor] fresh))
           collisionstart "crate" floor.
Proof.
  apply (new_contact_starts (num:=Z) NORESPONSE [crateOnFloor] fresh "crate" floor).
  - intros m ->%list_elem_of_singleton _. vm_compute. reflexivity.
  - compute_decision.
  - compute_decision.
Defined.

Lemma steady_contact_only_contact_witness :
  notified (firedOf (_checkForCollisions (num:=Z) NORESPONSE [crateOnFloor] resting))
           contact "crate" floor.
Proof.
  apply (steady_contact_only_contact (num:=Z) NORESPONSE [crateOnFloor] resting
           "crate" floor).
  - apply keyed_check. by intros guid c.
  - intros m ->%list_elem_of_singleton _. vm_compute. reflexivity.
  - compute_decision.
  - compute_decision.
Defined.



(** C1, as the claim words it, for every pair.  The player enters the zone,
    a trigger volume: the pair is new, [_storeCollision] returns [true], and
    the events are 'triggerenter', with no 'collisionstart' among them. *)
Lemma new_trigger_pair_gets_no_collisionstart :
  player ∈ othersAt (frameCollisions
             (stateOf (_checkForCollisions (num:=Z) NORESPONSE [playerInZone] fresh)))
           "zone" ∧
  (player ∉ othersAt (collisions fresh) "zone") ∧
  valueOf (_storeCollision (num:=Z) zone player fresh) = true ∧
  Forall (λ ev, name ev = triggerenter)
         (firedOf (_checkForCollisions (num:=Z) NORESPONSE [playerInZone] fresh)) ∧
  ¬ notified (firedOf (_checkForCollisions (num:=Z) NORESPONSE [playerInZone] fresh))
             collisionstart "zone" player.
Proof.
  assert (Forall (λ ev, name ev = triggerenter)
            (firedOf (_checkForCollisions (num:=Z) NORESPONSE [playerInZone] fresh)))
    as Hall by compute_decision.
  split_and!; [compute_decision|compute_decision|by vm_compute|exact Hall|].
  intros (ev & Hev & Hname)%notified_fired.
  rewrite Forall_forall in Hall. apply Hall in Hev. congruence.
Qed.

(** C2, as the claim words it, for every pair.  The crate leaves the zone
    while the player stays: the contact of the zone with the crate is
    removed, and the events are 'triggerleave', with no 'collisionend' among
    them. *)
Lemma vanished_trigger_pair_gets_no_collisionend :
  crate ∈ othersAt (collisions crowded) "zone" ∧
  (crate ∉ othersAt (frameCollisions
              (stateOf (_checkForCollisions (num:=Z) NORESPONSE [playerInZone] crowded)))
            "zone") ∧
  (crate ∉ othersAt (collisions
              (stateOf (_checkForCollisions (num:=Z) NORESPONSE [playerInZone] crowded)))
            "zone") ∧
  Forall (λ ev, name ev = triggerleave)
         (firedOf (_checkForCollisions (num:=Z) NORESPONSE [playerInZone] crowded)) ∧
  {| target := OnCollision zone; name := collisionend; payload := EntityArg crate |}
    ∉ firedOf (_checkForCollisions (num:=Z) NORESPONSE [playerInZone] crowded).
Proof.
  assert (Forall (λ ev, name ev = triggerleave)
            (firedOf (_checkForCollisions (num:=Z) NORESPONSE [playerInZone] crowded)))
    as Hall by compute_decision.
  split_and!;
    [compute_decision|compute_decision|compute_decision|exact Hall|].
  intros Hev. rewrite Forall_forall in Hall. by apply Hall in Hev.
Qed.

(** C3, as the claim words it, for every pair.  The player stays in the
    zone: the contact is in both sets, and no 'contact' event is fired. *)
Lemma steady_trigger_pair_gets_no_contact :
  player ∈ othersAt (collisions crowded) "zone" ∧
  player ∈ othersAt (frameCollisions
             (stateOf (_checkForCollisions (num:=Z) NORESPONSE [playerInZone] crowded)))
           "zone" ∧
  Forall (λ ev, name ev = triggerleave)
         (firedOf (_checkForCollisions (num:=Z) NORESPONSE [playerInZone] crowded)) ∧
  ¬ notified (firedOf (_checkForCollisions (num:=Z) NORESPONSE [playerInZone] crowded))
             contact "zone" player.
Proof.
  assert (Forall (λ ev, name ev = triggerleave)
            (firedOf (_checkForCollisions (num:=Z) NORESPONSE [playerInZone] crowded)))
    as Hall by compute_decision.
  split_and!; [compute_decision|compute_decision|exact Hall|].
  intros (ev & Hev & Hname)%notified_fired.
  rewrite Forall_forall in Hall. apply Hall in Hev. congruence.
Qed.


(** C5, as the claim words it: a push onto both records.  The crate
    already rests on the floor; storing the pair again pushes the floor onto
    the frame record only, and the persistent record stays as it is. *)
Lemma store_appends_to_both_fails :
  othersAt (collisions resting) "crate" = [floor] ∧
  othersAt (collisions (stateOf (_storeCollision (num:=Z) crate floor resting)))
           "crate" = [floor] ∧
  othersAt (collisions (stateOf (_storeCollision (num:=Z) crate floor resting)))
           "crate" ≠ othersAt (collisions resting) "crate" ++ [floor] ∧
  othersAt (frameCollisions (stateOf (_storeCollision (num:=Z) crate floor resting)))
           "crate" = othersAt (frameCollisions resting) "crate" ++ [floor] ∧
  valueOf (_storeCollision (num:=Z) crate floor resting) = false.
Proof.
  split_and!; [by vm_compute|by vm_compute| |by vm_compute|by vm_compute].
  vm_compute. intros Heq. discriminate Heq.
Qed.

(** C7, as the claim words it: no failure handling but the feature detection
    and the assertions.  A body of a manifold has no entity; the crate,
    which has contact callbacks, touches it.  The check passes the manifold
    over without a word: nothing is asserted, nothing is recorded and no
    event is fired. *)
Lemma stray_manifold_is_passed_over :
  contactPoints stray ≠ [] ∧
  bodyEntity (getBody1 stray) = None ∧
  _hasContactEvent crate = true ∧
  _checkForCollisions (num:=Z) NORESPONSE [stray] watched = (tt, watched, []).
Proof.
  split_and!; [by vm_compute|reflexivity|reflexivity|by vm_compute].
Qed.

(** *** The further statements at work on the small scene *)

Ltac find_event :=
  vm_compute; repeat first [apply list_elem_of_here|apply list_elem_of_further].

Lemma events_only_where_they_can_be_heard_witness :
  is_Some (rigidbody crate) ∧
  (contact = contact ∧ contact ∈ systemHandlers watched).
Proof.
  split.
  - apply (events_only_where_they_can_be_heard (num:=Z) NORESPONSE [] resting
             {| target := OnRigidbody crate; name := collisionend;
                payload := EntityArg floor |}).
    find_event.
  - apply (events_only_where_they_can_be_heard (num:=Z) NORESPONSE [crateOnFloor]
             watched (systemContact crate floor touch)).
    find_event.
Defined.

Lemma contact_results_list_the_manifold_witness :
  ∃ m e0 e1,
    m ∈ [crateOnFloor] ∧ manifoldEntities m = Some (e0, e1) ∧
    isTriggerManifold NORESPONSE m = false ∧
    ((Some floor = Some e0 ∧ crate = e1 ∧
      [_createReverseContactPointFromAmmo touch] =
        map _createContactPointFromAmmo (contactPoints m)) ∨
     (Some floor = Some e1 ∧ crate = e0 ∧
      [_createReverseContactPointFromAmmo touch] =
        map _createReverseContactPointFromAmmo (contactPoints m))).
Proof.
  apply (contact_results_list_the_manifold (num:=Z) NORESPONSE [crateOnFloor] fresh
           {| target := OnCollision floor; name := contact;
              payload := ContactResultArg
                           (_createContactResult crate
                              [_createReverseContactPointFromAmmo touch]) |}
           (_createContactResult crate [_createReverseContactPointFromAmmo touch])).
  - find_event.
  - reflexivity.
Defined.

Lemma start_events_are_for_new_contacts_witness :
  ∃ o, Some floor = Some o ∧
    (collisionstart = contact ∨ collisionstart = collisionstart →
     o ∈ othersAt (frameCollisions
            (stateOf (_checkForCollisions (num:=Z) NORESPONSE [crateOnFloor] fresh)))
          "crate") ∧
    (collisionstart = collisionstart → o ∉ othersAt (collisions fresh) "crate") ∧
    (collisionstart = triggerenter →
     o ∉ othersAt (collisions fresh) "crate" ∨
     crate ∉ othersAt (collisions fresh) (getGuid o)).
Proof.
  apply (start_events_are_for_new_contacts (num:=Z) NORESPONSE [crateOnFloor] fresh
           {| target := OnRigidbody crate; name := collisionstart;
              payload := ContactResultArg
                           (_createContactResult floor
                              [_createContactPointFromAmmo touch]) |} crate).
  - find_event.
  - reflexivity.
  - right. by left.
Defined.

Lemma end_events_are_for_vanished_contacts_witness :
  ∃ e o,
    o ∈ othersAt (collisions resting) (getGuid e) ∧
    (o ∉ othersAt (frameCollisions
            (stateOf (_checkForCollisions (num:=Z) NORESPONSE [] resting)))
          (getGuid e)) ∧
    (o ∉ othersAt (collisions
            (stateOf (_checkForCollisions (num:=Z) NORESPONSE [] resting)))
          (getGuid e)) ∧
    ((collisionend = collisionend ∧ trigger e = false ∧ trigger o = false ∧
      Some crate = Some e ∧ EntityArg (num:=Z) floor = EntityArg o) ∨
     (collisionend = triggerleave ∧ trigger e = true ∧
      ((OnRigidbody crate = OnCollision e ∧ EntityArg (num:=Z) floor = EntityArg o) ∨
       (OnRigidbody crate = OnRigidbody o ∧ EntityArg (num:=Z) floor = EntityArg e)))).
Proof.
  apply (end_events_are_for_vanished_contacts (num:=Z) NORESPONSE [] resting
           {| target := OnRigidbody crate; name := collisionend;
              payload := EntityArg floor |}).
  - apply keyed_check. by intros guid c.
  - find_event.
  - by left.
Defined.

Lemma steady_check_repeats_contact_witness :
  stateOf (_checkForCollisions (num:=Z) NORESPONSE [crateOnFloor]
             (stateOf (_checkForCollisions NORESPONSE [crateOnFloor] fresh))) =
    stateOf (_checkForCollisions NORESPONSE [crateOnFloor] fresh) ∧
  firedOf (_checkForCollisions (num:=Z) NORESPONSE [crateOnFloor]
             (stateOf (_checkForCollisions NORESPONSE [crateOnFloor] fresh))) =
    contactOnly (firedOf (_checkForCollisions NORESPONSE [crateOnFloor] fresh)).
Proof.
  apply (steady_check_repeats_contact (num:=Z) NORESPONSE [crateOnFloor] fresh).
  intros m ->%list_elem_of_singleton. reflexivity.
Defined.

Lemma backward_loop_removes_the_vanished_witness :
  othersAt (collisions (stateOf (cleanGuid (num:=Z) "zone"
                                   (set_frameCollisions ∅ crowded)))) "zone" = [] ∧
  firedOf (cleanGuid (num:=Z) "zone" (set_frameCollisions ∅ crowded)) =
    leaveEvents zone crate ++ leaveEvents zone player.
Proof.
  destruct (backward_loop_removes_the_vanished (num:=Z) "zone"
              (set_frameCollisions ∅ crowded)
              {| others := [player; crate]; entity := zone |})
    as (Hkept & Hfired & _).
  { vm_compute. reflexivity. }
  split; [by rewrite Hkept|]. rewrite Hfired. vm_compute. reflexivity.
Defined.

End RigidBodyProofs.

Module WorldProofs.
Import RigidBody.

Section world.
Context `{JSNumber num}.
Variables (NORESPONSE ACTIVE_TAG DISABLE_DEACTIVATION : Z).
Local Abbreviation onUpdate := (@onUpdate num _ NORESPONSE).
Local Abbreviation runTicks := (@runTicks num NORESPONSE).
Local Abbreviation _shapeTest := (@_shapeTest num _ ACTIVE_TAG DISABLE_DEACTIVATION).
Local Abbreviation Call := (@Call num).
Local Abbreviation _storeCollision := (@_storeCollision num).

Lemma omap_map_None {A B C} (sel : B → option C) (g : A → B) (l : list A) :
  (∀ v, sel (g v) = None) → omap sel (map g l) = [].
Proof.
  intros Hg. induction l as [|v l IH]; [done|]. simpl. by rewrite Hg.
Qed.

Ltac split_calls := rewrite ?omap_app; cbn [omap list_omap app].

Lemma runTicks_calls ts b :
  stepCalls (runTicks ts b).2 = [] ∧
  manualChecks (runTicks ts b).2 = [] ∧
  length (internalTicks (runTicks ts b).2) = length ts.
Proof.
  revert b. induction ts as [|manifolds ts IH]; intros b; simpl; [done|].
  destruct (IH (stateOf (_checkForCollisions NORESPONSE manifolds b)))
    as (Hs & Hm & Hl).
  destruct (runTicks ts _) as [b' calls]. simpl in *.
  split_and!; [done|done|]. unfold internalTicks in *. simpl. by rewrite Hl.
Qed.

(** C6. A system has the sub-step settings 10 and 1/60 from its
    constructor on, through the loading of the library and every update; an
    update of a system that has a dynamics world returns, and it calls
    [stepSimulation] exactly once, with [dt] and the two settings of the
    system. *)
Theorem step_once_per_update :
  defaultStepping (num:=num) constructor ∧
  (∀ Ammo this, defaultStepping this → defaultStepping (onLibraryLoaded Ammo this).1) ∧
  (∀ dt outcome this,
     is_Some (dynamicsWorld this) →
     ∃ this' calls,
       onUpdate dt outcome this = Some (this', calls) ∧
       stepCalls calls = [(dt, maxSubSteps this, fixedTimeStep this)] ∧
       (defaultStepping this →
        defaultStepping this' ∧
        stepCalls calls = [(dt, nlit 10, ndiv (nlit 1) (nlit 60))]) ∧
       is_Some (dynamicsWorld this')).
Proof.
  split_and!.
  - done.
  - intros [lib|] this Hd; exact Hd.
  - intros dt outcome this [world Hw]. unfold RigidBody.onUpdate. rewrite Hw.
    set (float32 := {| Math.x := _; Math.y := _; Math.z := _ |}).
    set (differs := _ || _ || _).
    set (world1 := if differs then _ else world).
    pose proof (runTicks_calls (ticks outcome) (bookkeeping this)) as (Hticks & _).
    destruct (if tickCallback world1 then _ else _) as [b1 tickCalls] eqn:Hrun.
    assert (stepCalls tickCalls = []) as HtickCalls.
    { destruct (tickCallback world1); [|by simplify_eq].
      by rewrite Hrun in Hticks. }
    eexists _, _. split; [reflexivity|].
    assert (stepCalls
              ([getGravity] ++
               (if differs then [setGravity (gravity this)] else []) ++
               map updateTransform (_triggers this) ++
               map _updateCompound (_compounds this) ++
               map _updateKinematic (_kinematic this) ++
               [stepSimulation dt (maxSubSteps this) (fixedTimeStep this)] ++
               tickCalls ++
               map _updateDynamic (_dynamic this) ++
               from_option (λ r, [manualCheck (firedOf r)]) []
                 (if negb (exposesTickCallback world1)
                  then Some (_checkForCollisions NORESPONSE (manifoldsAfter outcome) b1)
                  else None)) =
            [(dt, maxSubSteps this, fixedTimeStep this)]) as Hcalls.
    { unfold stepCalls in *. split_calls.
      rewrite HtickCalls, !omap_map_None by done.
      by destruct differs, (negb (exposesTickCallback world1)). }
    split_and!; [done| |done].
    intros [Hn Hh]. split; [done|]. by rewrite Hcalls, Hn, Hh.
Qed.

(** The guards of the loading, of the update and of the two tests. *)
Lemma guards_of_the_system :
  (∀ lib this,
     let r := onLibraryLoaded (num:=num) (Some lib) this in
     ∃ w, dynamicsWorld r.1 = Some w ∧
          exposesTickCallback w = has_setInternalTickCallback lib ∧
          tickCallback w = has_setInternalTickCallback lib ∧
          (has_setInternalTickCallback lib = true →
           setInternalTickCallback ∈ r.2 ∧ ∀ msg, Debug_warn msg ∉ r.2) ∧
          (has_setInternalTickCallback lib = false →
           (setInternalTickCallback ∉ r.2) ∧ Debug_warn tickCallbackWarning ∈ r.2)) ∧
  (∀ dt outcome this w,
     dynamicsWorld this = Some w →
     ∃ this' calls w',
       onUpdate dt outcome this = Some (this', calls) ∧
       dynamicsWorld this' = Some w' ∧
       exposesTickCallback w' = exposesTickCallback w ∧
       tickCallback w' = tickCallback w ∧
       (exposesTickCallback w = true → manualChecks calls = []) ∧
       (exposesTickCallback w = false →
        ∃ before f,
          calls = before ++ [manualCheck f] ∧
          stepSimulation dt (maxSubSteps this) (fixedTimeStep this) ∈ before ∧
          manualChecks before = []) ∧
       (tickCallback w = true →
        length (internalTicks calls) = length (ticks outcome)) ∧
       (tickCallback w = false → internalTicks calls = [])) ∧
  (∀ lib start end_ hits,
     ∃ rest,
       (raycastAll (num:=num) lib start end_ hits).1 =
         Debug_assert (has_AllHitsRayResultCallback lib) raycastAllMessage :: rest ∧
       (new_AllHitsRayResultCallback ∈ rest ↔ has_AllHitsRayResultCallback lib = true) ∧
       (is_Some (raycastAll lib start end_ hits).2 ↔
        has_AllHitsRayResultCallback lib = true)) ∧
  (∀ lib body shape position rotation contacts,
     ∃ rest,
       (_shapeTest lib body shape position rotation contacts).1.2 =
         Debug_assert (has_ConcreteContactResultCallback lib) shapeTestMessage :: rest ∧
       (new_ConcreteContactResultCallback ∈ rest ↔
        has_ConcreteContactResultCallback lib = true) ∧
       (is_Some (_shapeTest lib body shape position rotation contacts).2 ↔
        has_ConcreteContactResultCallback lib = true)).
Proof.
  split_and!.
  - intros lib this r. eexists. split; [reflexivity|]. simpl.
    split_and!; [done|done| |]; intros ->; simpl; set_solver.
  - intros dt outcome this w Hw. unfold RigidBody.onUpdate. rewrite Hw.
    set (float32 := {| Math.x := _; Math.y := _; Math.z := _ |}).
    set (differs := _ || _ || _).
    set (world1 := if differs then _ else w).
    assert (exposesTickCallback world1 = exposesTickCallback w ∧
            tickCallback world1 = tickCallback w) as [Hexp Htick]
      by (unfold world1; by destruct differs).
    pose proof (runTicks_calls (ticks outcome) (bookkeeping this))
      as (_ & Hmanual & Hinternal).
    destruct (if tickCallback world1 then _ else _) as [b1 tickCalls] eqn:Hrun.
    assert (manualChecks tickCalls = []) as HtickCalls.
    { destruct (tickCallback world1); [by rewrite Hrun in Hmanual|by simplify_eq]. }
    eexists _, _, world1. split; [reflexivity|]. rewrite Hexp, Htick in *.
    split_and!; [done|done|done| | | |].
    + intros ->. unfold manualChecks in *. split_calls.
      rewrite HtickCalls, !omap_map_None by done. by destruct differs.
    + intros ->. cbn [negb from_option].
      exists ([getGravity] ++
              (if differs then [setGravity (gravity this)] else []) ++
              map updateTransform (_triggers this) ++
              map _updateCompound (_compounds this) ++
              map _updateKinematic (_kinematic this) ++
              [stepSimulation dt (maxSubSteps this) (fixedTimeStep this)] ++
              tickCalls ++ map _updateDynamic (_dynamic this)).
      eexists. split; [by rewrite <- !app_assoc|]. split.
      { do 5 (apply elem_of_app; right). apply elem_of_app. left. by left. }
      unfold manualChecks in *. split_calls.
      rewrite HtickCalls, !omap_map_None by done. by destruct differs.
    + intros Hon. rewrite Hon in Hrun. rewrite Hrun in Hinternal. simpl in Hinternal.
      unfold internalTicks in *. split_calls.
      rewrite !omap_map_None by done.
      rewrite !length_app, Hinternal.
      destruct differs, (negb (exposesTickCallback w)); simpl; lia.
    + intros Hoff. rewrite Hoff in Hrun. simplify_eq.
      unfold internalTicks. split_calls. rewrite !omap_map_None by done.
      by destruct differs, (negb (exposesTickCallback w)).
  - intros lib start end_ hits. unfold raycastAll.
    destruct (has_AllHitsRayResultCallback lib); simpl; eexists;
      (split; [reflexivity|]); split; split; try done; try set_solver.
  - intros lib body shape position rotation contacts. unfold RigidBody._shapeTest.
    destruct (has_ConcreteContactResultCallback lib), body; simpl; eexists;
      (split; [reflexivity|]); split; split; try done; try set_solver;
      by intros [? ?].
Qed.

(** *** The checks of an update *)

(** The manifold lists on which an update runs the collision check, one
    after the other: those of the internal ticks of the step when the check
    is the tick callback of the world, and the one after the step when the
    world has no [setInternalTickCallback]. *)
Definition checksOf (w : btDiscreteDynamicsWorld (num:=num))
    (outcome : StepOutcome (num:=num)) : list (list (btPersistentManifold (num:=num))) :=
  (if tickCallback w then ticks outcome else []) ++
  (if exposesTickCallback w then [] else [manifoldsAfter outcome]).

(** The collision check run once on each list, in order: the system after
    the last check, and the events of each check. *)
Fixpoint runChecks (steps : list (list (btPersistentManifold (num:=num))))
    (b : System) : System * list (list (Fired (num:=num))) :=
  match steps with
  | [] => (b, [])
  | manifolds :: rest =>
      let r := _checkForCollisions NORESPONSE manifolds b in
      let '(b', fired) := runChecks rest (stateOf r) in
      (b', firedOf r :: fired)
  end.

Lemma runChecks_app steps more b :
  runChecks (steps ++ more) b =
  ((runChecks more (runChecks steps b).1).1,
   (runChecks steps b).2 ++ (runChecks more (runChecks steps b).1).2).
Proof.
  revert b. induction steps as [|manifolds steps IH]; intros b; simpl.
  - by destruct (runChecks more b).
  - rewrite IH. destruct (runChecks steps _) as [b1 fired1]. simpl.
    by destruct (runChecks more b1).
Qed.

Lemma runTicks_runChecks ts b :
  (runTicks ts b).1 = (runChecks ts b).1 ∧
  internalTicks (runTicks ts b).2 = (runChecks ts b).2.
Proof.
  revert b. induction ts as [|manifolds ts IH]; intros b; simpl; [done|].
  destruct (IH (stateOf (_checkForCollisions NORESPONSE manifolds b))) as [Hb Hf].
  destruct (runTicks ts _) as [b1 calls], (runChecks ts _) as [b2 fired].
  simpl in *. by subst.
Qed.

(** One update, as far as the collision check goes. *)
Lemma onUpdate_checks dt outcome this w :
  dynamicsWorld this = Some w →
  ∃ this' calls,
    onUpdate dt outcome this = Some (this', calls) ∧
    bookkeeping this' = (runChecks (checksOf w outcome) (bookkeeping this)).1 ∧
    internalTicks calls =
      (runChecks (if tickCallback w then ticks outcome else []) (bookkeeping this)).2 ∧
    manualChecks calls =
      (runChecks (if exposesTickCallback w then [] else [manifoldsAfter outcome])
         (runChecks (if tickCallback w then ticks outcome else [])
                    (bookkeeping this)).1).2.
Proof.
  intros Hw. unfold RigidBody.onUpdate. rewrite Hw.
  set (float32 := {| Math.x := _; Math.y := _; Math.z := _ |}).
  set (differs := _ || _ || _).
  set (world1 := if differs then _ else w).
  assert (exposesTickCallback world1 = exposesTickCallback w ∧
          tickCallback world1 = tickCallback w) as [Hexp Htick]
    by (unfold world1; by destruct differs).
  rewrite Hexp, Htick.
  pose proof (runTicks_calls (ticks outcome) (bookkeeping this)) as (_ & Hmanual & _).
  pose proof (runTicks_runChecks (ticks outcome) (bookkeeping this)) as [Hstate Hfired].
  unfold checksOf. rewrite runChecks_app.
  assert (∃ b1 tickCalls,
            (if tickCallback w then runTicks (ticks outcome) (bookkeeping this)
             else (bookkeeping this, [])) = (b1, tickCalls) ∧
            b1 = (runChecks (if tickCallback w then ticks outcome else [])
                            (bookkeeping this)).1 ∧
            internalTicks tickCalls =
              (runChecks (if tickCallback w then ticks outcome else [])
                         (bookkeeping this)).2 ∧
            manualChecks tickCalls = []) as (b1 & tickCalls & -> & Hb1 & Hint & Hman).
  { destruct (tickCallback w); [|by eexists _, _].
    destruct (runTicks (ticks outcome) (bookkeeping this)) as [b1 tickCalls].
    by exists b1, tickCalls. }
  rewrite <- Hb1.
  eexists _, _. split; [reflexivity|]. cbn [bookkeeping set_bookkeeping fst snd].
  split_and!.
  - destruct (exposesTickCallback w); simpl; [done|].
    by destruct (_checkForCollisions _ _ _) as [[? ?] ?].
  - unfold internalTicks in *. split_calls.
    rewrite !omap_map_None by done. rewrite Hint.
    destruct differs, (exposesTickCallback w); simpl; by rewrite ?app_nil_r.
  - unfold manualChecks in *. split_calls.
    rewrite !omap_map_None by done. rewrite Hman.
    destruct differs, (exposesTickCallback w); simpl; try done;
      by destruct (_checkForCollisions _ _ _) as [[? ?] ?].
Qed.

(** C7, as amended. The loading of the library registers the collision
    check as the internal tick callback when the world has
    [setInternalTickCallback], and warns otherwise; an update then leaves the
    check to the ticks of the world in the first case, where the records are
    those of one check per tick, and runs it itself, once and after the
    step, in the second, where the records are those of that check;
    [raycastAll] and [_shapeTest] start with the assertion that the entry
    point they need is there, and throw without it.  Besides these guards
    the check has a silent one: a manifold with a body that has no entity is
    passed over, with nothing recorded and nothing fired. *)
Theorem feature_detection :
  (∀ lib this,
     let r := onLibraryLoaded (num:=num) (Some lib) this in
     ∃ w, dynamicsWorld r.1 = Some w ∧
          exposesTickCallback w = has_setInternalTickCallback lib ∧
          tickCallback w = has_setInternalTickCallback lib ∧
          (has_setInternalTickCallback lib = true →
           setInternalTickCallback ∈ r.2 ∧ ∀ msg, Debug_warn msg ∉ r.2) ∧
          (has_setInternalTickCallback lib = false →
           (setInternalTickCallback ∉ r.2) ∧ Debug_warn tickCallbackWarning ∈ r.2)) ∧
  (∀ dt outcome this w,
     dynamicsWorld this = Some w →
     ∃ this' calls w',
       onUpdate dt outcome this = Some (this', calls) ∧
       dynamicsWorld this' = Some w' ∧
       exposesTickCallback w' = exposesTickCallback w ∧
       tickCallback w' = tickCallback w ∧
       (exposesTickCallback w = true → manualChecks calls = []) ∧
       (exposesTickCallback w = false →
        ∃ before f,
          calls = before ++ [manualCheck f] ∧
          stepSimulation dt (maxSubSteps this) (fixedTimeStep this) ∈ before ∧
          manualChecks before = []) ∧
       (tickCallback w = true →
        length (internalTicks calls) = length (ticks outcome)) ∧
       (tickCallback w = false → internalTicks calls = []) ∧
       (exposesTickCallback w = true → tickCallback w = true →
        bookkeeping this' = (runChecks (ticks outcome) (bookkeeping this)).1 ∧
        internalTicks calls = (runChecks (ticks outcome) (bookkeeping this)).2) ∧
       (exposesTickCallback w = false → tickCallback w = false →
        bookkeeping this' =
          stateOf (_checkForCollisions NORESPONSE (manifoldsAfter outcome)
                     (bookkeeping this)) ∧
        manualChecks calls =
          [firedOf (_checkForCollisions NORESPONSE (manifoldsAfter outcome)
                      (bookkeeping this))])) ∧
  (∀ lib start end_ hits,
     ∃ rest,
       (raycastAll (num:=num) lib start end_ hits).1 =
         Debug_assert (has_AllHitsRayResultCallback lib) raycastAllMessage :: rest ∧
       (new_AllHitsRayResultCallback ∈ rest ↔ has_AllHitsRayResultCallback lib = true) ∧
       (is_Some (raycastAll lib start end_ hits).2 ↔
        has_AllHitsRayResultCallback lib = true)) ∧
  (∀ lib body shape position rotation contacts,
     ∃ rest,
       (_shapeTest lib body shape position rotation contacts).1.2 =
         Debug_assert (has_ConcreteContactResultCallback lib) shapeTestMessage :: rest ∧
       (new_ConcreteContactResultCallback ∈ rest ↔
        has_ConcreteContactResultCallback lib = true) ∧
       (is_Some (_shapeTest lib body shape position rotation contacts).2 ↔
        has_ConcreteContactResultCallback lib = true)) ∧
  (∀ (m : btPersistentManifold (num:=num)) this,
     manifoldEntities m = None →
     checkManifold NORESPONSE m this = (tt, this, [])).
Proof.
  destruct guards_of_the_system as (Hload & Hupdate & Hray & Hshape).
  split_and!; [exact Hload| |exact Hray|exact Hshape|].
  - intros dt outcome this w Hw.
    destruct (Hupdate dt outcome this w Hw)
      as (this' & calls & w' & Hrun & Hw' & Hexp & Htick & H1 & H2 & H3 & H4).
    destruct (onUpdate_checks dt outcome this w Hw)
      as (this2 & calls2 & Hrun2 & Hbook & Hint & Hman).
    rewrite Hrun in Hrun2. injection Hrun2 as <- <-.
    exists this', calls, w'. split_and!; try done.
    + intros He Ht. unfold checksOf in Hbook. rewrite He, Ht, app_nil_r in Hbook.
      by rewrite Ht in Hint.
    + intros He Ht. unfold checksOf in Hbook. rewrite He, Ht in Hbook, Hman.
      simpl in Hbook, Hman. split; [|done].
      rewrite Hbook. by destruct (_checkForCollisions _ _ _) as [[? ?] ?].
  - intros m this. unfold manifoldEntities, RigidBody.checkManifold.
    by destruct (bodyEntity (getBody0 m)), (bodyEntity (getBody1 m)).
Qed.

(** C5, as amended. The collision records are refreshed once per physics
    step: an update runs the check once for each internal tick of the step
    when the check is the tick callback of the world, and once after the
    step when the world has no [setInternalTickCallback], and the records
    after the update are those that these checks leave, one after the other;
    the loading of the library decides between the two.  Every check
    rebuilds the frame set: it does not depend on the frame set it finds,
    and without manifolds it leaves an empty one.  [_storeCollision] pushes
    the other entity onto the frame record of the guid in every case, and
    onto the persistent record only when it is not there yet, which is
    exactly when it returns [true]; the records of other guids are left
    alone. *)
Theorem record_refreshed_once_per_step :
  (∀ dt outcome this w,
     dynamicsWorld this = Some w →
     ∃ this' calls,
       onUpdate dt outcome this = Some (this', calls) ∧
       bookkeeping this' = (runChecks (checksOf w outcome) (bookkeeping this)).1 ∧
       internalTicks calls ++ manualChecks calls =
         (runChecks (checksOf w outcome) (bookkeeping this)).2 ∧
       length (internalTicks calls ++ manualChecks calls) =
         length (checksOf w outcome)) ∧
  (∀ lib (this : RigidBodyComponentSystem (num:=num)) outcome,
     ∃ w, dynamicsWorld (onLibraryLoaded (Some lib) this).1 = Some w ∧
          checksOf w outcome =
            if has_setInternalTickCallback lib then ticks outcome
            else [manifoldsAfter outcome]) ∧
  (∀ (manifolds : list (btPersistentManifold (num:=num))) frame this ent oth,
     _checkForCollisions NORESPONSE manifolds (set_frameCollisions frame this) =
       _checkForCollisions NORESPONSE manifolds this ∧
     frameCollisions (stateOf (_checkForCollisions (num:=num) NORESPONSE [] this)) = ∅ ∧
     othersAt (frameCollisions (stateOf (_storeCollision ent oth this))) (getGuid ent) =
       othersAt (frameCollisions this) (getGuid ent) ++ [oth] ∧
     othersAt (collisions (stateOf (_storeCollision ent oth this))) (getGuid ent) =
       (if valueOf (_storeCollision ent oth this)
        then othersAt (collisions this) (getGuid ent) ++ [oth]
        else othersAt (collisions this) (getGuid ent)) ∧
     (valueOf (_storeCollision ent oth this) = true ↔
      oth ∉ othersAt (collisions this) (getGuid ent)) ∧
     (∀ guid, guid ≠ getGuid ent →
        othersAt (frameCollisions (stateOf (_storeCollision ent oth this))) guid =
          othersAt (frameCollisions this) guid ∧
        othersAt (collisions (stateOf (_storeCollision ent oth this))) guid =
          othersAt (collisions this) guid)).
Proof.
  split_and!.
  - intros dt outcome this w Hw.
    destruct (onUpdate_checks dt outcome this w Hw)
      as (this' & calls & Hrun & Hbook & Hint & Hman).
    exists this', calls. split_and!; [done|done| |].
    + unfold checksOf. by rewrite runChecks_app, Hint, Hman.
    + unfold checksOf. rewrite Hint, Hman, !length_app.
      assert (∀ steps b, length (runChecks steps b).2 = length steps) as Hlen.
      { intros steps. induction steps as [|ms steps IH]; intros b; simpl; [done|].
        specialize (IH (stateOf (_checkForCollisions NORESPONSE ms b))).
        destruct (runChecks steps _). simpl in *. by rewrite IH. }
      by rewrite !Hlen.
  - intros lib this outcome. eexists. split; [reflexivity|].
    unfold checksOf. simpl. destruct (has_setInternalTickCallback lib); simpl;
      by rewrite ?app_nil_r.
  - intros manifolds frame this ent oth.
    apply RigidBodyProofs.check_rebuilds_the_frame.
Qed.

(** *** Gravity *)

(** The vector as a [Float32Array] holds it. *)
Definition float32 (v : Math.Vec3 num) : Math.Vec3 num :=
  {| Math.x := nfround (Math.x v); Math.y := nfround (Math.y v);
     Math.z := nfround (Math.z v) |}.

(** The arguments of the calls of [setGravity] among the calls. *)
Definition gravityCalls (calls : list Call) : list (Math.Vec3 num) :=
  omap (λ c, match c with setGravity g => Some g | _ => None end) calls.

(** The components whose bodies are read back after the step. *)
Definition dynamicUpdates (calls : list Call) : list nat :=
  omap (λ c, match c with _updateDynamic i => Some i | _ => None end) calls.

Lemma runTicks_internal ts b :
  Forall (λ c, ∃ f, c = internalTick f) (runTicks ts b).2.
Proof.
  revert b. induction ts as [|manifolds ts IH]; intros b; simpl; [constructor|].
  specialize (IH (stateOf (_checkForCollisions NORESPONSE manifolds b))).
  destruct (runTicks ts _) as [b' calls]. simpl in *.
  constructor; [by eexists|done].
Qed.

Lemma omap_internal {C} (sel : Call → option C) (calls : list Call) :
  Forall (λ c, ∃ f, c = internalTick f) calls →
  (∀ f, sel (internalTick f) = None) →
  omap sel calls = [].
Proof.
  intros Hall Hsel. induction Hall as [|c calls [f ->] _ IH]; [done|].
  simpl. by rewrite Hsel.
Qed.

(** Some component of the first vector is [!==] the component of the
    second: the test that [onUpdate] makes on the gravity of the world. *)
Definition differ (v w : Math.Vec3 num) : bool :=
  nne (Math.x v) (Math.x w) || nne (Math.y v) (Math.y w) || nne (Math.z v) (Math.z w).

(** One update, as far as gravity goes. *)
Lemma onUpdate_gravity dt outcome this w :
  dynamicsWorld this = Some w →
  ∃ this' calls w',
    onUpdate dt outcome this = Some (this', calls) ∧
    dynamicsWorld this' = Some w' ∧
    gravity this' = gravity this ∧
    _gravityFloat32 this' = float32 (gravity this) ∧
    worldGravity w' =
      (if differ (worldGravity w) (float32 (gravity this))
       then float32 (gravity this) else worldGravity w) ∧
    gravityCalls calls =
      if differ (worldGravity w) (float32 (gravity this)) then [gravity this] else [].
Proof.
  intros Hw. unfold RigidBody.onUpdate. rewrite Hw.
  fold (float32 (gravity this)).
  change (nne (Math.x (worldGravity w)) (Math.x (float32 (gravity this))) ||
          nne (Math.y (worldGravity w)) (Math.y (float32 (gravity this))) ||
          nne (Math.z (worldGravity w)) (Math.z (float32 (gravity this))))
    with (differ (worldGravity w) (float32 (gravity this))).
  set (differs := differ _ _).
  set (world1 := if differs then _ else w).
  pose proof (runTicks_internal (ticks outcome) (bookkeeping this)) as Hticks.
  destruct (if tickCallback world1 then _ else _) as [b1 tickCalls] eqn:Hrun.
  assert (gravityCalls tickCalls = []) as HtickCalls.
  { destruct (tickCallback world1); [|by simplify_eq].
    rewrite Hrun in Hticks. by apply omap_internal. }
  eexists _, _, world1. split_and!; [reflexivity|done|done|done| |].
  - unfold world1. by destruct differs.
  - unfold gravityCalls in *. split_calls.
    rewrite HtickCalls, !omap_map_None by done.
    by destruct differs, (negb (exposesTickCallback world1)).
Qed.

(** X11. An update hands the gravity of the system to the world exactly when
    a component of the gravity that the world holds is [!==] the component
    of the system's gravity in single precision, and the world then holds
    the latter.  When no component of the single-precision gravity is
    unequal to itself, the next update, with the gravity unchanged, does not
    set it again; when one is (a NaN) and the update has set the gravity,
    the next update sets it again. *)
Theorem gravity_is_set_when_it_differs dt outcome this w :
  dynamicsWorld this = Some w →
  ∃ this' calls w',
    onUpdate dt outcome this = Some (this', calls) ∧
    dynamicsWorld this' = Some w' ∧
    gravity this' = gravity this ∧
    gravityCalls calls =
      (if differ (worldGravity w) (float32 (gravity this))
       then [gravity this] else []) ∧
    worldGravity w' =
      (if differ (worldGravity w) (float32 (gravity this))
       then float32 (gravity this) else worldGravity w) ∧
    ∀ dt' outcome',
      ∃ this'' calls',
        onUpdate dt' outcome' this' = Some (this'', calls') ∧
        (differ (float32 (gravity this)) (float32 (gravity this)) = false →
         gravityCalls calls' = []) ∧
        (differ (worldGravity w) (float32 (gravity this)) = true →
         differ (float32 (gravity this)) (float32 (gravity this)) = true →
         gravityCalls calls' = [gravity this]).
Proof.
  intros Hw.
  destruct (onUpdate_gravity dt outcome this w Hw)
    as (this' & calls & w' & Hrun & Hw' & Hg & _ & Hworld & Hcalls).
  exists this', calls, w'. split_and!; try done.
  intros dt' outcome'.
  destruct (onUpdate_gravity dt' outcome' this' w' Hw')
    as (this'' & calls' & _ & Hrun' & _ & _ & _ & _ & Hcalls').
  exists this'', calls'. split; [done|].
  rewrite Hcalls', Hg, Hworld.
  destruct (differ (worldGravity w) (float32 (gravity this))) eqn:Hd.
  - split; [by intros ->|]. by intros _ ->.
  - rewrite Hd. split; [done|]. by intros ?.
Qed.

(** *** The collision check and the dynamic bodies *)

(** X12. The bodies of the dynamic components are read back after the step.
    The checks that the world runs at its ticks come before that, so their
    callbacks see the entities where the previous update left them; the
    check that the update runs itself, for a world without the tick
    callback, comes after it. *)
Theorem checks_around_the_dynamic_sync dt outcome this w :
  dynamicsWorld this = Some w →
  ∃ this' calls before after,
    onUpdate dt outcome this = Some (this', calls) ∧
    calls = before ++ map _updateDynamic (_dynamic this) ++ after ∧
    stepCalls before = [(dt, maxSubSteps this, fixedTimeStep this)] ∧
    dynamicUpdates before = [] ∧ dynamicUpdates after = [] ∧
    manualChecks before = [] ∧ internalTicks after = [] ∧
    length (internalTicks before) =
      (if tickCallback w then length (ticks outcome) else 0) ∧
    length (manualChecks after) = (if exposesTickCallback w then 0 else 1).
Proof.
  intros Hw. unfold RigidBody.onUpdate. rewrite Hw.
  set (float := {| Math.x := _; Math.y := _; Math.z := _ |}).
  set (differs := _ || _ || _).
  set (world1 := if differs then _ else w).
  assert (exposesTickCallback world1 = exposesTickCallback w ∧
          tickCallback world1 = tickCallback w) as [Hexp Htick]
    by (unfold world1; by destruct differs).
  pose proof (runTicks_internal (ticks outcome) (bookkeeping this)) as Hticks.
  pose proof (runTicks_calls (ticks outcome) (bookkeeping this)) as (_ & _ & Hlen).
  destruct (if tickCallback world1 then _ else _) as [b1 tickCalls] eqn:Hrun.
  rewrite Hexp, Htick in *.
  assert (Forall (λ c, ∃ f, c = internalTick f) tickCalls) as Hinternal.
  { destruct (tickCallback w); [by rewrite Hrun in Hticks|]. simplify_eq. constructor. }
  assert (length (internalTicks tickCalls) =
          if tickCallback w then length (ticks outcome) else 0) as Hlen'.
  { destruct (tickCallback w); [by rewrite Hrun in Hlen|]. by simplify_eq. }
  eexists _,
    ([getGravity] ++
     (if differs then [setGravity (gravity this)] else []) ++
     map updateTransform (_triggers this) ++
     map _updateCompound (_compounds this) ++
     map _updateKinematic (_kinematic this) ++
     [stepSimulation dt (maxSubSteps this) (fixedTimeStep this)] ++
     tickCalls ++ map _updateDynamic (_dynamic this) ++
     from_option (λ r, [manualCheck (firedOf r)]) []
       (if negb (exposesTickCallback w)
        then Some (_checkForCollisions NORESPONSE (manifoldsAfter outcome) b1)
        else None)),
    ([getGravity] ++
     (if differs then [setGravity (gravity this)] else []) ++
     map updateTransform (_triggers this) ++
     map _updateCompound (_compounds this) ++
     map _updateKinematic (_kinematic this) ++
     [stepSimulation dt (maxSubSteps this) (fixedTimeStep this)] ++
     tickCalls),
    (from_option (λ r, [manualCheck (firedOf r)]) []
       (if negb (exposesTickCallback w)
        then Some (_checkForCollisions NORESPONSE (manifoldsAfter outcome) b1)
        else None)).
  split_and!.
  - reflexivity.
  - by rewrite <- !app_assoc.
  - unfold stepCalls. split_calls.
    rewrite (omap_internal _ tickCalls), !omap_map_None by done.
    by destruct differs.
  - unfold dynamicUpdates. split_calls.
    rewrite (omap_internal _ tickCalls), !omap_map_None by done.
    by destruct differs.
  - by destruct (negb (exposesTickCallback w)).
  - unfold manualChecks. split_calls.
    rewrite (omap_internal _ tickCalls), !omap_map_None by done.
    by destruct differs.
  - by destruct (negb (exposesTickCallback w)).
  - unfold internalTicks in *. split_calls.
    rewrite !omap_map_None by done. rewrite !length_app, Hlen'.
    by destruct differs.
  - by destruct (exposesTickCallback w).
Qed.

(** *** The test body of the shape tests *)

(** The activation states that the calls force on the test body, the
    shapes they give it, and what they destroy. *)
Definition activations (calls : list Call) : list Z :=
  omap (λ c, match c with forceActivationState s => Some s | _ => None end) calls.

Definition shapesSet (calls : list Call) : list (option btCollisionShape) :=
  omap (λ c, match c with setCollisionShape s => Some s | _ => None end) calls.

Definition destroyed (calls : list Call) : list string :=
  omap (λ c, match c with Ammo_destroy what => Some what | _ => None end) calls.

(** X13. The body of the shape tests is created by the first test and used by
    every later one: a test creates it when the module variable is still
    unset, sets the variable in every case, and a test that follows creates
    nothing. *)
Theorem shape_test_body_is_created_once lib body shape position rotation contacts :
  (_shapeTest lib body shape position rotation contacts).1.1 = true ∧
  (createBody ∈ (_shapeTest lib body shape position rotation contacts).1.2 ↔
   body = false) ∧
  (∀ lib' shape' position' rotation' contacts',
     createBody ∉
       (_shapeTest lib'
          (_shapeTest lib body shape position rotation contacts).1.1
          shape' position' rotation' contacts').1.2).
Proof.
  assert (∀ lib b shape position rotation contacts,
            (_shapeTest lib b shape position rotation contacts).1.1 = true ∧
            (createBody ∈ (_shapeTest lib b shape position rotation contacts).1.2 ↔
             b = false)) as Hone.
  { intros lib0 b shape0 position0 rotation0 contacts0. unfold RigidBody._shapeTest.
    destruct (has_ConcreteContactResultCallback lib0), b; simpl;
      (split; [done|]); split; try done;
      rewrite ?elem_of_cons, ?elem_of_nil; naive_solver. }
  destruct (Hone lib body shape position rotation contacts) as [Hset Hcreate].
  split_and!; [done|done|].
  intros lib' shape' position' rotation' contacts'. rewrite Hset.
  destruct (Hone lib' true shape' position' rotation' contacts') as [_ Hnone].
  intros Hin. by apply Hnone in Hin.
Qed.

(** X14. A shape test that returns has activated the test body for the contact
    test and then put it to rest, taken the shape off it, and destroyed the
    callback object and the shape; it reports the contacts whose body has an
    entity and whose distance is negative.  A test that throws, for want of the callback class, has
    run no contact test: it leaves the body active with the shape on it and
    destroys nothing. *)
Theorem shape_test_cleans_up_when_it_returns lib body shape position rotation contacts :
  let r := _shapeTest lib body shape position rotation contacts in
  (has_ConcreteContactResultCallback lib = true →
   (∃ before after,
      r.1.2 = before ++ [contactTest] ++ after ∧
      activations before = [ACTIVE_TAG] ∧ shapesSet before = [Some shape] ∧
      activations after = [DISABLE_DEACTIVATION] ∧ shapesSet after = [None] ∧
      destroyed before = [] ∧ destroyed after = ["resultCallback"; "shape"]) ∧
   ∃ hits, r.2 = Some hits ∧
     ∀ hit, hit ∈ hits ↔
       ∃ c, c ∈ contacts ∧ bodyEntity (ct_body1 c) = Some (hr_entity hit) ∧
            nlt (ct_getDistance c) (nlit 0) = true ∧
            hr_point hit = ct_positionWorldOnB c ∧
            hr_normal hit = ct_normalWorldOnB c) ∧
  (has_ConcreteContactResultCallback lib = false →
   r.2 = None ∧ (contactTest ∉ r.1.2) ∧
   activations r.1.2 = [ACTIVE_TAG] ∧ shapesSet r.1.2 = [Some shape] ∧
   destroyed r.1.2 = []).
Proof.
  intros r. unfold r, RigidBody._shapeTest. split; intros ->.
  - split.
    + exists ([Debug_assert true shapeTestMessage] ++
              (if body then [] else [createBody]) ++
              [setCollisionShape (Some shape); setWorldTransform position rotation;
               forceActivationState ACTIVE_TAG; new_ConcreteContactResultCallback]),
             [forceActivationState DISABLE_DEACTIVATION; setCollisionShape None;
              Ammo_destroy "resultCallback"; Ammo_destroy "shape"].
      by destruct body.
    + eexists. split; [reflexivity|]. intros hit.
      rewrite list_elem_of_omap. unfold addSingleResult.
      split.
      * intros (c & Hc & Hhit). exists c. split; [done|].
        destruct (bodyEntity (ct_body1 c)); [|done].
        destruct (nlt _ _); [|done]. by simplify_eq.
      * intros (c & Hc & He & Hd & Hp & Hn). exists c. split; [done|].
        rewrite He, Hd. destruct hit. simpl in *. by subst.
  - destruct body; simpl; split_and!; try done;
      rewrite ?elem_of_cons, ?elem_of_nil; naive_solver.
Qed.

(** *** The systems that the methods reach *)

(** The systems reached from the constructor by loading the library and by
    updates. *)
Inductive reachable : RigidBodyComponentSystem → Prop :=
  | reachable_new : reachable constructor
  | reachable_loaded Ammo this :
      reachable this → reachable (onLibraryLoaded Ammo this).1
  | reachable_updated dt outcome this this' calls :
      reachable this → onUpdate dt outcome this = Some (this', calls) →
      reachable this'.

(** The two maps hold the same contacts. *)
Definition mirrored (b : System) : Prop :=
  ∀ guid o, o ∈ othersAt (collisions b) guid ↔ o ∈ othersAt (frameCollisions b) guid.

Lemma runTicks_kept ts b :
  RigidBodyProofs.wellFormed (collisions b) → mirrored b →
  RigidBodyProofs.wellFormed (collisions (runTicks ts b).1) ∧
  mirrored (runTicks ts b).1.
Proof.
  revert b. induction ts as [|manifolds ts IH]; intros b Hwf Hm; simpl; [done|].
  destruct (IH (stateOf (_checkForCollisions NORESPONSE manifolds b))) as [Hwf' Hm'].
  - by apply RigidBodyProofs.check_wellFormed.
  - intros guid o. apply RigidBodyProofs.check_collisions_frame.
  - by destruct (runTicks ts _) as [b' calls].
Qed.

Lemma onUpdate_kept dt outcome this this' calls :
  onUpdate dt outcome this = Some (this', calls) →
  RigidBodyProofs.wellFormed (collisions (bookkeeping this)) →
  mirrored (bookkeeping this) →
  RigidBodyProofs.wellFormed (collisions (bookkeeping this')) ∧
  mirrored (bookkeeping this').
Proof.
  unfold RigidBody.onUpdate. destruct (dynamicsWorld this) as [w|]; [|done].
  set (differs := _ || _ || _).
  set (world1 := if differs then _ else w).
  intros Hrun Hwf Hm.
  pose proof (runTicks_kept (ticks outcome) (bookkeeping this) Hwf Hm) as Hticks.
  destruct (if tickCallback world1 then _ else _) as [b1 tickCalls] eqn:Hb1.
  assert (RigidBodyProofs.wellFormed (collisions b1) ∧ mirrored b1) as [Hwf1 Hm1].
  { destruct (tickCallback world1); [by rewrite Hb1 in Hticks|by simplify_eq]. }
  injection Hrun as <- _. cbn [bookkeeping set_bookkeeping].
  destruct (negb (exposesTickCallback world1)); cbn [from_option]; [|done].
  split; [by apply RigidBodyProofs.check_wellFormed|].
  intros guid o. apply RigidBodyProofs.check_collisions_frame.
Qed.

(** X15. In every system that the constructor, the loading of the library and
    the updates reach, each record of [this.collisions] is stored under the
    guid of its entity with a non-empty array of distinct entities, and
    [this.frameCollisions] holds the same contacts. *)
Theorem reachable_systems_keep_their_records this :
  reachable this →
  RigidBodyProofs.wellFormed (collisions (bookkeeping this)) ∧
  mirrored (bookkeeping this).
Proof.
  induction 1 as [|Ammo this _ IH|dt outcome this this' calls _ IH Hrun].
  - split; [split|]; simpl; [by intros guid c| |done].
    intros guid c. by rewrite lookup_empty.
  - by destruct Ammo.
  - destruct IH. by eapply onUpdate_kept.
Qed.

Section casts.
Variable lookAtRotation : Math.Vec3 num → Math.Vec3 num → Math.Quat num.

Local Abbreviation boxCast :=
  (@boxCast num _ ACTIVE_TAG DISABLE_DEACTIVATION lookAtRotation).
Local Abbreviation sphereCast :=
  (@sphereCast num _ ACTIVE_TAG DISABLE_DEACTIVATION lookAtRotation).

(** C10, as amended. For three distinct vector objects, [boxCast] adds half
    the distance from start to end to [halfExtents.z], both casts replace
    the start vector by the midpoint of start and end and leave the end
    vector and every other object as they are, and the shape test that
    follows gets the values so changed. *)
Theorem casts_write_to_their_arguments lib body halfExtents start end_ radius
    contacts (heap : nat → Math.Vec3 num) :
  halfExtents ≠ start → halfExtents ≠ end_ → start ≠ end_ →
  let box := boxCast lib body halfExtents start end_ contacts heap in
  let sphere := sphereCast lib body radius start end_ contacts heap in
  let midpoint := Math.divScalar (Math.add (heap start) (heap end_)) (nlit 2) in
  let half := ndiv (Math.distance (heap start) (heap end_)) (nlit 2) in
  (box.1 halfExtents =
     {| Math.x := Math.x (heap halfExtents); Math.y := Math.y (heap halfExtents);
        Math.z := nadd (Math.z (heap halfExtents)) half |} ∧
   box.1 start = midpoint ∧
   box.1 end_ = heap end_ ∧
   (∀ v, v ≠ halfExtents → v ≠ start → box.1 v = heap v) ∧
   box.2 = _shapeTest lib body (btBoxShape (box.1 halfExtents)) midpoint
             (ByQuat (lookAtRotation (heap start) (heap end_))) contacts) ∧
  (sphere.1 start = midpoint ∧
   sphere.1 end_ = heap end_ ∧
   (∀ v, v ≠ start → sphere.1 v = heap v) ∧
   sphere.2 = _shapeTest lib body
                (btCapsuleShapeZ radius (Math.distance (heap start) (heap end_)))
                midpoint (ByQuat (lookAtRotation (heap start) (heap end_))) contacts).
Proof.
  intros Hhs Hhe Hse box sphere midpoint half.
  unfold box, sphere, midpoint, half, RigidBody.boxCast, RigidBody.sphereCast.
  clear box sphere midpoint half. cbn [fst snd].
  repeat progress
    rewrite ?fn_lookup_insert,
      ?(fn_lookup_insert_ne _ halfExtents start),
      ?(fn_lookup_insert_ne _ halfExtents end_),
      ?(fn_lookup_insert_ne _ start end_),
      ?(fn_lookup_insert_ne _ start halfExtents) by congruence.
  split; split_and!; try done.
  - intros v Hvh Hvs. by rewrite !fn_lookup_insert_ne.
  - intros v Hvs. by rewrite !fn_lookup_insert_ne.
Qed.

End casts.
End world.

(** *** The statements at work on the small scene *)

Import Scene.

Lemma step_once_per_update_witness :
  ∃ this' calls,
    onUpdate NORESPONSE (Qmake 1 60) quiet
             (onLibraryLoaded (Some recentAmmo) constructor).1 = Some (this', calls) ∧
    stepCalls calls = [((Qmake 1 60), inject_Z 10, (Qmake 1 60))].
Proof.
  destruct (step_once_per_update (num:=Q) NORESPONSE) as (Hnew & Hload & Hupdate).
  destruct (Hupdate (Qmake 1 60) quiet (onLibraryLoaded (Some recentAmmo) constructor).1)
    as (this' & calls & Hrun & _ & Hdefault & _).
  { by eexists. }
  exists this', calls. split; [exact Hrun|].
  apply Hdefault, Hload, Hnew.
Defined.

Lemma feature_detection_witness :
  ∃ this' calls before fired,
    onUpdate NORESPONSE (Qmake 1 60) quiet
             (onLibraryLoaded (Some oldAmmo) constructor).1 = Some (this', calls) ∧
    calls = before ++ [manualCheck fired] ∧ manualChecks before = [] ∧
    bookkeeping this' =
      stateOf (_checkForCollisions NORESPONSE (manifoldsAfter quiet)
                 (bookkeeping (onLibraryLoaded (Some oldAmmo) constructor).1)) ∧
    manualChecks calls =
      [firedOf (_checkForCollisions NORESPONSE (manifoldsAfter quiet)
                  (bookkeeping (onLibraryLoaded (Some oldAmmo) constructor).1))].
Proof.
  destruct (feature_detection (num:=Q) NORESPONSE 0%Z 0%Z) as (_ & Hupdate & _).
  destruct (Hupdate (Qmake 1 60) quiet (onLibraryLoaded (Some oldAmmo) constructor).1
              {| worldGravity := initialGravity oldAmmo;
                 exposesTickCallback := false; tickCallback := false |} eq_refl)
    as (this' & calls & w' & Hrun & _ & _ & _ & _ & Hmanual & _ & _ & _ & Hcheck).
  destruct (Hmanual eq_refl) as (before & fired & Hcalls & _ & Hbefore).
  destruct (Hcheck eq_refl eq_refl) as [Hbook Hfired].
  by exists this', calls, before, fired.
Defined.

Lemma record_refreshed_once_per_step_witness :
  ∃ this' calls,
    onUpdate NORESPONSE (Qmake 1 60) quiet
             (onLibraryLoaded (Some recentAmmo) constructor).1 = Some (this', calls) ∧
    length (internalTicks calls ++ manualChecks calls) = 2.
Proof.
  destruct (record_refreshed_once_per_step (num:=Q) NORESPONSE) as (Hupdate & _ & _).
  destruct (Hupdate (Qmake 1 60) quiet (onLibraryLoaded (Some recentAmmo) constructor).1
              {| worldGravity := initialGravity recentAmmo;
                 exposesTickCallback := true; tickCallback := true |} eq_refl)
    as (this' & calls & Hrun & _ & _ & Hlength).
  by exists this', calls.
Defined.

Lemma casts_write_to_their_arguments_witness :
  (boxCast 0 0 noRotation recentAmmo false 0 1 2 [] vectors).1 0 =
    {| Math.x := (inject_Z 1); Math.y := (inject_Z 1); Math.z := inject_Z 3 |} ∧
  (boxCast 0 0 noRotation recentAmmo false 0 1 2 [] vectors).1 1 =
    {| Math.x := (inject_Z 0); Math.y := (inject_Z 0); Math.z := inject_Z 2 |} ∧
  (boxCast 0 0 noRotation recentAmmo false 0 1 2 [] vectors).1 2 = vectors 2.
Proof.
  destruct (casts_write_to_their_arguments (num:=Q) 0 0 noRotation recentAmmo false
              0 1 2 (inject_Z 1) [] vectors) as [(Hhalf & Hstart & Hend & _) _];
    [done|done|done|].
  split_and!; [by rewrite Hhalf|by rewrite Hstart|exact Hend].
Defined.

(** C10, as the claim words it, for every call.  A caller passes one vector
    object as the half extents and as the end of the cast: the end vector
    does not stay as it was, its z grows from 4 to 6, and the start vector
    becomes the midpoint of the start and the changed end, not of the start
    and the end that the caller passed. *)
Lemma box_cast_changes_an_aliased_end :
  vectors 2 =
    {| Math.x := inject_Z 0; Math.y := inject_Z 0; Math.z := inject_Z 4 |} ∧
  (boxCast 0 0 noRotation recentAmmo false 2 1 2 [] vectors).1 2 =
    {| Math.x := inject_Z 0; Math.y := inject_Z 0; Math.z := inject_Z 6 |} ∧
  (boxCast 0 0 noRotation recentAmmo false 2 1 2 [] vectors).1 2 ≠ vectors 2 ∧
  (boxCast 0 0 noRotation recentAmmo false 2 1 2 [] vectors).1 1 =
    {| Math.x := inject_Z 0; Math.y := inject_Z 0; Math.z := inject_Z 3 |} ∧
  Math.divScalar (Math.add (vectors 1) (vectors 2)) (nlit 2) =
    {| Math.x := inject_Z 0; Math.y := inject_Z 0; Math.z := inject_Z 2 |}.
Proof.
  split_and!; [by vm_compute|by vm_compute| |by vm_compute|by vm_compute].
  vm_compute. intros Heq. discriminate Heq.
Qed.

Lemma gravity_is_set_when_it_differs_witness :
  (∃ this' calls,
     onUpdate NORESPONSE (Qmake 1 60) quiet
              (onLibraryLoaded (Some recentAmmo) constructor).1 = Some (this', calls) ∧
     gravityCalls calls = [gravity (constructor (num:=Q))] ∧
     ∃ this'' calls',
       onUpdate NORESPONSE (Qmake 1 60) quiet this' = Some (this'', calls') ∧
       gravityCalls calls' = []) ∧
  (∃ this' calls,
     onUpdate NORESPONSE (nlit 1) still adrift = Some (this', calls) ∧
     gravityCalls calls = [gravity adrift] ∧
     ∃ this'' calls',
       onUpdate NORESPONSE (nlit 1) still this' = Some (this'', calls') ∧
       gravityCalls calls' = [gravity adrift]).
Proof.
  split.
  - destruct (gravity_is_set_when_it_differs (num:=Q) NORESPONSE (Qmake 1 60) quiet
                (onLibraryLoaded (Some recentAmmo) constructor).1
                {| worldGravity := initialGravity recentAmmo;
                   exposesTickCallback := true; tickCallback := true |} eq_refl)
      as (this' & calls & w' & Hrun & _ & _ & Hcalls & _ & Hnext).
    exists this', calls. split; [exact Hrun|]. split.
    + rewrite Hcalls. reflexivity.
    + destruct (Hnext (Qmake 1 60) quiet) as (this'' & calls' & Hrun' & Hquiet & _).
      exists this'', calls'. split; [exact Hrun'|]. apply Hquiet. reflexivity.
  - destruct (gravity_is_set_when_it_differs (num:=option Q) NORESPONSE (nlit 1) still
                adrift
                {| worldGravity :=
                     {| Math.x := nlit 0; Math.y := nlit (-10); Math.z := nlit 0 |};
                   exposesTickCallback := true; tickCallback := true |} eq_refl)
      as (this' & calls & w' & Hrun & _ & _ & Hcalls & _ & Hnext).
    exists this', calls. split; [exact Hrun|]. split.
    + rewrite Hcalls. reflexivity.
    + destruct (Hnext (nlit 1) still) as (this'' & calls' & Hrun' & _ & Hagain).
      exists this'', calls'. split; [exact Hrun'|].
      apply Hagain; reflexivity.
Defined.

Lemma checks_around_the_dynamic_sync_witness :
  ∃ this' calls before after,
    onUpdate NORESPONSE (Qmake 1 60) quiet
             (onLibraryLoaded (Some oldAmmo) constructor).1 = Some (this', calls) ∧
    calls = before ++ [] ++ after ∧
    manualChecks before = [] ∧ length (manualChecks after) = 1.
Proof.
  destruct (checks_around_the_dynamic_sync (num:=Q) NORESPONSE (Qmake 1 60) quiet
              (onLibraryLoaded (Some oldAmmo) constructor).1
              {| worldGravity := initialGravity oldAmmo;
                 exposesTickCallback := false; tickCallback := false |} eq_refl)
    as (this' & calls & before & after & Hrun & Hcalls & _ & _ & _ & Hbefore & _ & _
        & Hafter).
  by exists this', calls, before, after.
Defined.

Lemma reachable_systems_keep_their_records_witness :
  ∃ this' calls,
    onUpdate NORESPONSE (Qmake 1 60) quiet
             (onLibraryLoaded (Some oldAmmo) constructor).1 = Some (this', calls) ∧
    RigidBodyProofs.wellFormed (collisions (bookkeeping this')) ∧
    mirrored (bookkeeping this').
Proof.
  eexists _, _. split; [vm_compute; reflexivity|].
  apply (reachable_systems_keep_their_records (num:=Q) NORESPONSE).
  eapply (reachable_updated NORESPONSE (Qmake 1 60) quiet
            (onLibraryLoaded (Some oldAmmo) constructor).1 _ _
            (reachable_loaded NORESPONSE _ _ (reachable_new NORESPONSE))).
  vm_compute. reflexivity.
Defined.

End WorldProofs.

Module ComponentDataProofs.
Import ComponentData.

Section data.
Context `{JSNumber num}.

(** The names of the properties that the calls assign, in order. *)
Definition assignedNames (calls : list (ComponentCall (num:=num))) : list string :=
  omap (λ c, match c with Assign property _ => Some property | _ => None end) calls.

Lemma assignProperties_spec (properties : list string) (data : gmap string JSData) :
  (∀ c, c ∈ assignProperties properties data →
        ∃ property value,
          c = Assign property (converted value) ∧
          property ∈ properties ∧ data !! property = Some value) ∧
  (∀ property value,
     property ∈ properties → data !! property = Some value →
     Assign property (converted value) ∈ assignProperties properties data) ∧
  assignedNames (assignProperties properties data) =
    filter (λ property, is_Some (data !! property)) properties.
Proof.
  induction properties as [|p ps (IH1 & IH2 & IH3)]; simpl.
  - split_and!; [by intros c ?%elem_of_nil|by intros ? ? ?%elem_of_nil|done].
  - split_and!.
    + intros c [Hc|Hc]%elem_of_app.
      * destruct (data !! p) as [value|] eqn:Hp; [|by apply elem_of_nil in Hc].
        apply list_elem_of_singleton in Hc as ->.
        exists p, value. split_and!; [done|by left|done].
      * destruct (IH1 c Hc) as (property & value & -> & Hin & Hd).
        exists property, value. split_and!; [done|by right|done].
    + intros property value [->|Hin]%elem_of_cons Hd; apply elem_of_app.
      * left. rewrite Hd. by apply list_elem_of_singleton.
      * right. by apply IH2.
    + unfold assignedNames in *. rewrite omap_app, IH3.
      destruct (data !! p) as [value|] eqn:Hp; simpl.
      * by rewrite filter_cons_True by (by rewrite Hp).
      * rewrite filter_cons_False; [done|]. rewrite Hp. by intros [? ?].
Qed.

(** X19. [initializeComponentData] assigns the properties of its list that the
    data block has, and only those, each of them once and in the order of
    the list; an array becomes a vector of its first three elements and
    every other value is assigned as it is.  The call of the base class
    comes last, with 'enabled' as its list of properties, whatever list the
    method was given. *)
Theorem only_the_listed_properties_are_assigned (data : gmap string JSData)
    (properties : list string) :
  ∃ assignments,
    initializeComponentData data properties =
      assignments ++ [super_initializeComponentData data ["enabled"]] ∧
    (∀ c, c ∈ assignments →
          ∃ property value,
            c = Assign property (converted value) ∧
            property ∈ props ∧ data !! property = Some value) ∧
    (∀ property value,
       property ∈ props → data !! property = Some value →
       Assign property (converted value) ∈ assignments) ∧
    assignedNames assignments =
      filter (λ property, is_Some (data !! property)) props.
Proof.
  exists (assignProperties props data). split; [done|].
  apply assignProperties_spec.
Qed.

(** A vector as [initializeComponentData] makes it of the array of its
    coordinates. *)
Definition vector (v : Math.Vec3 num) : JSData :=
  new_Vec3 (DNumber (Math.x v)) (DNumber (Math.y v)) (DNumber (Math.z v)).

(** X20. The data block that [cloneComponent] hands to [addComponent], given to
    [initializeComponentData], assigns to the clone the mass, the two
    dampings, the two factors, the friction, the rolling friction, the
    restitution, the type, the group and the mask of the original, the two
    factors as new vectors with the coordinates of the original's; 'enabled'
    is in the block for the base class. *)
Theorem a_clone_gets_every_property (rigidbody : RigidBodyComponent) (clone : nat)
    (properties : list string) :
  ∃ data,
    cloneComponent rigidbody clone = addComponent clone data ∧
    data !! "enabled" = Some (DBoolean (enabled rigidbody)) ∧
    initializeComponentData data properties =
      [Assign "mass" (DNumber (mass rigidbody));
       Assign "linearDamping" (DNumber (linearDamping rigidbody));
       Assign "angularDamping" (DNumber (angularDamping rigidbody));
       Assign "linearFactor" (vector (linearFactor rigidbody));
       Assign "angularFactor" (vector (angularFactor rigidbody));
       Assign "friction" (DNumber (friction rigidbody));
       Assign "rollingFriction" (DNumber (rollingFriction rigidbody));
       Assign "restitution" (DNumber (restitution rigidbody));
       Assign "type" (DString (type rigidbody));
       Assign "group" (DNumber (group rigidbody));
       Assign "mask" (DNumber (mask rigidbody));
       super_initializeComponentData data ["enabled"]].
Proof.
  exists (cloneData rigidbody). split_and!; [done|done|].
  unfold initializeComponentData, props, assignProperties.
  by repeat (rewrite ?lookup_insert_eq; unfold cloneData; cbn [list_to_map foldr fst snd];
             rewrite ?lookup_insert_ne by done).
Qed.

End data.
End ComponentDataProofs.


Module BodiesProofs.
Import Bodies.

Section bodies.
Context `{JSNumber num}.

Lemma inWorld_app (calls more : list (NativeCall (num:=num))) world :
  inWorld (calls ++ more) world = inWorld more (inWorld calls world).
Proof.
  revert world. induction calls as [|c calls IH]; intros world; [done|].
  destruct c; simpl; by rewrite IH.
Qed.

(** X21. The life of a body.  [createBody] obtains four objects from the
    library, uses the inertia vector for the inertia of the shape when the
    mass is not zero, and destroys the construction info and the inertia
    vector before it returns; the body that [addBody] has put into the world
    is taken out of it by [onRemove], which then destroys the motion state
    and the body: every object obtained is destroyed, once, and the world
    does not hold the body any more.  The component is left without a body,
    and to remove it again does nothing; [onBeforeRemove] has disabled the
    component and left its body alone. *)
Theorem a_removed_body_is_released mass shape transform next group mask enabled0 :
  let created := createBody mass shape transform next in
  let b := created.1.1 in
  let added := addBody b group mask in
  let removed := onRemove {| enabled := enabled0; body := Some b |} in
  allocated created.2 = [next; S next; S (S next); S (S (S next))] ∧
  released created.2 = [S (S next); next] ∧
  created.1.2 = S (S (S (S next))) ∧
  (calculateLocalInertia shape mass next ∈ created.2 ↔ mass ≠ nlit 0) ∧
  inWorld (created.2 ++ added) ∅ = {[ pointer b ]} ∧
  (∃ rest, removed.2 = removeRigidBody (pointer b) :: rest ∧
           released rest = [S next; S (S (S next))] ∧ allocated rest = []) ∧
  inWorld (created.2 ++ added ++ removed.2) ∅ = ∅ ∧
  released (created.2 ++ added ++ removed.2) ≡ₚ
    allocated (created.2 ++ added ++ removed.2) ∧
  NoDup (released (created.2 ++ added ++ removed.2)) ∧
  body removed.1 = None ∧
  onRemove (num:=num) removed.1 = (removed.1, []) ∧
  enabled (onBeforeRemove {| enabled := enabled0; body := Some b |}) = false ∧
  body (onBeforeRemove {| enabled := enabled0; body := Some b |}) = Some b.
Proof.
  intros created b added removed.
  assert (released (created.2 ++ added ++ removed.2) =
          [S (S next); next; S next; S (S (S next))]) as Hreleased.
  { unfold created, added, removed, b, createBody, addBody, onRemove, destroyBody,
      removeBody, released.
    by destruct (bool_decide (mass ≠ nlit 0)), group, mask. }
  assert (allocated (created.2 ++ added ++ removed.2) =
          [next; S next; S (S next); S (S (S next))]) as Hallocated.
  { unfold created, added, removed, b, createBody, addBody, onRemove, destroyBody,
      removeBody, allocated.
    by destruct (bool_decide (mass ≠ nlit 0)), group, mask. }
  rewrite Hreleased, Hallocated.
  split_and!.
  - unfold created, createBody, allocated. by destruct (bool_decide (mass ≠ nlit 0)).
  - unfold created, createBody, released. by destruct (bool_decide (mass ≠ nlit 0)).
  - done.
  - unfold created, createBody. cbn [snd]. case_bool_decide as Hmass.
    + split; [done|]. intros _. set_solver.
    + split; [|done]. rewrite !elem_of_app, !elem_of_cons, !elem_of_nil.
      intros [[Hc|[]]|[[]|[Hc|[Hc|[Hc|[Hc|[Hc|[]]]]]]]]; discriminate Hc.
  - rewrite inWorld_app.
    assert (inWorld created.2 ∅ = ∅) as ->
      by (unfold created, createBody; cbn [snd];
          by destruct (bool_decide (mass ≠ nlit 0))).
    unfold added, addBody. destruct group, mask; simpl; set_solver.
  - eexists. split; [reflexivity|]. done.
  - rewrite !inWorld_app.
    assert (inWorld created.2 ∅ = ∅) as ->
      by (unfold created, createBody; cbn [snd];
          by destruct (bool_decide (mass ≠ nlit 0))).
    unfold added, addBody, removed. destruct group, mask; simpl; set_solver.
  - apply NoDup_Permutation.
    + repeat (apply NoDup_cons; split;
                [rewrite ?elem_of_cons, ?elem_of_nil; lia|]).
      apply NoDup_nil_2.
    + repeat (apply NoDup_cons; split;
                [rewrite ?elem_of_cons, ?elem_of_nil; lia|]).
      apply NoDup_nil_2.
    + intros p. rewrite !elem_of_cons, !elem_of_nil. tauto.
  - repeat (apply NoDup_cons; split; [rewrite ?elem_of_cons, ?elem_of_nil; lia|]).
    apply NoDup_nil_2.
  - done.
  - done.
  - unfold onBeforeRemove. by destruct enabled0.
  - unfold onBeforeRemove. by destruct enabled0.
Qed.

End bodies.
End BodiesProofs.

Module RaycastsProofs.
Import RigidBody Raycasts.

Section raycasts.
Context `{JSNumber num}.

(** The call of the third argument throws: the argument is there and is
    no function, or a function that throws. *)
Definition legacyCallThrows (extra : option ThirdArgument) : Prop :=
  extra = Some NoFunction ∨ extra = Some (Function false).

(** X22. [raycastFirst] returns null when the ray hits nothing and when the
    object it hits is not a rigid body.  On a hit of a body it returns the
    hit, unless the call of the third argument throws, and then it throws
    too.  The deprecation message is logged for a third argument on a hit
    only, and a third argument that is a function is called with the hit
    only, never with null.  The callback object of the ray test is created
    first and destroyed last, once, when the method returns; when it throws,
    the object is not destroyed. *)
Theorem raycast_first_reports_a_body_hit (start end_ : Math.Vec3 num)
    (hit : option RayHit) (extra : option ThirdArgument) :
  let r := raycastFirst start end_ hit extra in
  (r.2 = Returns None ↔
   hit = None ∨ ∃ point normal, hit = Some (None, point, normal)) ∧
  (∀ body point normal,
     hit = Some (Some body, point, normal) →
     (r.2 = Throws ↔ legacyCallThrows extra) ∧
     (¬ legacyCallThrows extra →
      r.2 = Returns (Some {| rr_entity := bodyEntity body; rr_point := point;
                             rr_normal := normal |})) ∧
     (Debug_deprecated raycastFirstMessage ∈ r.1 ↔ is_Some extra) ∧
     (∀ result,
        callback result ∈ r.1 ↔
        (∃ returns, extra = Some (Function returns)) ∧
        result = {| rr_entity := bodyEntity body; rr_point := point;
                    rr_normal := normal |})) ∧
  (r.2 = Returns None →
   r.1 = [new_ClosestRayResultCallback start end_; rayTest start end_;
          Ammo_destroy_rayCallback]) ∧
  (∃ rest, r.1 = new_ClosestRayResultCallback start end_ :: rayTest start end_ :: rest ∧
     ((∃ value, r.2 = Returns value) →
      ∃ before, rest = before ++ [Ammo_destroy_rayCallback] ∧
                Ammo_destroy_rayCallback ∉ before) ∧
     (r.2 = Throws → Ammo_destroy_rayCallback ∉ rest)).
Proof.
  intros r. unfold r, raycastFirst, legacyCallThrows. split_and!.
  - destruct hit as [[[[body|] point] normal]|], extra as [[[]|]|]; cbn [fst snd];
      naive_solver.
  - intros body point normal ->. split_and!.
    + destruct extra as [[[]|]|]; cbn [fst snd]; naive_solver.
    + destruct extra as [[[]|]|]; cbn [fst snd]; naive_solver.
    + destruct extra as [[[]|]|]; cbn [fst snd app];
        rewrite ?elem_of_cons, ?elem_of_nil; split; try naive_solver;
        by intros [? ?].
    + intros result. destruct extra as [[[]|]|]; cbn [fst snd app];
        rewrite ?elem_of_cons, ?elem_of_nil; naive_solver.
  - destruct hit as [[[[body|] point] normal]|], extra as [[[]|]|]; cbn [fst snd];
      naive_solver.
  - destruct hit as [[[[body|] point] normal]|], extra as [[[]|]|];
      cbn [fst snd app]; eexists; (split; [reflexivity|]); split;
      try (by intros [? ?]); try (by intros ?);
      try (intros _; rewrite ?elem_of_cons, ?elem_of_nil; naive_solver).
    all: intros _.
    all: first [by exists []; split; [|apply not_elem_of_nil]
               |eexists [_; _]; split; [reflexivity|];
                rewrite ?elem_of_cons, ?elem_of_nil; naive_solver].
Qed.

End raycasts.
End RaycastsProofs.

Module ShapeTestsProofs.
Import RigidBody ShapeTests.

Section tests.
Context `{JSNumber num}.




End tests.
End ShapeTestsProofs.

